(** * XCommon filesystem layer: a shallow embedding of [Code/Filesystem.cpp]

    The development follows the source file region by region: the
    [std::string] members the code calls, [Path] (normalisation, joining,
    parents, relative paths, directory creation), the [FileReader] and
    [FileWriter] facades, [StreamReader] and [DirectoryIterator].

    Conventions.
    - [str] is [std::string]: a sequence of [char]s, here [list ascii].
    - String positions and lengths are [nat]; [std::string::npos] is [None].
    - [u64] and [size_t] (x64) values are [Z] reduced modulo [2^64] where the
      source computes with them.
    - A C++ exception leaving a function is the [Throws] outcome.
    - The operating system is an explicit [World] value threaded through the
      calls that touch it. *)

From Stdlib Require Import List Ascii ZArith Lia Bool Arith.
From Stdlib Require String DecimalString.
Import ListNotations String.StringSyntax.

Open Scope string_scope.
Open Scope list_scope.

(** ** Outcomes: a value is returned or an exception propagates *)

Inductive exn : Type :=
| out_of_range   (* std::out_of_range *)
| length_error.  (* std::length_error *)

Inductive outcome (A : Type) : Type :=
| Returns (a : A)
| Throws (e : exn).

Arguments Returns {A} a.
Arguments Throws {A} e.

Definition bind {A B : Type} (m : outcome A) (k : A -> outcome B) : outcome B :=
  match m with
  | Returns a => k a
  | Throws e => Throws e
  end.

Notation "x <- m ;; k" := (bind m (fun x => k))
  (at level 61, m at next level, right associativity).

(** ** The [std::string] members used by the source *)

Definition str := list ascii.

Coercion String.list_ascii_of_string : String.string >-> list.

Module StdString.

Fixpoint eqb (a b : str) : bool :=
  match a, b with
  | [], [] => true
  | x :: a', y :: b' => Ascii.eqb x y && eqb a' b'
  | _, _ => false
  end.

Definition empty (s : str) : bool :=
  match s with [] => true | _ => false end.

(** [s.back()]; the source only calls it on a non-empty string. *)
Definition back (s : str) : ascii := last s zero.

(** [s.find(c, start)]: the first position [>= start] holding [c]. *)
Fixpoint find (s : str) (c : ascii) (start : nat) : option nat :=
  match s with
  | [] => None
  | x :: r =>
      match start with
      | 0 => if Ascii.eqb x c then Some 0 else option_map S (find r c 0)
      | S n => option_map S (find r c n)
      end
  end.

(** [s.find_last_of(c)] and [s.rfind(c)] for a single character: the last
    position holding [c]. *)
Fixpoint find_last_of (s : str) (c : ascii) : option nat :=
  match s with
  | [] => None
  | x :: r =>
      match find_last_of r c with
      | Some k => Some (S k)
      | None => if Ascii.eqb x c then Some 0 else None
      end
  end.

Definition rfind := find_last_of.

(** [s.substr(pos, count)]: throws [std::out_of_range] when
    [pos > s.size()], otherwise the at most [count] characters from [pos]. *)
Definition substr (s : str) (pos count : nat) : outcome str :=
  if length s <? pos then Throws out_of_range
  else Returns (firstn count (skipn pos s)).

(** [s.substr(pos)], the count defaulting to [npos]. *)
Definition substr_from (s : str) (pos : nat) : outcome str :=
  if length s <? pos then Throws out_of_range
  else Returns (skipn pos s).

(** Integral promotion of a [char] (signed on the targets of the source). *)
Definition int_of_char (c : ascii) : Z :=
  let n := Z.of_nat (nat_of_ascii c) in
  if (n <? 128)%Z then n else (n - 256)%Z.

(** [std::to_string(int)]: the decimal digits, with a sign when negative. *)
Definition to_string (z : Z) : str :=
  DecimalString.NilZero.string_of_int (Z.to_int z).

End StdString.

(** ** Platform selection ([#ifdef _WIN32]) *)

Inductive Platform : Type := Win32 | Posix.

Definition PATH_SEPARATOR (pf : Platform) : ascii :=
  match pf with
  | Win32 => "\"%char
  | Posix => "/"%char
  end.

(** [X_TOSTR(val)] from the macro header: [std::to_string(val)]. Applied to a
    [char] the argument is promoted to [int]. *)
Definition X_TOSTR (c : ascii) : str :=
  StdString.to_string (StdString.int_of_char c).

(** ** Path *)

Record Path : Type := mkPath { mPath : str }.

Module PathOps.
Import StdString.

Section WithPlatform.
Variable pf : Platform.

Local Abbreviation SEP := (PATH_SEPARATOR pf).

(** The vector operations on [parts]. *)
Definition push_back (parts : list str) (part : str) := parts ++ [part].
Definition pop_back (parts : list str) := removelast parts.
Definition parts_back (parts : list str) : str := last parts [].
Definition parts_empty (parts : list str) : bool :=
  match parts with [] => true | _ => false end.

(** One pass of the loop body decides what happens to [parts]. *)
Definition step_parts (parts : list str) (part : str) : list str :=
  if eqb part ".." && negb (parts_empty parts)
     && negb (eqb (parts_back parts) "..")
  then pop_back parts
  else if negb (empty part) && negb (eqb part ".")
       then push_back parts part
       else parts.

(** The [while (start < rawPath.size())] loop of [Normalize]. Every pass
    sets [start] to [end + 1 > start], so [S (length rawPath)] passes are
    enough; see [Normalize_loop_fuel]. *)
Fixpoint Normalize_loop (fuel : nat) (rawPath : str) (start : nat)
         (parts : list str) : outcome (list str) :=
  match fuel with
  | 0 => Returns parts
  | S fuel' =>
      if start <? length rawPath then
        let end_ := match find rawPath SEP start with
                    | Some e => e
                    | None => length rawPath
                    end in
        part <- substr rawPath start (end_ - start) ;;
        Normalize_loop fuel' rawPath (end_ + 1) (step_parts parts part)
      else Returns parts
  end.

(** [for (part : parts) result += PATH_SEPARATOR + part;] *)
Fixpoint join_parts (parts : list str) : str :=
  match parts with
  | [] => []
  | part :: rest => (SEP :: part) ++ join_parts rest
  end.

(** [Path::Normalize]. On Windows the leading separator is removed with
    [result.substr(1, result.size() - 1)]. *)
Definition Normalize (rawPath : str) : outcome str :=
  parts <- Normalize_loop (S (length rawPath)) rawPath 0 [] ;;
  let result := join_parts parts in
  result <- match pf with
            | Win32 => substr result 1 (length result - 1)
            | Posix => Returns result
            end ;;
  Returns (if empty result then [SEP] else result).

(** [explicit Path(const str& path) : mPath(Normalize(path))]. *)
Definition Path_ctor (path : str) : outcome Path :=
  s <- Normalize path ;; Returns (mkPath s).

(** [Path() = default]. *)
Definition Path_default : Path := mkPath [].

Definition Str (p : Path) : str := mPath p.

(** [Path::Join(const str& lhs, const str& rhs)], the private static. *)
Definition Join_str (lhs rhs : str) : str :=
  if empty lhs then lhs
  else if empty rhs then rhs
  else if Ascii.eqb (back lhs) SEP then lhs ++ rhs
  else lhs ++ [SEP] ++ rhs.

(** [Path Path::Join(const str& subPath) const]. *)
Definition Join_const (p : Path) (subPath : str) : outcome Path :=
  Path_ctor (Join_str (mPath p) subPath).

(** [Path Path::operator/(const str& subPath) const]. *)
Definition op_div (p : Path) (subPath : str) : outcome Path :=
  Path_ctor (Join_str (mPath p) subPath).

(** [Path& Path::Join(const str& subPath)]: the object after the
    assignment to [mPath]. *)
Definition Join_mut (p : Path) (subPath : str) : Path :=
  mkPath (Join_str (Str p) subPath).

(** [Path::Parent]. *)
Definition Parent (p : Path) : outcome Path :=
  match find_last_of (mPath p) SEP with
  | None => Path_ctor (X_TOSTR SEP)
  | Some 0 => Path_ctor (X_TOSTR SEP)
  | Some lastSeparator =>
      s <- substr (mPath p) 0 lastSeparator ;; Path_ctor s
  end.

(** [Path::HasExtension], [Path::Extension], [Path::ReplaceExtension]. *)
Definition HasExtension (p : Path) : bool :=
  match find_last_of (mPath p) "."%char, find_last_of (mPath p) SEP with
  | None, _ => false
  | Some _, None => true
  | Some pos, Some sep => sep <? pos
  end.

Definition Extension (p : Path) : outcome str :=
  if negb (HasExtension p) then Returns []
  else match find_last_of (mPath p) "."%char with
       | Some pos => substr_from (mPath p) (pos + 1)
       | None => substr_from (mPath p) 0
       end.

Definition ReplaceExtension (p : Path) (ext : str) : outcome Path :=
  if negb (HasExtension p) then Path_ctor (mPath p ++ "." ++ ext)
  else match find_last_of (mPath p) "."%char with
       | Some pos =>
           s <- substr (mPath p) 0 pos ;; Path_ctor (s ++ "." ++ ext)
       | None => Path_ctor (mPath p ++ "." ++ ext)
       end.

(** [Path::Filename]: both separators are tried, whatever the platform. *)
Definition Filename (p : Path) : outcome str :=
  match rfind (mPath p) "\"%char with
  | Some pos => substr_from (mPath p) (pos + 1)
  | None =>
      match rfind (mPath p) "/"%char with
      | Some pos => substr_from (mPath p) (pos + 1)
      | None => Returns (mPath p)
      end
  end.

(** [Path::BaseName]: [filename.substr(0, filename.find_last_of('.'))]; with
    no dot the count is [npos] and the whole file name is kept. *)
Definition BaseName (p : Path) : outcome str :=
  filename <- Filename p ;;
  match find_last_of filename "."%char with
  | Some pos => substr filename 0 pos
  | None => substr filename 0 (length filename)
  end.

(** [Path::RelativeTo]. *)
Definition RelativeTo (this basePath : Path) : outcome Path :=
  let thisStr := Str this in
  let baseStr := Str basePath in
  let baseStr :=
    if negb (empty baseStr) && Ascii.eqb (back baseStr) SEP
    then baseStr ++ [SEP] else baseStr in
  head <- substr thisStr 0 (length baseStr) ;;
  if negb (eqb head baseStr) then Returns this
  else
    relativePath <- substr_from thisStr (length baseStr) ;;
    if empty relativePath then Path_ctor "."
    else Path_ctor relativePath.

(** [Path::operator==]. *)
Definition Path_eqb (a b : Path) : bool := eqb (mPath a) (mPath b).

End WithPlatform.
End PathOps.

(** ** The operating system seen by the code *)

Definition u8 := Byte.byte.

Inductive Node : Type :=
| RegularFile (bytes : list u8)
| Directory.

(** What the calls of the source can observe of the machine they run on:
    - [nodes]: what [stat] finds under a path string;
    - [denied]: the path strings the system refuses to open or create
      (permissions, a missing parent directory, a sharing violation);
    - [listing]: the names [FindFirstFileA]/[FindNextFileA] hand out for a
      search pattern, in the system's order. *)
Record World : Type := mkWorld {
  nodes : str -> option Node;
  denied : str -> bool;
  listing : str -> list str
}.

(** What an already open stream meets: device errors, and how the stream
    library buffers output. [drains held n] is the number of bytes an output
    stream that holds [held] bytes hands to the device while [n] more are put
    into it: 0 as long as its buffer takes them, more once the buffer is
    exceeded or the payload is large enough to be passed on at once. *)
Record Device : Type := mkDevice {
  seek_fails : bool;
  read_fails : bool;
  write_fails : bool;
  drains : nat -> nat -> nat
}.

(** A device without errors, under a stream that holds everything back until
    it is flushed. *)
Definition healthy : Device := mkDevice false false false (fun _ _ => 0).

(** Whether putting [n] bytes into an output stream that holds [held] bytes
    makes the stream write to the device. *)
Definition writes_through (io : Device) (held n : nat) : bool :=
  0 <? Nat.min (drains io held n) (held + n).

Definition set_node (w : World) (p : str) (n : Node) : World :=
  mkWorld (fun q => if StdString.eqb q p then Some n else nodes w q)
          (denied w) (listing w).

Inductive Win32Error : Type :=
| ERROR_ALREADY_EXISTS
| ERROR_ACCESS_DENIED.

(** [CreateDirectoryA(path, nullptr)]: [None] is success, otherwise the value
    of [GetLastError()]. *)
Definition CreateDirectoryA (w : World) (p : str) : World * option Win32Error :=
  match nodes w p with
  | Some _ => (w, Some ERROR_ALREADY_EXISTS)
  | None =>
      if denied w p then (w, Some ERROR_ACCESS_DENIED)
      else (set_node w p Directory, None)
  end.

(** [std::ifstream file(path)]: the bytes of the file when the open
    succeeds. *)
Definition ifstream_open (w : World) (p : str) : option (list u8) :=
  if denied w p then None
  else match nodes w p with
       | Some (RegularFile bytes) => Some bytes
       | _ => None
       end.

(** [std::ofstream file(path, ... | std::ios::trunc)]: the world after a
    successful open, in which the file exists and is empty. *)
Definition ofstream_open_trunc (w : World) (p : str) : option World :=
  if denied w p then None
  else match nodes w p with
       | Some Directory => None
       | _ => Some (set_node w p (RegularFile []))
       end.

(** Bytes inserted into the output stream a function opens and destroys:
    [held] is the number of bytes put before. The result is [good()] as the
    function reads it, and the world is the one the function leaves behind,
    after the destructor has flushed and closed the stream. On a working
    device all bytes are at the end of the file by then. On a failing device
    nothing is stored, and [good()] shows the error only if the stream has
    written through; what the buffer still holds is lost in the destructor
    without a trace. *)
Definition ofstream_put (io : Device) (w : World) (p : str) (held : nat)
           (bytes : list u8) : bool * World :=
  if write_fails io then (negb (writes_through io held (length bytes)), w)
  else match nodes w p with
       | Some (RegularFile old) => (true, set_node w p (RegularFile (old ++ bytes)))
       | _ => (false, w)
       end.

(** Text-mode streams: on Windows the runtime writes a line feed as carriage
    return + line feed, undoes it when reading and takes Ctrl-Z for the end
    of the input; elsewhere bytes pass unchanged. *)
Definition LF : ascii := "010"%char.
Definition CR : ascii := "013"%char.
Definition CTRL_Z : ascii := "026"%char.

Fixpoint text_out (pf : Platform) (s : str) : list u8 :=
  match s with
  | [] => []
  | c :: r =>
      match pf with
      | Win32 => if Ascii.eqb c LF
                 then byte_of_ascii CR :: byte_of_ascii LF :: text_out pf r
                 else byte_of_ascii c :: text_out pf r
      | Posix => byte_of_ascii c :: text_out pf r
      end
  end.

Fixpoint text_in (pf : Platform) (b : list u8) : str :=
  match b with
  | [] => []
  | x :: r =>
      match pf with
      | Win32 =>
          if Ascii.eqb (ascii_of_byte x) CTRL_Z then []
          else match r with
               | y :: r' =>
                   if Ascii.eqb (ascii_of_byte x) CR
                      && Ascii.eqb (ascii_of_byte y) LF
                   then LF :: text_in pf r'
                   else ascii_of_byte x :: text_in pf r
               | [] => [ascii_of_byte x]
               end
      | Posix => ascii_of_byte x :: text_in pf r
      end
  end.

(** ** 64-bit unsigned arithmetic and [std::vector<u8>] *)

Definition u64 (z : Z) : Z := (z mod 2 ^ 64)%Z.

(** [std::vector<u8>::max_size()] on the 64-bit targets. *)
Definition vector_max_size : Z := (2 ^ 63 - 1)%Z.

(** [std::vector<u8> buffer(size)]: [size] zero bytes, or [std::length_error]
    beyond [max_size()]. *)
Definition vector_ctor (size : Z) : outcome (list u8) :=
  if (vector_max_size <? size)%Z then Throws length_error
  else Returns (repeat Byte.x00 (Z.to_nat size)).

(** [data.resize(size)]. *)
Definition vector_resize (data : list u8) (size : Z) : outcome (list u8) :=
  if (vector_max_size <? size)%Z then Throws length_error
  else Returns (firstn (Z.to_nat size) data
                ++ repeat Byte.x00 (Z.to_nat size - length data)).

(** Copying [got] over the front of [buffer], as [read] does through
    [buffer.data()]. *)
Definition overwrite (buffer got : list u8) : list u8 :=
  got ++ skipn (length got) buffer.

(** [std::ofstream file(path, std::ios::binary | std::ios::in | std::ios::out)]:
    the bytes of an existing file; nothing is created and nothing truncated. *)
Definition ofstream_open_rw (w : World) (p : str) : option (list u8) :=
  if denied w p then None
  else match nodes w p with
       | Some (RegularFile bytes) => Some bytes
       | _ => None
       end.

(** [std::ofstream file(path, std::ios::binary | std::ios::app)]: the world
    after a successful open; a missing file is created empty, an existing one
    keeps its bytes. *)
Definition ofstream_open_app (w : World) (p : str) : option World :=
  if denied w p then None
  else match nodes w p with
       | Some Directory => None
       | Some (RegularFile _) => Some w
       | None => Some (set_node w p (RegularFile []))
       end.

(** Writing [data] at position [pos] of a file: bytes under the range are
    replaced, a gap after the old end is filled with zero bytes, what follows
    the range stays. Writing nothing changes nothing. *)
Definition patch (old : list u8) (pos : nat) (data : list u8) : list u8 :=
  match data with
  | [] => old
  | _ => firstn pos old ++ repeat Byte.x00 (pos - length old)
         ++ data ++ skipn (pos + length data) old
  end.

(** [std::getline(stream, line)] on the characters still to be read: the line
    and, when a line feed ended it, what follows the line feed. *)
Fixpoint getline (input : str) : str * option str :=
  match input with
  | [] => ([], None)
  | c :: r =>
      if Ascii.eqb c LF then ([], Some r)
      else let (line, rest) := getline r in (c :: line, rest)
  end.

(** [while (std::getline(file, line)) lines.push_back(line);]: [getline]
    fails once nothing is left to read. Each pass consumes a character, so
    the length of the input bounds the passes. *)
Fixpoint getlines (fuel : nat) (input : str) : list str :=
  match fuel with
  | 0 => []
  | S fuel' =>
      match input with
      | [] => []
      | _ :: _ =>
          let (line, rest) := getline input in
          line :: match rest with
                  | Some r => getlines fuel' r
                  | None => []
                  end
      end
  end.

(** ** FileReader and FileWriter *)

Module FileIO.
Import StdString PathOps.

Section WithPlatform.
Variable pf : Platform.

(** [FileReader::ReadText]. *)
Definition ReadText (w : World) (path : Path) : str :=
  match ifstream_open w (Str path) with
  | None => []
  | Some bytes => text_in pf bytes
  end.

(** [FileReader::ReadBytes]. *)
Definition ReadBytes (io : Device) (w : World) (path : Path)
  : outcome (list u8) :=
  match ifstream_open w (Str path) with
  | None => Returns []
  | Some content =>
      let fileSize := Z.of_nat (length content) in
      bytes <- vector_ctor fileSize ;;
      if seek_fails io || read_fails io then Returns []
      else Returns (overwrite bytes content)
  end.

(** [FileReader::ReadLines]. *)
Definition ReadLines (w : World) (path : Path) : list str :=
  match ifstream_open w (Str path) with
  | None => []
  | Some bytes =>
      let input := text_in pf bytes in getlines (length input) input
  end.

(** [FileReader::QueryFileSize]. *)
Definition QueryFileSize (w : World) (path : Path) : Z :=
  match ifstream_open w (Str path) with
  | None => 0%Z
  | Some bytes => u64 (Z.of_nat (length bytes))
  end.

(** [FileReader::ReadBlock]. [size] and [offset] are 64-bit unsigned. *)
Definition ReadBlock (io : Device) (w : World) (path : Path)
           (size offset : Z) : outcome (list u8) :=
  match ifstream_open w (Str path) with
  | None => Returns []
  | Some bytes =>
      let fileSize := Z.of_nat (length bytes) in
      if (u64 fileSize <=? offset)%Z || (size =? 0)%Z
         || (u64 fileSize <? u64 (offset + size))%Z
      then Returns []
      else if seek_fails io then Returns []
      else
        buffer <- vector_ctor size ;;
        let got := firstn (Z.to_nat size) (skipn (Z.to_nat offset) bytes) in
        if read_fails io || (Z.of_nat (length got) <? size)%Z
        then Returns []
        else Returns (overwrite buffer got)
  end.

(** [FileWriter::WriteBytes]. *)
Definition WriteBytes (io : Device) (w : World) (path : Path)
           (data : list u8) : bool * World :=
  match ofstream_open_trunc w (Str path) with
  | None => (false, w)
  | Some w1 => ofstream_put io w1 (Str path) 0 data
  end.

(** [FileWriter::WriteText]. *)
Definition WriteText (io : Device) (w : World) (path : Path) (text : str)
  : bool * World :=
  match ofstream_open_trunc w (Str path) with
  | None => (false, w)
  | Some w1 =>
      let outText := text in
      if empty outText then (false, w1)
      else
        let outText :=
          if negb (Ascii.eqb (back outText) LF) then outText ++ [LF]
          else outText in
        ofstream_put io w1 (Str path) 0 (text_out pf outText)
  end.

(** The loop of [FileWriter::WriteLines]: [file << line << '\n'], then the
    check of [good()]. [held] counts the bytes put so far. *)
Fixpoint put_lines (io : Device) (w : World) (p : str) (held : nat)
         (lines : list str) : bool * World :=
  match lines with
  | [] => (true, w)
  | line :: rest =>
      let bytes := text_out pf line in
      let eol := text_out pf [LF] in
      let (ok, w1) := ofstream_put io w p held bytes in
      let (ok, w2) := if ok
                      then ofstream_put io w1 p (held + length bytes) eol
                      else (false, w1) in
      if negb ok then (false, w2)
      else put_lines io w2 p (held + length bytes + length eol) rest
  end.

(** [FileWriter::WriteLines]. *)
Definition WriteLines (io : Device) (w : World) (path : Path)
           (lines : list str) : bool * World :=
  match ofstream_open_trunc w (Str path) with
  | None => (false, w)
  | Some w1 => put_lines io w1 (Str path) 0 lines
  end.

(** [FileWriter::WriteBlock]. [offset] is 64-bit unsigned; as a
    [std::streamoff] a value from [2^63] on is negative and the seek fails.
    As in [ofstream_put], the world is the one left after the destructor of
    the stream, and on a failing device [good()] shows the error only if
    the stream has written through. *)
Definition WriteBlock (io : Device) (w : World) (path : Path)
           (data : list u8) (offset : Z) : bool * World :=
  match ofstream_open_rw w (Str path) with
  | None => (false, w)
  | Some old =>
      if seek_fails io || (2 ^ 63 <=? offset)%Z then (false, w)
      else if write_fails io
      then (negb (writes_through io 0 (length data)), w)
      else (true, set_node w (Str path)
                    (RegularFile (patch old (Z.to_nat offset) data)))
  end.

End WithPlatform.
End FileIO.

(** ** Path: queries and directory creation *)

Module PathFS.
Import StdString PathOps.

(** [Path::Exists]: [stat(mPath.c_str(), &info) == 0]. *)
Definition Exists (w : World) (p : Path) : bool :=
  match nodes w (mPath p) with Some _ => true | None => false end.

(** [Path::IsFile] and [Path::IsDirectory]. *)
Definition IsFile (w : World) (p : Path) : bool :=
  match nodes w (mPath p) with Some (RegularFile _) => true | _ => false end.

Definition IsDirectory (w : World) (p : Path) : bool :=
  match nodes w (mPath p) with Some Directory => true | _ => false end.

(** [Path::Create]. *)
Definition Create (w : World) (p : Path) : bool * World :=
  if Exists w p then (true, w)
  else match CreateDirectoryA w (mPath p) with
       | (w', None) => (true, w')
       | (w', Some error) =>
           match error with
           | ERROR_ALREADY_EXISTS => (true, w')
           | _ => (false, w')
           end
       end.

Section WithPlatform.
Variable pf : Platform.

(** [Path::CreateAll]. [fuel] bounds the depth of the recursive calls; [None]
    means the bound was reached with a call still pending. *)
Fixpoint CreateAll (fuel : nat) (w : World) (p : Path)
  : option (outcome (bool * World)) :=
  match fuel with
  | 0 => None
  | S fuel' =>
      if Exists w p then Some (Returns (true, w))
      else if negb (eqb (mPath p) [PATH_SEPARATOR pf]) then
        match Parent pf p with
        | Throws e => Some (Throws e)
        | Returns parentPath =>
            if negb (Exists w parentPath) then
              match CreateAll fuel' w parentPath with
              | None => None
              | Some (Throws e) => Some (Throws e)
              | Some (Returns (false, w')) => Some (Returns (false, w'))
              | Some (Returns (true, w')) => Some (Returns (Create w' p))
              end
            else Some (Returns (Create w p))
        end
      else Some (Returns (Create w p))
  end.

End WithPlatform.
End PathFS.

(** ** StreamReader *)

Module Stream.

(** The state flags of a stream. *)
Record iostate : Type := mkState { eofbit : bool; failbit : bool; badbit : bool }.

Definition goodbit : iostate := mkState false false false.

(** A [std::ifstream]: whether a file is attached, its bytes, the get
    position and the state flags. *)
Record ifstream : Type := mkIfstream {
  is_open : bool;
  contents : list u8;
  gpos : Z;
  state : iostate
}.

Definition good (s : ifstream) : bool :=
  negb (eofbit (state s)) && negb (failbit (state s)) && negb (badbit (state s)).

Record StreamReader : Type := mkReader {
  mStream : ifstream;
  mSize : Z
}.

(** [StreamReader::StreamReader(const Path&)]: opened at the end to take the
    size, then rewound. *)
Definition StreamReader_ctor (w : World) (path : Path) : StreamReader :=
  match ifstream_open w (PathOps.Str path) with
  | Some bytes =>
      mkReader (mkIfstream true bytes 0 goodbit) (u64 (Z.of_nat (length bytes)))
  | None =>
      mkReader (mkIfstream false [] 0 (mkState false true false)) 0
  end.

(** [StreamReader::IsOpen], [Position], [Size]. *)
Definition IsOpen (r : StreamReader) : bool :=
  is_open (mStream r) && good (mStream r).

Definition Position (r : StreamReader) : Z :=
  if negb (IsOpen r) then 0%Z else u64 (gpos (mStream r)).

Definition Size (r : StreamReader) : Z := mSize r.

(** [mStream.seekg((std::streamoff)offset)]: an offset that is negative as a
    signed 64-bit value is refused; a file position past the end is not. *)
Definition seekg (io : Device) (s : ifstream) (offset : Z) : ifstream :=
  if seek_fails io || (2 ^ 63 <=? offset)%Z
  then mkIfstream (is_open s) (contents s) (gpos s)
                  (mkState (eofbit (state s)) true (badbit (state s)))
  else mkIfstream (is_open s) (contents s) offset (state s).

(** [StreamReader::Seek]. *)
Definition Seek (io : Device) (r : StreamReader) (offset : Z)
  : bool * StreamReader :=
  if negb (IsOpen r) then (false, r)
  else let s := seekg io (mStream r) offset in
       (good s, mkReader s (mSize r)).

(** [mStream.read(ptr, n)]: the bytes extracted and the stream afterwards.
    Running into the end of the file sets [eofbit] and [failbit]; a device
    error sets [badbit]. *)
Definition read (io : Device) (s : ifstream) (n : Z) : list u8 * ifstream :=
  if read_fails io
  then ([], mkIfstream (is_open s) (contents s) (gpos s)
                       (mkState (eofbit (state s)) (failbit (state s)) true))
  else
    let avail := skipn (Z.to_nat (gpos s)) (contents s) in
    if (n <=? Z.of_nat (length avail))%Z
    then (firstn (Z.to_nat n) avail,
          mkIfstream (is_open s) (contents s) (gpos s + n) (state s))
    else (avail,
          mkIfstream (is_open s) (contents s) (Z.of_nat (length (contents s)))
                     (mkState true true (badbit (state s)))).

(** [StreamReader::Read]: the result, the caller's vector and the reader
    after the call. [size] is a 64-bit unsigned value. *)
Definition Read (io : Device) (r : StreamReader) (data : list u8) (size : Z)
  : outcome (bool * list u8 * StreamReader) :=
  if negb (IsOpen r) || (size =? 0)%Z then Returns (false, data, r)
  else
    let currentPos := Position r in
    let size := if (mSize r <? u64 (currentPos + size))%Z
                then u64 (mSize r - currentPos) else size in
    data <- vector_resize data size ;;
    let '(got, s) := read io (mStream r) size in
    Returns (good s, overwrite data got, mkReader s (mSize r)).

(** An unformatted read on a stream that is not good extracts nothing and
    sets [failbit]. *)
Definition read_checked (io : Device) (s : ifstream) (n : Z)
  : list u8 * ifstream :=
  if good s then read io s n
  else ([], mkIfstream (is_open s) (contents s) (gpos s)
                       (mkState (eofbit (state s)) true (badbit (state s)))).

(** [StreamReader::ReadAll]. The result of [Seek(0)] is not looked at. *)
Definition ReadAll (io : Device) (r : StreamReader) (data : list u8)
  : outcome (bool * list u8 * StreamReader) :=
  if negb (IsOpen r) then Returns (false, data, r)
  else
    let size := Size r in
    if (size =? 0)%Z then Returns (true, [], r)
    else
      let '(_, r1) := Seek io r 0 in
      data <- vector_resize data size ;;
      let '(got, s) := read_checked io (mStream r1) size in
      Returns (good s, overwrite data got, mkReader s (mSize r1)).

(** [StreamReader::ReadLine]: [std::getline] on the binary stream. The line
    is erased first; reaching the end of the file sets [eofbit], and
    [failbit] too when no character was extracted. *)
Definition ReadLine (io : Device) (r : StreamReader) (line : str)
  : bool * str * StreamReader :=
  if negb (IsOpen r) then (false, line, r)
  else
    let s := mStream r in
    if read_fails io
    then (false, [],
          mkReader (mkIfstream (is_open s) (contents s) (gpos s)
                      (mkState (eofbit (state s)) (failbit (state s)) true))
                   (mSize r))
    else
      let avail :=
        map ascii_of_byte (skipn (Z.to_nat (gpos s)) (contents s)) in
      match avail with
      | [] =>
          (false, [],
           mkReader (mkIfstream (is_open s) (contents s) (gpos s)
                       (mkState true true (badbit (state s))))
                    (mSize r))
      | _ :: _ =>
          let (text, rest) := getline avail in
          match rest with
          | Some _ =>
              (true, text,
               mkReader (mkIfstream (is_open s) (contents s)
                           (gpos s + Z.of_nat (length text) + 1) (state s))
                        (mSize r))
          | None =>
              (true, text,
               mkReader (mkIfstream (is_open s) (contents s)
                           (Z.of_nat (length (contents s)))
                           (mkState true (failbit (state s)) (badbit (state s))))
                        (mSize r))
          end
      end.

(** [StreamReader::Close]. *)
Definition Close (r : StreamReader) : StreamReader :=
  if is_open (mStream r)
  then mkReader (mkIfstream false [] 0 (state (mStream r))) (mSize r)
  else r.

End Stream.

(** ** StreamWriter *)

Module Writer.

(** A [std::ofstream]: whether a file is attached, its path, whether it was
    opened with [std::ios::app], the file position at which the bytes it
    holds will be written, the bytes put into it that it has not yet handed
    to the device, and [good()]. *)
Record ofstream : Type := mkOfstream {
  is_open : bool;
  path : str;
  app : bool;
  ppos : Z;
  held : list u8;
  good : bool
}.

Record StreamWriter : Type := mkWriter { mStream : ofstream }.

(** [StreamWriter::StreamWriter(const Path&, bool append)]. *)
Definition StreamWriter_ctor (w : World) (p : Path) (append : bool)
  : StreamWriter * World :=
  match (if append then ofstream_open_app w (PathOps.Str p)
         else ofstream_open_trunc w (PathOps.Str p)) with
  | Some w' =>
      (mkWriter (mkOfstream true (PathOps.Str p) append 0 [] true), w')
  | None =>
      (mkWriter (mkOfstream false (PathOps.Str p) append 0 [] false), w)
  end.

(** [StreamWriter::IsOpen]. *)
Definition IsOpen (sw : StreamWriter) : bool :=
  is_open (mStream sw) && good (mStream sw).

(** The stream hands the first [k] bytes it holds to the device: with
    [std::ios::app] they go to the end of the file, otherwise to the file
    position. A device error makes the stream bad. *)
Definition drain (io : Device) (w : World) (s : ofstream) (k : nat)
  : ofstream * World :=
  if k =? 0 then (s, w)
  else if write_fails io
  then (mkOfstream (is_open s) (path s) (app s) (ppos s) (held s) false, w)
  else match nodes w (path s) with
       | Some (RegularFile old) =>
           let pos := if app s then length old else Z.to_nat (ppos s) in
           (mkOfstream (is_open s) (path s) (app s) (Z.of_nat (pos + k))
              (skipn k (held s)) (good s),
            set_node w (path s)
              (RegularFile (patch old pos (firstn k (held s)))))
       | _ =>
           (mkOfstream (is_open s) (path s) (app s) (ppos s) (held s) false, w)
       end.

(** [mStream.write(ptr, n)] and [mStream << text] on a good stream: the
    bytes join those the stream holds, and the stream hands to the device as
    many as its buffering says. *)
Definition write (io : Device) (w : World) (s : ofstream) (bytes : list u8)
  : ofstream * World :=
  let s1 := mkOfstream (is_open s) (path s) (app s) (ppos s)
                       (held s ++ bytes) (good s) in
  drain io w s1 (Nat.min (drains io (length (held s)) (length bytes))
                         (length (held s1))).

(** [mStream.flush()]: everything held is handed to the device. *)
Definition flush (io : Device) (w : World) (s : ofstream) : ofstream * World :=
  drain io w s (length (held s)).

(** [StreamWriter::Write(const std::vector<u8>&, size_t)]. *)
Definition Write (io : Device) (w : World) (sw : StreamWriter)
           (buffer : list u8) (size : Z) : bool * StreamWriter * World :=
  if negb (IsOpen sw) || (size =? 0)%Z then (false, sw, w)
  else
    let size := if (Z.of_nat (length buffer) <? size)%Z
                then Z.of_nat (length buffer) else size in
    let (s, w') := write io w (mStream sw) (firstn (Z.to_nat size) buffer) in
    (good s, mkWriter s, w').

(** [StreamWriter::Write(const std::vector<u8>&)]. *)
Definition Write_buffer (io : Device) (w : World) (sw : StreamWriter)
           (buffer : list u8) : bool * StreamWriter * World :=
  Write io w sw buffer (u64 (Z.of_nat (length buffer))).

(** [StreamWriter::WriteLine]: [mStream << line << '\n'] on the binary
    stream; the second insertion does nothing on a stream the first one
    left bad. *)
Definition WriteLine (io : Device) (w : World) (sw : StreamWriter) (line : str)
  : bool * StreamWriter * World :=
  if negb (IsOpen sw) then (false, sw, w)
  else
    let (s1, w1) := write io w (mStream sw) (map byte_of_ascii line) in
    let (s2, w2) := if good s1 then write io w1 s1 (map byte_of_ascii [LF])
                    else (s1, w1) in
    (good s2, mkWriter s2, w2).

(** [StreamWriter::Flush]. *)
Definition Flush (io : Device) (w : World) (sw : StreamWriter)
  : bool * StreamWriter * World :=
  if negb (IsOpen sw) then (false, sw, w)
  else let (s, w') := flush io w (mStream sw) in (good s, mkWriter s, w').

(** [StreamWriter::Seek]: [seekp] first hands what the stream holds to the
    device, then moves the file position; an offset that is negative as a
    signed 64-bit value is refused. *)
Definition Seek (io : Device) (w : World) (sw : StreamWriter) (offset : Z)
  : bool * StreamWriter * World :=
  if negb (IsOpen sw) then (false, sw, w)
  else
    let (s, w') := flush io w (mStream sw) in
    if negb (good s) || seek_fails io || (2 ^ 63 <=? offset)%Z
    then (false, mkWriter (mkOfstream (is_open s) (path s) (app s) (ppos s)
                                      (held s) false), w')
    else (true, mkWriter (mkOfstream (is_open s) (path s) (app s) offset
                                     (held s) (good s)), w').

(** [StreamWriter::Position]: [tellp] counts the bytes the stream holds. *)
Definition Position (sw : StreamWriter) : Z :=
  if negb (IsOpen sw) then 0%Z
  else u64 (ppos (mStream sw) + Z.of_nat (length (held (mStream sw)))).

(** [StreamWriter::Close]: [flush()], then [close()]. *)
Definition Close (io : Device) (w : World) (sw : StreamWriter)
  : StreamWriter * World :=
  if is_open (mStream sw)
  then let (s, w') := flush io w (mStream sw) in
       (mkWriter (mkOfstream false (path s) (app s) 0 [] (good s)), w')
  else (sw, w).

End Writer.

(** ** The macros of the macro header *)

Module Macros.

(** [X_BIT(x)] is [1ULL << (x)], for a shift count below 64. *)
Definition X_BIT (x : Z) : Z := u64 (Z.shiftl 1 x).

(** [X_SETBIT], [X_CLEARBIT], [X_TOGGLEBIT]: the value the 64-bit variable
    holds afterwards. *)
Definition X_SETBIT (x bit : Z) : Z := Z.lor x (X_BIT bit).
Definition X_CLEARBIT (x bit : Z) : Z := Z.land x (u64 (Z.lnot (X_BIT bit))).
Definition X_TOGGLEBIT (x bit : Z) : Z := Z.lxor x (X_BIT bit).

(** [X_CHECKBIT(x, bit)] is [!!((x) & X_BIT(bit))]. *)
Definition X_CHECKBIT (x bit : Z) : bool :=
  negb (Z.land x (X_BIT bit) =? 0)%Z.

(** [X_MIN], [X_MAX] and [X_CLAMP] take operands of any arithmetic type;
    they are modelled on the integer types [int], [unsigned int] (32 bits),
    [long long] and [unsigned long long] (64 bits). An operand is its type
    and its value. *)
Inductive ctype : Type := c_int | c_uint | c_llong | c_ullong.

Record cvalue : Type := mkValue { ctype_of : ctype; value_of : Z }.

Definition is_signed (t : ctype) : bool :=
  match t with c_int | c_llong => true | c_uint | c_ullong => false end.

Definition int_bits (t : ctype) : Z :=
  match t with c_int | c_uint => 32%Z | c_llong | c_ullong => 64%Z end.

(** Conversion of a value to type [t]: modulo [2^bits], read in two's
    complement for a signed type. *)
Definition convert_to (t : ctype) (z : Z) : Z :=
  let m := (z mod 2 ^ int_bits t)%Z in
  if is_signed t && (2 ^ (int_bits t - 1) <=? m)%Z
  then (m - 2 ^ int_bits t)%Z else m.

(** The usual arithmetic conversions: the type both operands of [<], [>]
    and [?:] are converted to. *)
Definition common_type (a b : ctype) : ctype :=
  match a, b with
  | c_ullong, _ | _, c_ullong => c_ullong
  | c_llong, _ | _, c_llong => c_llong
  | c_uint, _ | _, c_uint => c_uint
  | c_int, c_int => c_int
  end.

(** [X_MIN(a, b)] is [(((a) < (b)) ? (a) : (b))] and [X_MAX(a, b)] is
    [(((a) > (b)) ? (a) : (b))]: the comparison and the result are in the
    common type. *)
Definition X_MIN (a b : cvalue) : cvalue :=
  let t := common_type (ctype_of a) (ctype_of b) in
  if (convert_to t (value_of a) <? convert_to t (value_of b))%Z
  then mkValue t (convert_to t (value_of a))
  else mkValue t (convert_to t (value_of b)).

Definition X_MAX (a b : cvalue) : cvalue :=
  let t := common_type (ctype_of a) (ctype_of b) in
  if (convert_to t (value_of a) >? convert_to t (value_of b))%Z
  then mkValue t (convert_to t (value_of a))
  else mkValue t (convert_to t (value_of b)).

(** [X_CLAMP(value, min, max)] is [(X_MIN(X_MAX(value, min), max))]. *)
Definition X_CLAMP (value min max : cvalue) : cvalue :=
  X_MIN (X_MAX value min) max.

End Macros.

(** ** The fixed-buffer string helpers *)

Module CStrings.

Definition NUL : ascii := zero.

(** A [char*] argument: [nullptr], or the characters of the array it points
    to. An access outside the array has no defined result; functions return
    [None] for it. *)
Definition cptr : Type := option (list ascii).

(** [for (; len < limit && s[len] != '\0'; ++len) {}]. *)
Fixpoint count_chars (s : list ascii) (limit : nat) : option nat :=
  match limit with
  | 0 => Some 0
  | S limit' =>
      match s with
      | [] => None
      | c :: r =>
          if Ascii.eqb c NUL then Some 0
          else option_map S (count_chars r limit')
      end
  end.

(** [buf[i] = c]. *)
Definition store (buf : list ascii) (i : nat) (c : ascii)
  : option (list ascii) :=
  if i <? length buf then Some (firstn i buf ++ c :: skipn (S i) buf)
  else None.

(** [std::memcpy(dst + off, src, n)]. *)
Definition memcpy (dst : list ascii) (off : nat) (src : list ascii) (n : nat)
  : option (list ascii) :=
  if (off + n <=? length dst) && (n <=? length src)
  then Some (firstn off dst ++ firstn n src ++ skipn (off + n) dst)
  else None.

(** [StrLen]. *)
Definition StrLen (str : cptr) (maxLen : nat) : option nat :=
  match str with
  | None => Some 0
  | Some s => count_chars s maxLen
  end.

(** [StrCopy]: the result and the destination array afterwards. *)
Definition StrCopy (dst : cptr) (dstSize : nat) (src : cptr)
  : option (bool * cptr) :=
  match dst, src with
  | Some d, Some s =>
      if dstSize =? 0 then Some (false, dst)
      else
        match count_chars s dstSize with
        | None => None
        | Some srcLen =>
            if dstSize <=? srcLen then
              match store d 0 NUL with
              | Some d' => Some (false, Some d')
              | None => None
              end
            else
              match memcpy d 0 s srcLen with
              | Some d1 =>
                  match store d1 srcLen NUL with
                  | Some d2 => Some (true, Some d2)
                  | None => None
                  end
              | None => None
              end
        end
  | _, _ => Some (false, dst)
  end.

(** [StrConcat]. *)
Definition StrConcat (dst : cptr) (dstSize : nat) (src : cptr)
  : option (bool * cptr) :=
  match dst, src with
  | Some d, Some s =>
      if dstSize =? 0 then Some (false, dst)
      else
        match count_chars d dstSize with
        | None => None
        | Some dstLen =>
            if dstSize <=? dstLen then
              match store d 0 NUL with
              | Some d' => Some (false, Some d')
              | None => None
              end
            else
              let spaceLeft := dstSize - dstLen in
              match count_chars s spaceLeft with
              | None => None
              | Some srcLen =>
                  if spaceLeft <=? srcLen then Some (false, dst)
                  else
                    match memcpy d dstLen s srcLen with
                    | Some d1 =>
                        match store d1 (dstLen + srcLen) NUL with
                        | Some d2 => Some (true, Some d2)
                        | None => None
                        end
                    | None => None
                    end
              end
        end
  | _, _ => Some (false, dst)
  end.

(** The loop of [StrCompare]. *)
Fixpoint compare_chars (a b : list ascii) (maxLen : nat) : option Z :=
  match maxLen with
  | 0 => Some 0%Z
  | S n =>
      match a, b with
      | x :: a', y :: b' =>
          if negb (Ascii.eqb x y) || Ascii.eqb x NUL
          then Some (StdString.int_of_char x - StdString.int_of_char y)%Z
          else compare_chars a' b' n
      | _, _ => None
      end
  end.

(** [StrCompare]. *)
Definition StrCompare (strA strB : cptr) (maxLen : nat) : option Z :=
  match strA, strB with
  | Some a, Some b => compare_chars a b maxLen
  | Some _, None => Some 1%Z
  | None, Some _ => Some (-1)%Z
  | None, None => Some 0%Z
  end.

End CStrings.

(** ** DateTime: the 12-hour clock *)

Module DateTime.

Record tm : Type := mkTm { tm_sec : Z; tm_min : Z; tm_hour : Z }.

(** [oss << std::setfill('0') << std::setw(2) << n]: the decimal digits,
    padded on the left to two characters. *)
Definition put_w2 (n : Z) : str :=
  let digits := StdString.to_string n in
  repeat "0"%char (2 - length digits) ++ digits.

(** [DateTime::FormatTimeString]. *)
Definition FormatTimeString (t : tm) : str :=
  let hour := tm_hour t in
  let isPM := (12 <=? tm_hour t)%Z in
  let hour := Z.rem hour 12 in
  let hour := if (hour =? 0)%Z then 12%Z else hour in
  put_w2 hour ++ ":" ++ put_w2 (tm_min t) ++ ":" ++ put_w2 (tm_sec t)
  ++ (if isPM then " PM" else " AM").

End DateTime.

(** ** DirectoryIterator *)

Module Dir.
Import StdString PathOps PathFS.

(** The find handle is the names [FindNextFileA] has yet to hand out;
    [None] is [INVALID_HANDLE_VALUE]. *)
Record DirectoryIterator : Type := mkIter {
  mIsEnd : bool;
  mRoot : Path;
  mCurrent : Path;
  mFindHandle : option (list str)
}.

(** [DirectoryIterator::DirectoryIterator()]. *)
Definition DirectoryIterator_end : DirectoryIterator :=
  mkIter true Path_default Path_default None.

Definition is_dot (cFileName : str) : bool :=
  eqb cFileName "." || eqb cFileName "..".

Section WithPlatform.
Variable pf : Platform.

(** [DirectoryIterator::ProcessCurrentEntry], with the call of [operator++]
    it makes on a pseudo-entry unfolded: [pending] is what the handle still
    holds, and the recursion consumes it. *)
Fixpoint ProcessCurrentEntry (it : DirectoryIterator) (cFileName : str)
         (pending : list str) : outcome DirectoryIterator :=
  if is_dot cFileName then
    if mIsEnd it then
      Returns (mkIter true (mRoot it) (mCurrent it) (Some pending))
    else
      match pending with
      | [] => Returns (mkIter true (mRoot it) (mCurrent it) (Some []))
      | next :: pending' => ProcessCurrentEntry it next pending'
      end
  else
    current <- op_div pf (mRoot it) cFileName ;;
    Returns (mkIter (mIsEnd it) (mRoot it) current (Some pending)).

(** [DirectoryIterator::operator++]. *)
Definition op_incr (it : DirectoryIterator) : outcome DirectoryIterator :=
  if mIsEnd it then Returns it
  else match mFindHandle it with
       | Some (next :: pending) => ProcessCurrentEntry it next pending
       | _ => Returns (mkIter true (mRoot it) (mCurrent it) (mFindHandle it))
       end.

(** [DirectoryIterator::DirectoryIterator(const Path&)]. *)
Definition DirectoryIterator_ctor (w : World) (path : Path)
  : outcome DirectoryIterator :=
  let it := mkIter false path Path_default None in
  if negb (IsDirectory w (mRoot it)) then
    Returns (mkIter true path Path_default None)
  else
    let searchPattern := Str (mRoot it) ++ "\*" in
    match listing w searchPattern with
    | [] => Returns (mkIter true path Path_default None)
    | first :: pending => ProcessCurrentEntry it first pending
    end.

(** [DirectoryIterator::operator==] and [operator!=]. *)
Definition iter_eqb (a b : DirectoryIterator) : bool :=
  if mIsEnd a && mIsEnd b then true
  else if mIsEnd a || mIsEnd b then false
  else Path_eqb (mCurrent a) (mCurrent b).

End WithPlatform.
End Dir.

Import StdString PathOps PathFS FileIO Stream Dir Macros CStrings.

(** * Notions used in the statements *)

(** What [Path(X_TOSTR(PATH_SEPARATOR))] stores: the decimal character code
    of the separator, normalised. *)
Definition separator_code (pf : Platform) : str :=
  match pf with
  | Win32 => "92"
  | Posix => "/47"
  end.

(** The root path of the platform: the separator alone. *)
Definition root_path (pf : Platform) : Path := mkPath [PATH_SEPARATOR pf].

(** [s] begins with [pre]. *)
Definition begins_with (s pre : str) : Prop := exists rest, s = pre ++ rest.

(** The segments of a path string: what lies between the separators. *)
Fixpoint split_on (c : ascii) (s : str) : list str :=
  match s with
  | [] => [[]]
  | x :: r =>
      if Ascii.eqb x c then [] :: split_on c r
      else match split_on c r with
           | seg :: segs => (x :: seg) :: segs
           | [] => [[x]]
           end
  end.

Definition is_name (seg : str) : bool :=
  negb (empty seg) && negb (eqb seg ".") && negb (eqb seg "..").

(** No [..] segment directly follows a name it could cancel. *)
Fixpoint no_resolvable_dotdot (segs : list str) : bool :=
  match segs with
  | a :: rest =>
      match rest with
      | b :: _ => negb (is_name a && eqb b "..")
      | [] => true
      end && no_resolvable_dotdot rest
  | [] => true
  end.

(** The last line of [Normalize]: an empty result stands for the root. *)
Definition or_root (pf : Platform) (result : str) : str :=
  if empty result then [PATH_SEPARATOR pf] else result.

(** The parts [Normalize] keeps: never empty, never [.], free of separators,
    and with no [..] after a name. *)
Definition proper_part (pf : Platform) (part : str) : Prop :=
  part <> [] /\ part <> "." /\ ~ In (PATH_SEPARATOR pf) part.

Definition parts_ok (pf : Platform) (parts : list str) : Prop :=
  Forall (proper_part pf) parts /\ no_resolvable_dotdot parts = true.

(** What [Normalize] makes of the parts it has kept. *)
Definition render (pf : Platform) (parts : list str) : outcome str :=
  match pf with
  | Win32 =>
      match parts with
      | [] => Throws out_of_range
      | _ :: _ => Returns (or_root pf (tl (join_parts pf parts)))
      end
  | Posix => Returns (or_root pf (join_parts pf parts))
  end.

(** What the static [Join] puts before the separator: the left operand
    without a separator it may end with. *)
Definition join_front (pf : Platform) (lhs : str) : str :=
  if Ascii.eqb (back lhs) (PATH_SEPARATOR pf) then removelast lhs else lhs.

(** A stored string is normalised when it has no [.] segment, no empty
    segment other than a leading one (the root marker; the root itself is the
    separator alone) and no resolvable [..] segment. *)
Definition normalized (pf : Platform) (s : str) : bool :=
  let segs := split_on (PATH_SEPARATOR pf) s in
  negb (existsb (fun seg => eqb seg ".") segs)
  && (eqb s [PATH_SEPARATOR pf] || negb (existsb empty (tl segs)))
  && no_resolvable_dotdot segs.



(** A name the system can hand out for a directory entry: not empty and
    free of both separator characters. *)
Definition file_name (name : str) : Prop :=
  name <> [] /\ ~ In "\"%char name /\ ~ In "/"%char name.

(** An iterator is at the end or its current entry is [mRoot / name] for a
    name handed out by the system other than the two pseudo-entries. *)
Definition holds_child (pf : Platform) (names : list str)
           (it : DirectoryIterator) : Prop :=
  mIsEnd it = true \/
  exists name : str,
    In name names /\ name <> "." /\ name <> ".." /\
    op_div pf (mRoot it) name = Returns (mCurrent it).

(** The names a handle still holds come from the system's listing. *)
Definition handle_within (names : list str) (it : DirectoryIterator) : Prop :=
  match mFindHandle it with
  | Some pending => incl pending names
  | None => True
  end.

(** The iterator states a traversal of [path] can be in: the one
    [DirectoryEntries::begin()] constructs and those [operator++] leads to. *)
Inductive reachable (pf : Platform) (w : World) (path : Path)
  : DirectoryIterator -> Prop :=
| reach_begin (it : DirectoryIterator) :
    DirectoryIterator_ctor pf w path = Returns it -> reachable pf w path it
| reach_incr (it it' : DirectoryIterator) :
    reachable pf w path it -> op_incr pf it = Returns it' ->
    reachable pf w path it'.

(** A small machine for the concrete instances: a directory "d" holding two
    files, and a three-byte file "f.txt". *)
Definition sample_world : World :=
  mkWorld
    (fun p => if eqb p "d" then Some Directory
              else if eqb p "f.txt"
                   then Some (RegularFile [Byte.x61; Byte.x62; Byte.x63])
                   else None)
    (fun _ => false)
    (fun p => if eqb p "d\*"
              then map String.list_ascii_of_string ["."; ".."; "a.txt"; "b.txt"]
              else []).

(** The loop [for (const Path& p : path.Entries())]: as long as the iterator
    differs from [end()], the current entry is taken and [operator++]
    applied. [None] means [fuel] passes were not enough. *)
Fixpoint walk (pf : Platform) (fuel : nat) (it : DirectoryIterator)
  : option (outcome (list Path)) :=
  match fuel with
  | 0 => None
  | S fuel' =>
      if iter_eqb it DirectoryIterator_end then Some (Returns [])
      else match op_incr pf it with
           | Throws e => Some (Throws e)
           | Returns it' =>
               match walk pf fuel' it' with
               | Some (Returns rest) => Some (Returns (mCurrent it :: rest))
               | other => other
               end
           end
  end.

(** The C string an array holds: the characters before the first NUL. *)
Fixpoint c_str (s : list ascii) : list ascii :=
  match s with
  | [] => []
  | c :: r => if Ascii.eqb c NUL then [] else c :: c_str r
  end.

(** Two decimal digits. *)
Definition is_digit (c : ascii) : bool :=
  (48 <=? nat_of_ascii c) && (nat_of_ascii c <=? 57).

Definition two_digits (s : str) : bool :=
  match s with
  | [a; b] => is_digit a && is_digit b
  | _ => false
  end.

(** The same machine with the file [f.txt] made read-only: the system
    refuses to open it for writing. *)
Definition locked_world : World :=
  mkWorld (nodes sample_world) (fun p => eqb p "f.txt") (listing sample_world).

(** The file of a writer together with what the writer still holds is
    [content], and the writer stands at the end of its file (it was opened for
    appending, or its file position is the length of the file). *)
Definition writes_at_end (w : World) (sw : Writer.StreamWriter)
           (content : list u8) : Prop :=
  exists stored : list u8,
    nodes w (Writer.path (Writer.mStream sw)) = Some (RegularFile stored) /\
    content = stored ++ Writer.held (Writer.mStream sw) /\
    (Writer.app (Writer.mStream sw) = true \/
     Writer.ppos (Writer.mStream sw) = Z.of_nat (length stored)).

(** * Properties *)

(** ** Strings *)

Lemma eqb_eq (a b : str) : eqb a b = true <-> a = b.
Proof.
  revert b; induction a as [|x a IH]; intros [|y b]; simpl;
    try (split; (discriminate || reflexivity)).
  rewrite andb_true_iff, Ascii.eqb_eq, IH.
  split; [intros [-> ->]; reflexivity | intros [= -> ->]; auto].
Qed.

Lemma eqb_refl (a : str) : eqb a a = true.
Proof. apply eqb_eq; reflexivity. Qed.

Lemma eqb_neq (a b : str) : eqb a b = false <-> a <> b.
Proof.
  rewrite <- eqb_eq. destruct (eqb a b); split; congruence.
Qed.

Lemma empty_true (s : str) : empty s = true <-> s = [].
Proof. destruct s; simpl; split; congruence. Qed.

Lemma substr_0 (s : str) (n : nat) : substr s 0 n = Returns (firstn n s).
Proof. reflexivity. Qed.

Lemma substr_from_le (s : str) (n : nat) :
  n <= length s -> substr_from s n = Returns (skipn n s).
Proof.
  intros H. unfold substr_from.
  destruct (Nat.ltb_spec (length s) n); [lia | reflexivity].
Qed.

(** [find_last_of] returns a position of the character, after which it does
    not occur again. *)
Lemma find_last_of_None (s : str) (c : ascii) :
  find_last_of s c = None <-> ~ In c s.
Proof.
  induction s as [|x s IH]; simpl; [tauto|].
  destruct (find_last_of s c) as [k|].
  - split; [discriminate|]. intros H. exfalso.
    assert (Hs : ~ In c s) by tauto. apply IH in Hs. discriminate.
  - destruct (Ascii.eqb_spec x c) as [->|Hne].
    + split; [discriminate | intros H; exfalso; apply H; auto].
    + split; [|reflexivity]. intros _ [H|H]; [congruence|].
      destruct IH as [IH _]. apply (IH eq_refl H).
Qed.

Lemma find_last_of_Some (s : str) (c : ascii) (k : nat) :
  find_last_of s c = Some k <->
  nth_error s k = Some c /\ ~ In c (skipn (S k) s).
Proof.
  revert k; induction s as [|x s IH]; intros k; simpl.
  - split; [discriminate|]. intros [H _]. destruct k; discriminate.
  - destruct (find_last_of s c) as [j|] eqn:E.
    + split.
      * intros [= <-]. simpl. apply IH. reflexivity.
      * intros [Hn Hs]. destruct k as [|k]; simpl in *.
        -- apply find_last_of_None in Hs. congruence.
        -- f_equal. assert (Some j = Some k) as [= ->]
             by (apply IH; auto). reflexivity.
    + apply find_last_of_None in E.
      destruct (Ascii.eqb_spec x c) as [->|Hne].
      * split.
        -- intros [= <-]. simpl. auto.
        -- intros [Hn _]. destruct k as [|k]; [reflexivity|].
           simpl in Hn. apply nth_error_In in Hn. contradiction.
      * split; [discriminate|]. intros [Hn _].
        destruct k as [|k]; simpl in Hn; [congruence|].
        apply nth_error_In in Hn. contradiction.
Qed.

(** ** Path::Parent *)

Lemma X_TOSTR_separator (pf : Platform) :
  Path_ctor pf (X_TOSTR (PATH_SEPARATOR pf)) = Returns (mkPath (separator_code pf)).
Proof. destruct pf; reflexivity. Qed.

(** With a separator beyond position 0, the parent is the path built from
    what precedes the last separator. *)
Lemma Parent_inner_separator (pf : Platform) (p : Path) (k : nat) :
  find_last_of (mPath p) (PATH_SEPARATOR pf) = Some (S k) ->
  Parent pf p = Path_ctor pf (firstn (S k) (mPath p)).
Proof. intros H. unfold Parent. rewrite H. reflexivity. Qed.

Lemma In_skipn_nth (s : str) (c : ascii) (i n : nat) :
  nth_error s i = Some c -> n <= i -> In c (skipn n s).
Proof.
  intros Hi Hn. apply (nth_error_In _ (i - n)).
  rewrite nth_error_skipn. replace (n + (i - n)) with i by lia. exact Hi.
Qed.

(** A separator at some position other than 0 puts the last separator beyond
    position 0, and the parent is the path built from what precedes it. *)
Lemma Parent_before_last_separator (pf : Platform) (p : Path) (i : nat) :
  0 < i -> nth_error (mPath p) i = Some (PATH_SEPARATOR pf) ->
  exists k,
    find_last_of (mPath p) (PATH_SEPARATOR pf) = Some (S k) /\
    Parent pf p = Path_ctor pf (firstn (S k) (mPath p)).
Proof.
  intros Hpos Hi.
  destruct (find_last_of (mPath p) (PATH_SEPARATOR pf)) as [[|k]|] eqn:E.
  - apply find_last_of_Some in E. destruct E as [_ Hno].
    exfalso. apply Hno. apply (In_skipn_nth _ _ i); [exact Hi | lia].
  - exists k. split; [reflexivity|]. apply Parent_inner_separator. exact E.
  - apply find_last_of_None in E. exfalso. apply E.
    apply (nth_error_In _ i). exact Hi.
Qed.

(** Without a separator beyond position 0, the parent is built from
    [X_TOSTR(PATH_SEPARATOR)]. *)
Lemma Parent_separator_code (pf : Platform) (p : Path) :
  find_last_of (mPath p) (PATH_SEPARATOR pf) = None \/
  find_last_of (mPath p) (PATH_SEPARATOR pf) = Some 0 ->
  Parent pf p = Returns (mkPath (separator_code pf)).
Proof.
  intros H. unfold Parent. destruct H as [-> | ->]; apply X_TOSTR_separator.
Qed.

(** C1 (the code departs from the claim). For every path whose string holds
    no separator, or whose last separator is its first character, [Parent]
    returns the path built from the decimal character code of the separator
    ("92" on Windows, "/47" elsewhere), which is not the root path made of the
    separator alone. *)
Theorem Parent_without_inner_separator (pf : Platform) (p : Path) :
  find_last_of (mPath p) (PATH_SEPARATOR pf) = None \/
  find_last_of (mPath p) (PATH_SEPARATOR pf) = Some 0 ->
  Parent pf p = Returns (mkPath (separator_code pf)) /\
  Parent pf p <> Returns (root_path pf).
Proof.
  intros H. rewrite (Parent_separator_code pf p H).
  split; [reflexivity|]. destruct pf; discriminate.
Qed.

Lemma Parent_without_inner_separator_witness :
  Parent Win32 (mkPath "foo") = Returns (mkPath "92") /\
  Parent Win32 (mkPath "foo") <> Returns (root_path Win32).
Proof.
  apply (Parent_without_inner_separator Win32 (mkPath "foo")).
  left. reflexivity.
Defined.

(** ** Path::Join *)

(** C2 (counterexample). Joining the path "a" with the empty sub-path does
    not give "a" back: the in-place overload leaves the empty string, the
    const overload and [operator/] build a path from the empty string, which
    throws on Windows and is the root elsewhere. *)
Lemma Join_empty_subpath_not_identity :
  Join_mut Win32 (mkPath "a") [] = mkPath [] /\
  Join_mut Win32 (mkPath "a") [] <> mkPath "a" /\
  Join_const Win32 (mkPath "a") [] = Throws out_of_range /\
  op_div Win32 (mkPath "a") [] = Throws out_of_range /\
  Join_const Posix (mkPath "/a") [] = Returns (mkPath "/") /\
  Join_const Posix (mkPath "/a") [] <> Returns (mkPath "/a").
Proof. repeat split; try reflexivity; discriminate. Qed.

(** C2 (amended). Whenever an operand is empty, joining gives the empty
    operand: for every path [p] and sub-path [sub], the static join of
    [p]'s string with the empty string, and of the empty string with [sub],
    is the empty string; the in-place overload stores the empty string; the
    const overload and [operator/] return the path built from the empty
    string. *)
Theorem Join_empty_operand (pf : Platform) (p : Path) (sub : str) :
  Join_str pf (mPath p) [] = [] /\
  Join_mut pf p [] = mkPath [] /\
  Join_const pf p [] = Path_ctor pf [] /\
  op_div pf p [] = Path_ctor pf [] /\
  Join_str pf [] sub = [] /\
  Join_mut pf Path_default sub = Path_default /\
  Join_const pf Path_default sub = Path_ctor pf [] /\
  op_div pf Path_default sub = Path_ctor pf [].
Proof.
  assert (E : Join_str pf (mPath p) [] = []).
  { unfold Join_str. destruct (mPath p); reflexivity. }
  unfold Join_mut, Join_const, op_div, Str. rewrite E.
  repeat split; reflexivity.
Qed.

(** ** Path::RelativeTo *)

Lemma firstn_eq_begins (s pre : str) :
  firstn (length pre) s = pre -> begins_with s pre.
Proof.
  intros H. exists (skipn (length pre) s).
  rewrite <- H at 1. symmetry. apply firstn_skipn.
Qed.

Lemma begins_with_app (s pre more : str) :
  begins_with s (pre ++ more) -> begins_with s pre.
Proof.
  intros [rest ->]. exists (more ++ rest). symmetry. apply app_assoc.
Qed.

(** The two branches that give the claim's first two cases: a path that
    does not begin with the base comes back unchanged, and a non-empty
    remainder after a base that does not end in a separator is handed to the
    constructor. *)
Lemma RelativeTo_prefix (pf : Platform) (p base : Path) :
  (~ begins_with (mPath p) (mPath base) -> RelativeTo pf p base = Returns p) /\
  (forall rest : str,
      mPath p = mPath base ++ rest -> rest <> [] ->
      mPath base = [] \/ back (mPath base) <> PATH_SEPARATOR pf ->
      RelativeTo pf p base = Path_ctor pf rest).
Proof.
  split.
  - intros Hno. unfold RelativeTo, Str.
    set (b := if negb (empty (mPath base)) &&
                 Ascii.eqb (back (mPath base)) (PATH_SEPARATOR pf)
              then mPath base ++ [PATH_SEPARATOR pf] else mPath base).
    rewrite substr_0. simpl.
    destruct (eqb (firstn (length b) (mPath p)) b) eqn:E; [|reflexivity].
    exfalso. apply Hno. apply eqb_eq, firstn_eq_begins in E.
    subst b.
    destruct (negb (empty (mPath base)) &&
              Ascii.eqb (back (mPath base)) (PATH_SEPARATOR pf));
      [eapply begins_with_app; eassumption | assumption].
  - intros rest Hp Hrest Hbase. unfold RelativeTo, Str.
    assert (Hcond : negb (empty (mPath base)) &&
                    Ascii.eqb (back (mPath base)) (PATH_SEPARATOR pf) = false).
    { destruct Hbase as [-> | Hb]; [reflexivity|].
      apply andb_false_iff. right. apply Ascii.eqb_neq. exact Hb. }
    rewrite Hcond, substr_0, Hp. simpl.
    rewrite firstn_app, firstn_all, Nat.sub_diag. simpl. rewrite app_nil_r.
    rewrite eqb_refl. simpl.
    rewrite substr_from_le by (rewrite length_app; lia). simpl.
    rewrite skipn_app, skipn_all, Nat.sub_diag. simpl.
    destruct rest; [congruence | reflexivity].
Qed.

Example RelativeTo_examples :
  RelativeTo Win32 (mkPath "x\y") (mkPath "a") = Returns (mkPath "x\y") /\
  RelativeTo Win32 (mkPath "a\b\c") (mkPath "a\b") = Returns (mkPath "c") /\
  RelativeTo Posix (mkPath "/a/b") (mkPath "/a") = Returns (mkPath "/b") /\
  RelativeTo Posix (mkPath "/a") (mkPath "/a") = Returns (mkPath "/") /\
  RelativeTo Win32 (mkPath "a") (mkPath "a") = Throws out_of_range.
Proof. repeat split. Qed.

Lemma Path_ctor_dot (pf : Platform) :
  Path_ctor pf "." = match pf with
                     | Win32 => Throws out_of_range
                     | Posix => Returns (root_path Posix)
                     end.
Proof. destruct pf; reflexivity. Qed.

Lemma eqb_snoc_false (s : str) (c : ascii) : eqb s (s ++ [c]) = false.
Proof.
  apply eqb_neq. intros H. apply (f_equal (@length ascii)) in H.
  rewrite length_app in H. simpl in H. lia.
Qed.

(** C3 (the code departs from the claim). When [p]'s string equals
    [base]'s string, [RelativeTo] never results in the path ".": it returns
    [Path(".")], and the constructor normalises "." away, so the call throws
    [std::out_of_range] on Windows and yields the root elsewhere; and when
    the common string ends with a separator, a second separator is appended
    to the base, nothing matches and [p] itself comes back. *)
Theorem RelativeTo_exact_match (pf : Platform) (p base : Path) :
  mPath p = mPath base ->
  (RelativeTo pf p base =
     match pf with
     | Win32 => Throws out_of_range
     | Posix => Returns (root_path Posix)
     end
   \/ (RelativeTo pf p base = Returns p /\
       back (mPath p) = PATH_SEPARATOR pf)) /\
  RelativeTo pf p base <> Returns (mkPath ".").
Proof.
  intros Heq.
  assert (H : RelativeTo pf p base = Path_ctor pf "." \/
              (RelativeTo pf p base = Returns p /\
               back (mPath p) = PATH_SEPARATOR pf)).
  { unfold RelativeTo, Str. rewrite <- Heq.
    destruct (negb (empty (mPath p)) &&
              Ascii.eqb (back (mPath p)) (PATH_SEPARATOR pf)) eqn:Hcond.
    - right. apply andb_true_iff in Hcond. destruct Hcond as [_ Hb].
      apply Ascii.eqb_eq in Hb. split; [|exact Hb].
      rewrite substr_0, firstn_all2 by (rewrite length_app; lia).
      simpl. rewrite eqb_snoc_false. reflexivity.
    - left. rewrite substr_0, firstn_all. simpl. rewrite eqb_refl. simpl.
      rewrite substr_from_le by lia. simpl. rewrite skipn_all. reflexivity. }
  rewrite Path_ctor_dot in H. split; [exact H|].
  destruct H as [-> | [-> Hb]].
  - destruct pf; discriminate.
  - intros [= E]. rewrite E in Hb. destruct pf; discriminate.
Qed.

Lemma RelativeTo_exact_match_witness :
  (RelativeTo Win32 (mkPath "a") (mkPath "a") = Throws out_of_range \/
   (RelativeTo Win32 (mkPath "a") (mkPath "a") = Returns (mkPath "a") /\
    back (mPath (mkPath "a")) = PATH_SEPARATOR Win32)) /\
  RelativeTo Win32 (mkPath "a") (mkPath "a") <> Returns (mkPath ".").
Proof.
  apply (RelativeTo_exact_match Win32 (mkPath "a") (mkPath "a")).
  reflexivity.
Defined.

(** ** The normalisation invariant and the in-place Join *)

Lemma split_on_nonempty (c : ascii) (s : str) : split_on c s <> [].
Proof.
  destruct s as [|x r]; simpl; [discriminate|].
  destruct (Ascii.eqb x c); [discriminate|].
  destruct (split_on c r); discriminate.
Qed.

Lemma split_on_app (c : ascii) (a b : str) :
  split_on c (a ++ [c] ++ b) = split_on c a ++ split_on c b.
Proof.
  induction a as [|x a IH]; simpl in *.
  - rewrite Ascii.eqb_refl. reflexivity.
  - destruct (Ascii.eqb x c); [rewrite IH; reflexivity|].
    rewrite IH. pose proof (split_on_nonempty c a) as Hne.
    destruct (split_on c a); [congruence | reflexivity].
Qed.

Lemma split_on_app_cons (c : ascii) (a b : str) :
  split_on c (a ++ c :: b) = split_on c a ++ split_on c b.
Proof. exact (split_on_app c a b). Qed.

Lemma back_app_last (s : str) (c : ascii) : back (s ++ [c]) = c.
Proof. unfold back. apply last_last. Qed.

Lemma nonempty_snoc (s : str) : s <> [] -> s = removelast s ++ [back s].
Proof. intros H. unfold back. apply app_removelast_last. exact H. Qed.

(** *** The loop of [Normalize] folds [step_parts] over the segments *)

Lemma find_skipn (s : str) (c : ascii) (start : nat) :
  find s c start = option_map (fun k => start + k) (find (skipn start s) c 0).
Proof.
  revert start; induction s as [|x r IH]; intros [|n]; simpl; try reflexivity.
  - destruct (Ascii.eqb x c); [reflexivity|].
    destruct (find r c 0); reflexivity.
  - rewrite IH. destruct (find (skipn n r) c 0); reflexivity.
Qed.

Lemma find_0_Some (s : str) (c : ascii) (k : nat) :
  find s c 0 = Some k ->
  exists seg rest, s = seg ++ c :: rest /\ ~ In c seg /\ k = length seg.
Proof.
  revert k; induction s as [|x r IH]; intros k; simpl; [discriminate|].
  destruct (Ascii.eqb_spec x c) as [->|Hne].
  - intros [= <-]. exists [], r. simpl. auto.
  - destruct (find r c 0) as [j|]; simpl; [|discriminate].
    intros [= <-]. destruct (IH j eq_refl) as (seg & rest & -> & Hno & ->).
    exists (x :: seg), rest. simpl. split; [reflexivity|]. split; [|reflexivity].
    intros [H|H]; [congruence | contradiction].
Qed.

Lemma find_0_None (s : str) (c : ascii) : find s c 0 = None -> ~ In c s.
Proof.
  induction s as [|x r IH]; simpl; [tauto|].
  destruct (Ascii.eqb_spec x c) as [->|Hne]; [discriminate|].
  destruct (find r c 0); simpl; [discriminate|].
  intros _ [H|H]; [congruence | exact (IH eq_refl H)].
Qed.

Lemma split_on_no_sep (c : ascii) (s : str) : ~ In c s -> split_on c s = [s].
Proof.
  induction s as [|x r IH]; simpl; [reflexivity|]. intros H.
  destruct (Ascii.eqb_spec x c) as [->|Hne]; [exfalso; auto|].
  rewrite IH by tauto. reflexivity.
Qed.

Lemma split_on_segment (c : ascii) (seg rest : str) :
  ~ In c seg -> split_on c (seg ++ c :: rest) = seg :: split_on c rest.
Proof.
  intros H. rewrite split_on_app_cons, (split_on_no_sep c seg H). reflexivity.
Qed.

Lemma step_parts_nil (parts : list str) : step_parts parts [] = parts.
Proof. reflexivity. Qed.

Lemma Normalize_loop_past_end (pf : Platform) (fuel : nat) (raw : str)
      (start : nat) (parts : list str) :
  length raw <= start -> Normalize_loop pf fuel raw start parts = Returns parts.
Proof.
  intros H. destruct fuel; simpl; [reflexivity|].
  destruct (Nat.ltb_spec start (length raw)); [lia | reflexivity].
Qed.

(** Enough fuel: the loop visits the segments of the rest of the string in
    order, whatever the surplus of fuel. *)
Lemma Normalize_loop_fuel (pf : Platform) (fuel : nat) (raw : str) :
  forall (start : nat) (parts : list str),
    start <= length raw -> length raw - start < fuel ->
    Normalize_loop pf fuel raw start parts
    = Returns (fold_left step_parts
                 (split_on (PATH_SEPARATOR pf) (skipn start raw)) parts).
Proof.
  induction fuel as [|fuel IH]; intros start parts Hle Hfuel; [lia|].
  simpl. destruct (Nat.ltb_spec start (length raw)) as [Hlt|Hge].
  - rewrite find_skipn.
    destruct (find (skipn start raw) (PATH_SEPARATOR pf) 0) as [k|] eqn:Hfind;
      simpl option_map; cbv iota.
    + destruct (find_0_Some _ _ _ Hfind) as (seg & rest & Hsplit & Hno & ->).
      assert (Hlen : length (skipn start raw) = length seg + S (length rest)).
      { rewrite Hsplit, length_app. reflexivity. }
      rewrite length_skipn in Hlen.
      unfold substr. destruct (Nat.ltb_spec (length raw) start); [lia|].
      simpl bind.
      replace (start + length seg - start) with (length seg) by lia.
      rewrite Hsplit at 1.
      rewrite firstn_app, firstn_all, Nat.sub_diag. simpl firstn.
      rewrite app_nil_r.
      rewrite IH by lia.
      rewrite Hsplit, (split_on_segment _ seg rest Hno). simpl fold_left.
      replace (skipn (start + length seg + 1) raw) with rest; [reflexivity|].
      replace (start + length seg + 1) with (S (length seg) + start) by lia.
      rewrite <- skipn_skipn, Hsplit.
      rewrite skipn_app, skipn_all2 by lia.
      replace (S (length seg) - length seg) with 1 by lia. reflexivity.
    + apply find_0_None in Hfind.
      unfold substr. destruct (Nat.ltb_spec (length raw) start); [lia|].
      simpl bind.
      rewrite firstn_all2 by (rewrite length_skipn; lia).
      rewrite Normalize_loop_past_end by lia.
      rewrite (split_on_no_sep _ _ Hfind). reflexivity.
  - assert (start = length raw) as -> by lia.
    rewrite skipn_all. reflexivity.
Qed.

(** [Normalize] as a function of the segments of its argument. *)
Lemma Normalize_segments (pf : Platform) (raw : str) :
  Normalize pf raw =
  let parts := fold_left step_parts (split_on (PATH_SEPARATOR pf) raw) [] in
  match pf with
  | Win32 =>
      match parts with
      | [] => Throws out_of_range
      | _ :: _ => Returns (or_root pf (tl (join_parts pf parts)))
      end
  | Posix => Returns (or_root pf (join_parts pf parts))
  end.
Proof.
  unfold Normalize. rewrite Normalize_loop_fuel by lia. simpl skipn.
  cbv zeta. simpl bind.
  destruct (fold_left step_parts (split_on (PATH_SEPARATOR pf) raw) [])
    as [|part rest]; destruct pf; try reflexivity.
  simpl join_parts. unfold substr. simpl length. simpl Nat.ltb. cbv iota.
  simpl bind. simpl skipn. rewrite Nat.sub_0_r, firstn_all. reflexivity.
Qed.

(** *** What [Normalize] returns is normalised *)

Lemma split_on_sep_free (c : ascii) (s : str) :
  Forall (fun seg => ~ In c seg) (split_on c s).
Proof.
  induction s as [|x r IH]; simpl.
  - constructor; [tauto | constructor].
  - destruct (Ascii.eqb_spec x c) as [->|Hne].
    + constructor; [tauto | exact IH].
    + destruct (split_on c r) as [|seg segs].
      * constructor; [|constructor]. intros [H|[]]. congruence.
      * inversion IH as [|? ? Hseg Hsegs]; subst.
        constructor; [|exact Hsegs]. intros [H|H]; [congruence | auto].
Qed.

Lemma no_resolvable_dotdot_cons (a b : str) (l : list str) :
  no_resolvable_dotdot (a :: b :: l)
  = negb (is_name a && eqb b "..") && no_resolvable_dotdot (b :: l).
Proof. reflexivity. Qed.

Lemma no_resolvable_dotdot_front (l : list str) (x : str) :
  no_resolvable_dotdot (l ++ [x]) = true -> no_resolvable_dotdot l = true.
Proof.
  induction l as [|a l IH]; [reflexivity|].
  destruct l as [|b l]; [reflexivity|].
  change ((a :: b :: l) ++ [x]) with (a :: b :: (l ++ [x])).
  rewrite !no_resolvable_dotdot_cons.
  intros H. apply andb_true_iff in H. destruct H as [H1 H2].
  rewrite H1. apply IH. exact H2.
Qed.

Lemma no_resolvable_dotdot_snoc (l : list str) (x : str) :
  no_resolvable_dotdot l = true ->
  l = [] \/ is_name (last l []) = false \/ eqb x ".." = false ->
  no_resolvable_dotdot (l ++ [x]) = true.
Proof.
  induction l as [|a l IH]; intros Hl Hx; [reflexivity|].
  destruct l as [|b l].
  - change ([a] ++ [x]) with [a; x]. rewrite no_resolvable_dotdot_cons.
    rewrite andb_true_r. apply negb_true_iff, andb_false_iff.
    destruct Hx as [Hx|Hx]; [discriminate | exact Hx].
  - change ((a :: b :: l) ++ [x]) with (a :: b :: (l ++ [x])).
    rewrite no_resolvable_dotdot_cons in *.
    apply andb_true_iff in Hl. destruct Hl as [H1 H2].
    rewrite H1. apply IH; [exact H2|].
    right. destruct Hx as [Hx|Hx]; [discriminate | exact Hx].
Qed.

Lemma step_parts_ok (pf : Platform) (parts : list str) (part : str) :
  parts_ok pf parts -> ~ In (PATH_SEPARATOR pf) part ->
  parts_ok pf (step_parts parts part).
Proof.
  intros [Hall Hdd] Hsep. unfold step_parts.
  destruct (eqb part ".." && negb (parts_empty parts)
            && negb (eqb (parts_back parts) "..")) eqn:Hpop.
  - (* pop_back *)
    apply andb_true_iff in Hpop. destruct Hpop as [Hpop _].
    apply andb_true_iff in Hpop. destruct Hpop as [_ Hne].
    assert (Hparts : parts <> []) by (destruct parts; [discriminate | congruence]).
    unfold pop_back.
    rewrite (app_removelast_last [] Hparts) in Hall, Hdd.
    apply Forall_app in Hall. destruct Hall as [Hall _].
    apply no_resolvable_dotdot_front in Hdd. split; assumption.
  - destruct (negb (empty part) && negb (eqb part ".")) eqn:Hpush;
      [|split; assumption].
    apply andb_true_iff in Hpush. destruct Hpush as [Hne Hdot].
    apply negb_true_iff in Hne, Hdot. unfold push_back. split.
    + apply Forall_app. split; [exact Hall|]. constructor; [|constructor].
      repeat split.
      * intros ->. discriminate.
      * apply eqb_neq. exact Hdot.
      * exact Hsep.
    + apply no_resolvable_dotdot_snoc; [exact Hdd|].
      destruct (eqb part "..") eqn:Hp; [|auto].
      destruct parts as [|a l]; [auto|]. right. left.
      cbn [parts_empty negb andb] in Hpop. apply negb_false_iff in Hpop.
      unfold parts_back in Hpop. unfold is_name. rewrite Hpop.
      apply andb_false_r.
Qed.

Lemma fold_step_parts_ok (pf : Platform) (segs parts : list str) :
  parts_ok pf parts -> Forall (fun seg => ~ In (PATH_SEPARATOR pf) seg) segs ->
  parts_ok pf (fold_left step_parts segs parts).
Proof.
  revert parts; induction segs as [|seg segs IH]; intros parts Hok Hsegs;
    simpl; [exact Hok|].
  inversion Hsegs; subst. apply IH; [apply step_parts_ok|]; assumption.
Qed.

Lemma split_on_join_parts (pf : Platform) (rest : list str) :
  forall part : str,
    Forall (proper_part pf) (part :: rest) ->
    split_on (PATH_SEPARATOR pf) (part ++ join_parts pf rest) = part :: rest.
Proof.
  induction rest as [|q rest IH]; intros part Hall; simpl.
  - rewrite app_nil_r. apply split_on_no_sep.
    inversion Hall as [|? ? (_ & _ & H) _]. exact H.
  - inversion Hall as [|? ? (_ & _ & Hpart) Hrest]; subst.
    rewrite split_on_segment by exact Hpart. rewrite IH by exact Hrest.
    reflexivity.
Qed.

Lemma proper_parts_segments (pf : Platform) (parts : list str) :
  Forall (proper_part pf) parts ->
  existsb (fun seg => eqb seg ".") parts = false /\
  existsb empty parts = false.
Proof.
  induction 1 as [|part parts (Hne & Hdot & _) _ [IH1 IH2]];
    cbn [existsb]; [auto|].
  rewrite IH1, IH2. apply eqb_neq in Hdot. rewrite Hdot.
  destruct part; [congruence | auto].
Qed.

(** Whatever the constructor stores is normalised. *)
Lemma Normalize_normalized (pf : Platform) (raw s : str) :
  Normalize pf raw = Returns s -> normalized pf s = true.
Proof.
  rewrite Normalize_segments. cbv zeta.
  assert (Hok : parts_ok pf (fold_left step_parts
                               (split_on (PATH_SEPARATOR pf) raw) [])).
  { apply fold_step_parts_ok; [|apply split_on_sep_free].
    split; [constructor | reflexivity]. }
  destruct (fold_left step_parts (split_on (PATH_SEPARATOR pf) raw) [])
    as [|part rest].
  - destruct pf; [discriminate|]. intros [= <-]. reflexivity.
  - destruct Hok as [Hall Hdd].
    destruct (proper_parts_segments pf _ Hall) as [Hnodot Hnoempty].
    assert (Hpart : part <> []) by (inversion Hall as [|? ? (H & _) _]; exact H).
    pose proof (split_on_join_parts pf rest part Hall) as Hsplit.
    destruct pf; intros [= <-]; unfold or_root, normalized.
    + (* Windows: the leading separator is dropped *)
      simpl join_parts. simpl tl.
      assert (Hemp : empty (part ++ join_parts Win32 rest) = false)
        by (destruct part; [congruence | reflexivity]).
      rewrite Hemp. cbv zeta. cbn [PATH_SEPARATOR] in *.
      rewrite Hsplit, Hnodot, Hdd.
      cbn [existsb] in Hnoempty. apply orb_false_iff in Hnoempty.
      destruct Hnoempty as [_ Hrest]. cbn [tl]. rewrite Hrest.
      rewrite orb_true_r. reflexivity.
    + (* POSIX: the leading separator stays *)
      simpl join_parts. simpl empty. cbv iota. cbv zeta.
      cbn [PATH_SEPARATOR] in *.
      change ("/"%char :: part ++ join_parts Posix rest)
        with ([] ++ "/"%char :: (part ++ join_parts Posix rest)).
      rewrite split_on_segment by (simpl; tauto). rewrite Hsplit.
      cbn [tl]. rewrite Hnoempty.
      change (existsb (fun seg : str => eqb seg ".") ([] :: part :: rest))
        with (existsb (fun seg : str => eqb seg ".") (part :: rest)).
      rewrite Hnodot.
      change (no_resolvable_dotdot ([] :: part :: rest))
        with (no_resolvable_dotdot (part :: rest)).
      rewrite Hdd. rewrite orb_true_r. reflexivity.
Qed.

Lemma Path_ctor_normalized (pf : Platform) (raw : str) (p : Path) :
  Path_ctor pf raw = Returns p -> normalized pf (mPath p) = true.
Proof.
  unfold Path_ctor. destruct (Normalize pf raw) as [s|e] eqn:E; simpl;
    [|discriminate].
  intros [= <-]. exact (Normalize_normalized pf raw s E).
Qed.

(** The const overload and [operator/] go through the constructor, so what
    they return is normalised. *)
Lemma Join_const_normalized (pf : Platform) (p q : Path) (sub : str) :
  Join_const pf p sub = Returns q \/ op_div pf p sub = Returns q ->
  normalized pf (mPath q) = true.
Proof.
  unfold Join_const, op_div. intros [H|H];
    exact (Path_ctor_normalized pf _ q H).
Qed.

(** C6 (the code departs from the claim). The in-place overload
    [Path& Join(const str&)] stores the joined string without normalising
    it: for every path with a non-empty string, joining "." in place leaves a
    stored string with a [.] segment, so it is not normalised. *)
Theorem Join_mut_not_normalized (pf : Platform) (p : Path) :
  mPath p <> [] ->
  In ("." : str) (split_on (PATH_SEPARATOR pf) (mPath (Join_mut pf p "."))) /\
  normalized pf (mPath (Join_mut pf p ".")) = false.
Proof.
  intros Hne.
  assert (Hin : In ("." : str)
                  (split_on (PATH_SEPARATOR pf) (mPath (Join_mut pf p ".")))).
  { unfold Join_mut, Join_str, Str. simpl mPath.
    destruct (mPath p) as [|x r] eqn:E; [congruence|]. simpl empty. cbv iota.
    assert (Hdot : In ("." : str) (split_on (PATH_SEPARATOR pf) ".")).
    { destruct pf; simpl; auto. }
    destruct (Ascii.eqb_spec (back (x :: r)) (PATH_SEPARATOR pf)) as [Hb|Hb].
    - rewrite (nonempty_snoc (x :: r)) by discriminate.
      rewrite Hb, <- app_assoc.
      rewrite split_on_app. apply in_or_app. right. exact Hdot.
    - rewrite split_on_app_cons. apply in_or_app. right. exact Hdot. }
  split; [exact Hin|].
  unfold normalized.
  apply andb_false_iff. left. apply andb_false_iff. left.
  apply negb_false_iff. apply existsb_exists.
  exists ("." : str). split; [exact Hin | reflexivity].
Qed.

Lemma Join_mut_not_normalized_witness :
  In ("." : str) (split_on "\"%char (mPath (Join_mut Win32 (mkPath "a") "."))) /\
  normalized Win32 (mPath (Join_mut Win32 (mkPath "a") ".")) = false.
Proof.
  apply (@Join_mut_not_normalized Win32 (mkPath "a")). discriminate.
Defined.

(** ** Path::CreateAll *)

Lemma separator_code_last (pf : Platform) :
  find_last_of (separator_code pf) (PATH_SEPARATOR pf) = None \/
  find_last_of (separator_code pf) (PATH_SEPARATOR pf) = Some 0.
Proof. destruct pf; [left | right]; reflexivity. Qed.

Lemma separator_code_not_root (pf : Platform) :
  separator_code pf <> [PATH_SEPARATOR pf].
Proof. destruct pf; discriminate. Qed.

(** C7 (the code departs from the claim). Take a path whose string has no
    separator beyond position 0 and is not the root, in a world where neither
    it nor the path named by the separator's character code exists. Whatever
    the depth allowed, [CreateAll] has a recursive call pending: the parent
    chain reaches the character-code path, which is its own parent, and never
    the root. *)
Theorem CreateAll_never_returns (pf : Platform) (w : World) (p : Path)
        (fuel : nat) :
  find_last_of (mPath p) (PATH_SEPARATOR pf) = None \/
  find_last_of (mPath p) (PATH_SEPARATOR pf) = Some 0 ->
  mPath p <> [PATH_SEPARATOR pf] ->
  Exists w p = false ->
  nodes w (separator_code pf) = None ->
  CreateAll pf fuel w p = None.
Proof.
  intros Hlast Hroot Hex Hcode. revert p Hlast Hroot Hex.
  induction fuel as [|fuel IH]; intros p Hlast Hroot Hex; [reflexivity|].
  simpl. rewrite Hex.
  apply eqb_neq in Hroot. rewrite Hroot. simpl.
  rewrite (Parent_separator_code pf p Hlast).
  assert (Hpar : Exists w (mkPath (separator_code pf)) = false).
  { unfold Exists. simpl. rewrite Hcode. reflexivity. }
  rewrite Hpar. simpl.
  rewrite IH; [reflexivity | | | exact Hpar].
  - apply separator_code_last.
  - apply separator_code_not_root.
Qed.

Lemma CreateAll_never_returns_witness :
  CreateAll Win32 64 sample_world (mkPath "foo") = None.
Proof.
  apply (@CreateAll_never_returns Win32 sample_world (mkPath "foo") 64).
  - left. reflexivity.
  - discriminate.
  - reflexivity.
  - reflexivity.
Defined.

(** Where a directory of the chain exists the recursion does stop. *)
Lemma CreateAll_existing (pf : Platform) (w : World) (p : Path) (fuel : nat) :
  Exists w p = true -> CreateAll pf (S fuel) w p = Some (Returns (true, w)).
Proof. intros H. simpl. rewrite H. reflexivity. Qed.

(** ** FileReader::ReadBlock *)

Lemma u64_small (z : Z) : (0 <= z < 2 ^ 64)%Z -> u64 z = z.
Proof. intros H. unfold u64. apply Z.mod_small. exact H. Qed.

Lemma overwrite_all (buffer got : list u8) :
  length buffer = length got -> overwrite buffer got = got.
Proof.
  intros H. unfold overwrite. rewrite skipn_all2 by lia. apply app_nil_r.
Qed.

(** C4 (the code departs from the claim). For a file of fewer than [2^63]
    bytes, an offset inside the file and a size with
    [2^64 <= offset + size], the 64-bit sum wraps around, the range check
    passes and the call leaves with [std::length_error] from the allocation of
    the buffer: nothing is returned, neither an empty sequence nor [size]
    bytes. *)
Theorem ReadBlock_wrapped_range_throws (io : Device) (w : World) (path : Path)
        (bytes : list u8) (size offset : Z) :
  ifstream_open w (Str path) = Some bytes ->
  (Z.of_nat (length bytes) < 2 ^ 63)%Z ->
  (0 <= offset < Z.of_nat (length bytes))%Z ->
  (2 ^ 64 - offset <= size < 2 ^ 64)%Z ->
  seek_fails io = false ->
  ReadBlock io w path size offset = Throws length_error.
Proof.
  intros Hopen Hlen Hoff Hsize Hseek. unfold ReadBlock. rewrite Hopen.
  rewrite u64_small by lia.
  assert (Hwrap : u64 (offset + size) = (offset + size - 2 ^ 64)%Z).
  { unfold u64. symmetry. apply (Z.mod_unique _ _ 1); lia. }
  rewrite Hwrap.
  destruct (Z.leb_spec (Z.of_nat (length bytes)) offset); [lia|].
  destruct (Z.eqb_spec size 0); [lia|].
  destruct (Z.ltb_spec (Z.of_nat (length bytes)) (offset + size - 2 ^ 64));
    [lia|].
  simpl. rewrite Hseek. unfold vector_ctor, vector_max_size.
  destruct (Z.ltb_spec (2 ^ 63 - 1) size); [reflexivity | lia].
Qed.

Lemma ReadBlock_wrapped_range_throws_witness :
  ReadBlock healthy sample_world (mkPath "f.txt") (2 ^ 64 - 1) 1
  = Throws length_error.
Proof.
  apply (@ReadBlock_wrapped_range_throws healthy sample_world (mkPath "f.txt")
           [Byte.x61; Byte.x62; Byte.x63] (2 ^ 64 - 1) 1).
  - reflexivity.
  - simpl. lia.
  - simpl. lia.
  - lia.
  - reflexivity.
Defined.

(** Without wrap-around the contract of the block read holds: the result is
    empty exactly in the listed cases, and otherwise it is the [size] bytes
    at [offset]. *)
Lemma ReadBlock_in_range (io : Device) (w : World) (path : Path)
      (size offset : Z) :
  (0 <= offset)%Z -> (0 <= size)%Z -> (offset + size < 2 ^ 64)%Z ->
  (forall bytes, ifstream_open w (Str path) = Some bytes ->
                 (Z.of_nat (length bytes) < 2 ^ 63)%Z) ->
  exists result,
    ReadBlock io w path size offset = Returns result /\
    (result = [] <->
       ifstream_open w (Str path) = None \/
       (exists bytes, ifstream_open w (Str path) = Some bytes /\
          ((Z.of_nat (length bytes) <= offset)%Z \/ size = 0%Z \/
           (Z.of_nat (length bytes) < offset + size)%Z)) \/
       seek_fails io = true \/ read_fails io = true) /\
    (result <> [] ->
       exists bytes, ifstream_open w (Str path) = Some bytes /\
         result = firstn (Z.to_nat size) (skipn (Z.to_nat offset) bytes) /\
         Z.of_nat (length result) = size).
Proof.
  intros Hoff Hsize Hsum Hfile. unfold ReadBlock.
  destruct (ifstream_open w (Str path)) as [bytes|] eqn:Hopen.
  2:{ exists []. repeat split; auto. congruence. }
  specialize (Hfile bytes eq_refl).
  rewrite !u64_small by lia.
  destruct (Z.leb_spec (Z.of_nat (length bytes)) offset) as [H1|H1].
  { exists []. repeat split; eauto 8. congruence. }
  destruct (Z.eqb_spec size 0) as [H2|H2].
  { exists []. repeat split; eauto 8. congruence. }
  destruct (Z.ltb_spec (Z.of_nat (length bytes)) (offset + size)) as [H3|H3].
  { exists []. repeat split; eauto 8. congruence. }
  simpl.
  destruct (seek_fails io) eqn:Hseek.
  { exists []. repeat split; auto. congruence. }
  unfold vector_ctor, vector_max_size.
  destruct (Z.ltb_spec (2 ^ 63 - 1) size); [lia|]. simpl.
  set (got := firstn (Z.to_nat size) (skipn (Z.to_nat offset) bytes)).
  assert (Hgot : length got = Z.to_nat size).
  { subst got. rewrite length_firstn, length_skipn. lia. }
  destruct (read_fails io) eqn:Hread.
  { exists []. repeat split; auto. congruence. }
  simpl. destruct (Z.ltb_spec (Z.of_nat (length got)) size); [lia|].
  rewrite overwrite_all by (rewrite repeat_length; lia).
  exists got. split; [reflexivity|]. split.
  - split.
    + intros E. rewrite E in Hgot. simpl in Hgot. lia.
    + intros [E | [(b & E & Hb) | [E | E]]]; try congruence.
      assert (b = bytes) by congruence. subst b. lia.
  - intros _. exists bytes. repeat split. lia.
Qed.

(** ** FileWriter::WriteText *)

Lemma nodes_set_node_same (w : World) (p : str) (n : Node) :
  nodes (set_node w p n) p = Some n.
Proof. simpl. rewrite eqb_refl. reflexivity. Qed.

Lemma nodes_set_node_other (w : World) (p q : str) (n : Node) :
  q <> p -> nodes (set_node w p n) q = nodes w q.
Proof. intros H. simpl. apply eqb_neq in H. rewrite H. reflexivity. Qed.

Lemma ofstream_open_trunc_Some (w w1 : World) (p : str) :
  ofstream_open_trunc w p = Some w1 ->
  w1 = set_node w p (RegularFile []) /\ denied w p = false.
Proof.
  unfold ofstream_open_trunc. destruct (denied w p); [discriminate|].
  destruct (nodes w p) as [[bytes|]|]; intros [= <-] || discriminate; auto.
Qed.






(** C10 (counterexample). An existing file that the system refuses to open
    for writing: [WriteText] with an empty string returns failure, and the
    file keeps its three bytes; it is not truncated to zero length. *)
Lemma WriteText_empty_keeps_locked_file :
  nodes locked_world "f.txt"
  = Some (RegularFile [Byte.x61; Byte.x62; Byte.x63]) /\
  fst (WriteText Win32 healthy locked_world (mkPath "f.txt") []) = false /\
  nodes (snd (WriteText Win32 healthy locked_world (mkPath "f.txt") []))
        "f.txt"
  = Some (RegularFile [Byte.x61; Byte.x62; Byte.x63]) /\
  nodes (snd (WriteText Win32 healthy locked_world (mkPath "f.txt") []))
        "f.txt"
  <> Some (RegularFile []).
Proof.
  split; [reflexivity|]. split; [reflexivity|]. split; [reflexivity|].
  discriminate.
Qed.

(** C10 (amended). For every existing file, [WriteText] with an empty string
    returns failure. When the system lets the writer open the file, the file
    is left with zero length, the truncating open coming before the check of
    the input, and every other path is as it was; when the system refuses the
    open, nothing is changed at all. *)
Theorem WriteText_empty_truncates (pf : Platform) (io : Device) (w : World)
        (path : Path) (bytes : list u8) :
  nodes w (Str path) = Some (RegularFile bytes) ->
  fst (WriteText pf io w path []) = false /\
  (denied w (Str path) = false ->
   nodes (snd (WriteText pf io w path [])) (Str path) = Some (RegularFile []) /\
   (forall q : str, q <> Str path ->
      nodes (snd (WriteText pf io w path [])) q = nodes w q)) /\
  (denied w (Str path) = true -> snd (WriteText pf io w path []) = w).
Proof.
  intros Hfile. unfold WriteText, ofstream_open_trunc. rewrite Hfile.
  destruct (denied w (Str path)); cbn [empty fst snd].
  - split; [reflexivity|]. split; [discriminate | reflexivity].
  - split; [reflexivity|]. split; [|discriminate]. intros _.
    rewrite nodes_set_node_same. split; [reflexivity|].
    intros q Hq. apply nodes_set_node_other. exact Hq.
Qed.

Lemma WriteText_empty_truncates_witness :
  fst (WriteText Win32 healthy sample_world (mkPath "f.txt") []) = false /\
  nodes (snd (WriteText Win32 healthy sample_world (mkPath "f.txt") []))
        "f.txt" = Some (RegularFile []) /\
  snd (WriteText Win32 healthy locked_world (mkPath "f.txt") []) = locked_world.
Proof.
  destruct (WriteText_empty_truncates Win32 healthy sample_world
              (mkPath "f.txt") [Byte.x61; Byte.x62; Byte.x63] eq_refl)
    as (H1 & H2 & _).
  destruct (WriteText_empty_truncates Win32 healthy locked_world
              (mkPath "f.txt") [Byte.x61; Byte.x62; Byte.x63] eq_refl)
    as (_ & _ & H3).
  split; [exact H1|]. split; [exact (proj1 (H2 eq_refl)) | exact (H3 eq_refl)].
Defined.

(** ** StreamReader::Read *)

Lemma vector_resize_length (data : list u8) (size : Z) :
  (0 <= size <= vector_max_size)%Z ->
  exists data', vector_resize data size = Returns data' /\
                length data' = Z.to_nat size.
Proof.
  intros H. unfold vector_resize.
  destruct (Z.ltb_spec vector_max_size size); [lia|].
  eexists. split; [reflexivity|].
  rewrite length_app, length_firstn, repeat_length. lia.
Qed.

(** A reader opened on a file of fewer than [2^63] bytes is open, at the
    start, and has cached the length. *)
Lemma StreamReader_ctor_open (w : World) (path : Path) (bytes : list u8) :
  ifstream_open w (Str path) = Some bytes ->
  (Z.of_nat (length bytes) < 2 ^ 63)%Z ->
  IsOpen (StreamReader_ctor w path) = true /\
  mSize (StreamReader_ctor w path)
  = Z.of_nat (length (contents (mStream (StreamReader_ctor w path)))) /\
  gpos (mStream (StreamReader_ctor w path)) = 0%Z.
Proof.
  intros Hopen Hlen. unfold StreamReader_ctor. rewrite Hopen. simpl.
  repeat split. apply u64_small. lia.
Qed.

(** Beyond the end of the file the clamp itself wraps around: after a seek
    past the end, a read asks for a buffer of nearly [2^64] bytes. *)
Example Read_after_seek_past_end :
  Seek healthy (StreamReader_ctor sample_world (mkPath "f.txt")) 10
  = (true, mkReader (mkIfstream true [Byte.x61; Byte.x62; Byte.x63] 10 goodbit) 3)
  /\
  Read healthy
       (mkReader (mkIfstream true [Byte.x61; Byte.x62; Byte.x63] 10 goodbit) 3)
       [] 1
  = Throws length_error.
Proof. split; reflexivity. Qed.

(** C8 (counterexample). On an open reader and with no device error, a
    request for zero bytes returns failure. *)
Lemma Read_zero_size_fails :
  IsOpen (StreamReader_ctor sample_world (mkPath "f.txt")) = true /\
  read_fails healthy = false /\
  Read healthy (StreamReader_ctor sample_world (mkPath "f.txt")) [] 0
  = Returns (false, [], StreamReader_ctor sample_world (mkPath "f.txt")).
Proof. repeat split. Qed.

(** C8 (amended). A request for zero bytes returns failure and leaves the
    buffer alone. For every open reader positioned within its file and every
    non-zero size such that position + size stays below [2^64], [Read] clamps
    the size to the bytes left before the end, leaves the output buffer with
    exactly the clamped size, and returns failure only on a device error: the
    result is [true] whenever the device reads, clamped or not, and the
    buffer then holds the bytes from the old position. *)
Theorem Read_clamps (io : Device) (r : StreamReader) (data : list u8)
        (size : Z) :
  Read io r data 0 = Returns (false, data, r) /\
  (IsOpen r = true ->
   mSize r = Z.of_nat (length (contents (mStream r))) ->
   (mSize r < 2 ^ 63)%Z ->
   (0 <= gpos (mStream r) <= mSize r)%Z ->
   (0 < size)%Z ->
   (gpos (mStream r) + size < 2 ^ 64)%Z ->
   exists (data' : list u8) (r' : StreamReader),
     Read io r data size = Returns (negb (read_fails io), data', r') /\
     Z.of_nat (length data') = Z.min size (mSize r - gpos (mStream r)) /\
     (read_fails io = false ->
      data' = firstn (Z.to_nat (Z.min size (mSize r - gpos (mStream r))))
                     (skipn (Z.to_nat (gpos (mStream r)))
                            (contents (mStream r)))
      /\ gpos (mStream r') =
         (gpos (mStream r) + Z.min size (mSize r - gpos (mStream r)))%Z
      /\ IsOpen r' = true)).
Proof.
  split.
  { unfold Read. rewrite orb_true_r. reflexivity. }
  intros Hopen Hsz Hmax Hpos Hsize Hsum.
  unfold Read. rewrite Hopen.
  destruct (Z.eqb_spec size 0) as [?|_]; [lia|]. simpl.
  unfold Position. rewrite Hopen. simpl.
  rewrite (u64_small (gpos (mStream r))) by lia.
  rewrite (u64_small (gpos (mStream r) + size)) by lia.
  set (pos := gpos (mStream r)) in *.
  set (n := if (mSize r <? pos + size)%Z then u64 (mSize r - pos) else size).
  assert (Hn : n = Z.min size (mSize r - pos)).
  { subst n. destruct (Z.ltb_spec (mSize r) (pos + size)).
    - rewrite u64_small by lia. lia.
    - lia. }
  rewrite Hn. clear n Hn. set (n := Z.min size (mSize r - pos)).
  assert (Hn : (0 <= n <= mSize r - pos)%Z) by lia.
  destruct (vector_resize_length data n) as (buf & -> & Hbuf).
  { unfold vector_max_size. lia. }
  simpl. unfold read.
  destruct (read_fails io) eqn:Hio.
  - simpl. do 2 eexists. split; [|split].
    + f_equal. f_equal. f_equal. unfold good. simpl. apply andb_false_r.
    + unfold overwrite. simpl. lia.
    + discriminate.
  - set (avail := skipn (Z.to_nat (gpos (mStream r))) (contents (mStream r))).
    assert (Hav : Z.of_nat (length avail) = (mSize r - pos)%Z).
    { subst avail. rewrite length_skipn. fold pos. lia. }
    destruct (Z.leb_spec n (Z.of_nat (length avail))); [|lia].
    assert (Hgot : length (firstn (Z.to_nat n) avail) = Z.to_nat n).
    { rewrite length_firstn. lia. }
    do 2 eexists. split; [|split].
    + f_equal. f_equal. f_equal.
      unfold IsOpen in Hopen. apply andb_true_iff in Hopen.
      destruct Hopen as [_ Hgood]. unfold good in *. simpl. exact Hgood.
    + rewrite overwrite_all by lia. lia.
    + intros _. split; [|split].
      * rewrite overwrite_all by lia. reflexivity.
      * reflexivity.
      * unfold IsOpen in *. simpl. exact Hopen.
Qed.

Lemma Read_clamps_witness :
  exists (data' : list u8) (r' : StreamReader),
    Read healthy (StreamReader_ctor sample_world (mkPath "f.txt")) [] 5
    = Returns (true, data', r') /\
    Z.of_nat (length data') = 3%Z /\
    (read_fails healthy = false ->
     data' = [Byte.x61; Byte.x62; Byte.x63] /\
     gpos (mStream r') = 3%Z /\ IsOpen r' = true).
Proof.
  apply (proj2 (Read_clamps healthy
                  (StreamReader_ctor sample_world (mkPath "f.txt")) [] 5)).
  - reflexivity.
  - reflexivity.
  - reflexivity.
  - vm_compute. split; discriminate.
  - lia.
  - reflexivity.
Defined.

(** ** DirectoryIterator *)

Lemma is_dot_false (name : str) :
  is_dot name = false -> name <> "." /\ name <> "..".
Proof.
  unfold is_dot. intros H. apply orb_false_iff in H. destruct H as [H1 H2].
  split; apply eqb_neq; assumption.
Qed.

(** [ProcessCurrentEntry] ends on the first name that is not a pseudo-entry,
    or at the end when the handle runs out. *)
Lemma ProcessCurrentEntry_child (pf : Platform) (names pending : list str) :
  forall (it it' : DirectoryIterator) (name : str),
    In name names -> incl pending names ->
    ProcessCurrentEntry pf it name pending = Returns it' ->
    mRoot it' = mRoot it /\ handle_within names it' /\
    holds_child pf names it'.
Proof.
  assert (Hkeep : forall (it it' : DirectoryIterator) (name : str) pending,
             In name names -> incl pending names -> is_dot name = false ->
             (current <- op_div pf (mRoot it) name ;;
              Returns (mkIter (mIsEnd it) (mRoot it) current (Some pending)))
             = Returns it' ->
             mRoot it' = mRoot it /\ handle_within names it' /\
             holds_child pf names it').
  { intros it it' name pend Hin Hincl Hdot.
    destruct (op_div pf (mRoot it) name) as [cur|e] eqn:Hdiv;
      simpl; [|discriminate].
    intros [= <-]. split; [reflexivity|]. split; [exact Hincl|].
    right. exists name. destruct (is_dot_false _ Hdot). auto. }
  induction pending as [|next pending IH]; intros it it' name Hin Hincl;
    simpl; destruct (is_dot name) eqn:Hdot;
    try (apply Hkeep; assumption).
  - destruct (mIsEnd it); intros [= <-];
      (split; [reflexivity|]; split; [exact Hincl | left; reflexivity]).
  - destruct (mIsEnd it).
    + intros [= <-].
      split; [reflexivity|]. split; [exact Hincl | left; reflexivity].
    + apply IH.
      * apply Hincl. left. reflexivity.
      * intros x Hx. apply Hincl. right. exact Hx.
Qed.

Lemma reachable_invariant (pf : Platform) (w : World) (path : Path)
      (it : DirectoryIterator) :
  reachable pf w path it ->
  mRoot it = path /\
  handle_within (listing w (Str path ++ "\*")) it /\
  holds_child pf (listing w (Str path ++ "\*")) it.
Proof.
  induction 1 as [it Hctor | it it' _ (Hroot & Hwithin & Hchild) Hincr].
  - unfold DirectoryIterator_ctor in Hctor. cbv zeta in Hctor.
    simpl mRoot in Hctor.
    destruct (IsDirectory w path); simpl negb in Hctor; cbv iota in Hctor.
    + destruct (listing w (Str path ++ "\*")) as [|first pending] eqn:Hl.
      * injection Hctor as <-.
        split; [reflexivity|]. split; [exact I | left; reflexivity].
      * apply (@ProcessCurrentEntry_child pf (first :: pending) pending)
          in Hctor; [exact Hctor | left; reflexivity |].
        intros x Hx. right. exact Hx.
    + injection Hctor as <-.
      split; [reflexivity|]. split; [exact I | left; reflexivity].
  - unfold op_incr in Hincr.
    destruct (mIsEnd it) eqn:Hend.
    + injection Hincr as <-.
      split; [exact Hroot|]. split; [exact Hwithin | left; exact Hend].
    + unfold handle_within in Hwithin.
      destruct (mFindHandle it) as [[|next pending]|] eqn:Hh.
      * injection Hincr as <-.
        split; [exact Hroot|]. split; [|left; reflexivity].
        unfold handle_within. simpl. exact Hwithin.
      * apply (@ProcessCurrentEntry_child pf
                 (listing w (Str path ++ "\*")) pending) in Hincr.
        -- rewrite Hroot in Hincr. exact Hincr.
        -- apply Hwithin. left. reflexivity.
        -- intros x Hx. apply Hwithin. right. exact Hx.
      * injection Hincr as <-.
        split; [exact Hroot|]. split; [|left; reflexivity].
        unfold handle_within. simpl. exact I.
Qed.

Lemma find_last_of_app_cons (c : ascii) (a b : str) :
  ~ In c b -> find_last_of (a ++ c :: b) c = Some (length a).
Proof.
  intros Hb. induction a as [|x a IH]; simpl.
  - apply find_last_of_None in Hb. rewrite Hb, Ascii.eqb_refl. reflexivity.
  - rewrite IH. reflexivity.
Qed.

Lemma step_parts_name (parts : list str) (name : str) :
  is_name name = true -> step_parts parts name = parts ++ [name].
Proof.
  unfold is_name, step_parts. intros H.
  apply andb_true_iff in H. destruct H as [H Hdd].
  apply negb_true_iff in Hdd. rewrite Hdd, H. reflexivity.
Qed.

Lemma join_parts_app (pf : Platform) (a b : list str) :
  join_parts pf (a ++ b) = join_parts pf a ++ join_parts pf b.
Proof.
  induction a as [|x a IH]; simpl; [reflexivity|].
  rewrite IH, <- app_assoc. reflexivity.
Qed.

Lemma Join_str_name (pf : Platform) (root name : str) :
  root <> [] -> name <> [] ->
  exists front, Join_str pf root name = front ++ [PATH_SEPARATOR pf] ++ name.
Proof.
  intros Hroot Hname. unfold Join_str.
  destruct root as [|x r]; [congruence|]. destruct name as [|y n]; [congruence|].
  simpl empty. cbv iota.
  destruct (Ascii.eqb_spec (back (x :: r)) (PATH_SEPARATOR pf)) as [Hb|Hb].
  - exists (removelast (x :: r)).
    rewrite (nonempty_snoc (x :: r)) at 1 by discriminate.
    rewrite Hb, <- app_assoc. reflexivity.
  - exists (x :: r). reflexivity.
Qed.

(** On Windows, [root / name] for a proper entry name is a path whose
    [Filename()] is that name. *)
Lemma op_div_Filename (root : Path) (name : str) :
  mPath root <> [] -> file_name name -> name <> "." -> name <> ".." ->
  exists p, op_div Win32 root name = Returns p /\ Filename p = Returns name.
Proof.
  intros Hroot (Hne & Hbs & Hsl) Hdot Hdd.
  assert (Hname : is_name name = true).
  { unfold is_name. apply eqb_neq in Hdot, Hdd. rewrite Hdot, Hdd.
    destruct name; [congruence | reflexivity]. }
  destruct (Join_str_name Win32 (mPath root) name Hroot Hne) as [front Hjoin].
  unfold op_div, Path_ctor. rewrite Normalize_segments, Hjoin. cbv zeta.
  cbn [PATH_SEPARATOR] in *.
  rewrite split_on_app, (split_on_no_sep _ name Hbs), fold_left_app.
  simpl fold_left. rewrite step_parts_name by exact Hname.
  destruct (fold_left step_parts (split_on "\"%char front) []) as [|q qs].
  - (* the entry name is all that is left *)
    simpl. rewrite app_nil_r. unfold or_root.
    destruct name as [|c n] eqn:E; [congruence|]. rewrite <- E in *.
    exists (mkPath name). split; [subst name; reflexivity|].
    unfold Filename, rfind. simpl mPath.
    apply find_last_of_None in Hbs, Hsl. rewrite Hbs, Hsl. reflexivity.
  - simpl app. simpl join_parts. simpl tl.
    rewrite join_parts_app. simpl join_parts. rewrite app_nil_r.
    rewrite app_assoc.
    set (before := q ++ join_parts Win32 qs).
    assert (Hemp : empty (before ++ "\"%char :: name) = false)
      by (destruct before; reflexivity).
    unfold or_root. rewrite Hemp. simpl bind.
    eexists. split; [reflexivity|].
    unfold Filename, rfind. simpl mPath.
    rewrite (find_last_of_app_cons "\"%char before name Hbs).
    rewrite substr_from_le by (rewrite length_app; simpl; lia).
    replace (length before + 1) with (length (before ++ ["\"%char]))
      by (rewrite length_app; reflexivity).
    change (before ++ "\"%char :: name) with (before ++ ["\"%char] ++ name).
    rewrite app_assoc, skipn_app, skipn_all, Nat.sub_diag. reflexivity.
Qed.

(** With proper entry names and a non-empty root string the traversal never
    throws on Windows: the constructor and every [operator++] return. *)
Lemma ProcessCurrentEntry_returns (pending : list str) :
  forall (it : DirectoryIterator) (name : str),
    mPath (mRoot it) <> [] -> file_name name -> Forall file_name pending ->
    exists it', ProcessCurrentEntry Win32 it name pending = Returns it'.
Proof.
  assert (Hkeep : forall (it : DirectoryIterator) (name : str) pend,
             mPath (mRoot it) <> [] -> file_name name -> is_dot name = false ->
             exists it',
               (current <- op_div Win32 (mRoot it) name ;;
                Returns (mkIter (mIsEnd it) (mRoot it) current (Some pend)))
               = Returns it').
  { intros it name pend Hroot Hname Hdot.
    destruct (is_dot_false name Hdot) as [H1 H2].
    destruct (op_div_Filename (mRoot it) name Hroot Hname H1 H2) as (p & -> & _).
    eexists. reflexivity. }
  induction pending as [|next pending IH]; intros it name Hroot Hname Hpend;
    simpl; destruct (is_dot name) eqn:Hdot;
    try (apply Hkeep; assumption).
  - destruct (mIsEnd it); eexists; reflexivity.
  - destruct (mIsEnd it); [eexists; reflexivity|].
    inversion Hpend; subst. apply IH; assumption.
Qed.

Lemma begin_returns (w : World) (path : Path) :
  mPath path <> [] -> Forall file_name (listing w (Str path ++ "\*")) ->
  exists it, DirectoryIterator_ctor Win32 w path = Returns it.
Proof.
  intros Hroot Hnames. unfold DirectoryIterator_ctor. cbv zeta. simpl mRoot.
  destruct (negb (IsDirectory w path)); [eexists; reflexivity|].
  destruct (listing w (Str path ++ "\*")) as [|first pending];
    [eexists; reflexivity|].
  inversion Hnames; subst.
  apply ProcessCurrentEntry_returns; assumption.
Qed.

Lemma op_incr_returns (w : World) (path : Path) (it : DirectoryIterator) :
  mPath path <> [] -> Forall file_name (listing w (Str path ++ "\*")) ->
  reachable Win32 w path it ->
  exists it', op_incr Win32 it = Returns it'.
Proof.
  intros Hroot Hnames Hreach.
  destruct (reachable_invariant Win32 w path it Hreach) as (Hr & Hwithin & _).
  unfold op_incr. destruct (mIsEnd it); [eexists; reflexivity|].
  unfold handle_within in Hwithin.
  destruct (mFindHandle it) as [[|next pending]|]; try (eexists; reflexivity).
  rewrite Forall_forall in Hnames.
  apply ProcessCurrentEntry_returns.
  - rewrite Hr. exact Hroot.
  - apply Hnames, Hwithin. left. reflexivity.
  - apply Forall_forall. intros x Hx. apply Hnames, Hwithin. right. exact Hx.
Qed.

(** C9. Every iterator state of a traversal is the end state or holds a
    current entry [mRoot / name], where [name] is one of the names the system
    hands out for the directory and is neither [.] nor [..]: the
    pseudo-entries are passed over by advancing again and are never the
    current entry. On Windows, for a proper entry name, that name is what
    [Filename()] gives for the current entry. *)
Theorem iterator_never_holds_dot (pf : Platform) (w : World) (path : Path)
        (it : DirectoryIterator) :
  reachable pf w path it ->
  mRoot it = path /\
  (mIsEnd it = true \/
   exists name : str,
     In name (listing w (Str path ++ "\*")) /\
     name <> "." /\ name <> ".." /\
     op_div pf path name = Returns (mCurrent it) /\
     (pf = Win32 -> mPath path <> [] -> file_name name ->
      Filename (mCurrent it) = Returns name)).
Proof.
  intros H. destruct (reachable_invariant pf w path it H) as (Hroot & _ & Hchild).
  split; [exact Hroot|]. unfold holds_child in Hchild.
  rewrite Hroot in Hchild.
  destruct Hchild as [Hend | (name & Hin & Hdot & Hdd & Hdiv)]; [left; exact Hend|].
  right. exists name. repeat (split; [assumption|]).
  intros -> Hpath Hname.
  destruct (op_div_Filename path name Hpath Hname Hdot Hdd) as (p & Hp & Hfile).
  rewrite Hp in Hdiv. injection Hdiv as <-. exact Hfile.
Qed.

Lemma iterator_never_holds_dot_witness :
  mRoot (mkIter false (mkPath "d") (mkPath "d\b.txt") (Some [])) = mkPath "d" /\
  (mIsEnd (mkIter false (mkPath "d") (mkPath "d\b.txt") (Some [])) = true \/
   exists name : str,
     In name (listing sample_world (Str (mkPath "d") ++ "\*")) /\
     name <> "." /\ name <> ".." /\
     op_div Win32 (mkPath "d") name
     = Returns (mCurrent (mkIter false (mkPath "d") (mkPath "d\b.txt") (Some [])))
     /\
     (Win32 = Win32 -> mPath (mkPath "d") <> [] -> file_name name ->
      Filename (mCurrent (mkIter false (mkPath "d") (mkPath "d\b.txt") (Some [])))
      = Returns name)).
Proof.
  apply (iterator_never_holds_dot Win32 sample_world (mkPath "d")).
  apply reach_incr with (it := mkIter false (mkPath "d") (mkPath "d\a.txt")
                                      (Some ["b.txt" : str])).
  - apply reach_begin. reflexivity.
  - reflexivity.
Defined.

(** * Further properties of the code *)

(** ** Path: normalisation *)

Lemma Normalize_render (pf : Platform) (raw : str) :
  Normalize pf raw
  = render pf (fold_left step_parts (split_on (PATH_SEPARATOR pf) raw) []).
Proof. rewrite Normalize_segments. destruct pf; reflexivity. Qed.

Lemma Normalize_parts_ok (pf : Platform) (raw : str) :
  parts_ok pf (fold_left step_parts (split_on (PATH_SEPARATOR pf) raw) []).
Proof.
  apply fold_step_parts_ok; [|apply split_on_sep_free].
  split; [constructor | reflexivity].
Qed.

Lemma no_resolvable_dotdot_app_l (l r : list str) :
  no_resolvable_dotdot (l ++ r) = true -> no_resolvable_dotdot l = true.
Proof.
  revert l; induction r as [|x r IH] using rev_ind; intros l.
  - rewrite app_nil_r. auto.
  - rewrite app_assoc. intros H.
    apply IH. apply no_resolvable_dotdot_front in H. exact H.
Qed.

Lemma no_resolvable_dotdot_mid (l r : list str) (x : str) :
  no_resolvable_dotdot (l ++ x :: r) = true ->
  l = [] \/ is_name (last l []) = false \/ eqb x ".." = false.
Proof.
  induction l as [|a l IH]; [auto|]. intros H. right.
  destruct l as [|b l].
  - change ([a] ++ x :: r) with (a :: x :: r) in H.
    rewrite no_resolvable_dotdot_cons in H.
    apply andb_true_iff in H. destruct H as [H _].
    apply negb_true_iff, andb_false_iff in H. exact H.
  - change ((a :: b :: l) ++ x :: r) with (a :: b :: (l ++ x :: r)) in H.
    rewrite no_resolvable_dotdot_cons in H.
    apply andb_true_iff in H. destruct H as [_ H].
    destruct (IH H) as [E|E]; [discriminate | exact E].
Qed.

Lemma proper_not_name (pf : Platform) (part : str) :
  proper_part pf part -> is_name part = false -> eqb part ".." = true.
Proof.
  intros (Hne & Hdot & _) H. unfold is_name in H.
  apply eqb_neq in Hdot. rewrite Hdot in H.
  destruct part; [congruence|]. simpl in H.
  apply negb_false_iff in H. exact H.
Qed.

Lemma step_parts_push (pf : Platform) (acc : list str) (part : str) :
  proper_part pf part ->
  acc = [] \/ eqb (last acc []) ".." = true \/ eqb part ".." = false ->
  step_parts acc part = acc ++ [part].
Proof.
  intros (Hne & Hdot & _) H. unfold step_parts, parts_back, push_back.
  assert (Hpop : eqb part ".." && negb (parts_empty acc)
                 && negb (eqb (last acc []) "..") = false).
  { destruct H as [-> | [H | H]].
    - rewrite andb_false_r. reflexivity.
    - rewrite H. apply andb_false_r.
    - rewrite H. reflexivity. }
  rewrite Hpop. apply eqb_neq in Hdot. rewrite Hdot.
  destruct part; [congruence | reflexivity].
Qed.

Lemma Forall_last (A : Type) (P : A -> Prop) (l : list A) (d : A) :
  l <> [] -> Forall P l -> P (last l d).
Proof.
  intros Hne Hall. rewrite (app_removelast_last d Hne) in Hall.
  apply Forall_app in Hall. destruct Hall as [_ H]. inversion H. assumption.
Qed.

(** Parts that are in order are kept as they are by another pass. *)
Lemma fold_step_parts_keep (pf : Platform) (parts : list str) :
  forall acc : list str,
    Forall (proper_part pf) acc -> Forall (proper_part pf) parts ->
    no_resolvable_dotdot (acc ++ parts) = true ->
    fold_left step_parts parts acc = acc ++ parts.
Proof.
  induction parts as [|part parts IH]; intros acc Hacc Hparts Hdd; simpl.
  - symmetry. apply app_nil_r.
  - inversion Hparts as [|? ? Hpart Hrest]; subst.
    rewrite (step_parts_push pf acc part Hpart).
    + rewrite IH.
      * rewrite <- app_assoc. reflexivity.
      * apply Forall_app. split; [exact Hacc | constructor; [exact Hpart | constructor]].
      * exact Hrest.
      * rewrite <- app_assoc. exact Hdd.
    + destruct (no_resolvable_dotdot_mid acc parts part Hdd) as [E | [E | E]];
        [auto | | auto].
      destruct acc as [|a acc']; [auto|]. right. left.
      apply (proper_not_name pf); [|exact E].
      apply Forall_last; [discriminate | exact Hacc].
Qed.

Lemma fold_step_parts_nil_seg (segs acc : list str) :
  fold_left step_parts ([] :: segs) acc = fold_left step_parts segs acc.
Proof. reflexivity. Qed.

(** The segments of what [render] returns fold back to the same parts. *)
Lemma render_segments (pf : Platform) (parts : list str) (r : str) :
  parts_ok pf parts -> render pf parts = Returns r ->
  fold_left step_parts (split_on (PATH_SEPARATOR pf) r) [] = parts.
Proof.
  intros [Hall Hdd] Hr.
  destruct parts as [|part rest].
  - destruct pf; [discriminate|]. injection Hr as <-. reflexivity.
  - assert (Hkeep : fold_left step_parts (part :: rest) [] = part :: rest).
    { apply (fold_step_parts_keep pf); [constructor | exact Hall | exact Hdd]. }
    assert (Hpart : part <> []) by (inversion Hall as [|? ? (H & _) _]; exact H).
    pose proof (split_on_join_parts pf rest part Hall) as Hsplit.
    assert (Hemp : empty (part ++ join_parts pf rest) = false)
      by (destruct part; [congruence | reflexivity]).
    destruct pf; injection Hr as <-; unfold or_root.
    + simpl join_parts. simpl tl. rewrite Hemp, Hsplit. exact Hkeep.
    + simpl join_parts. simpl empty. cbv iota.
      cbn [PATH_SEPARATOR] in *.
      change ("/"%char :: part ++ join_parts Posix rest)
        with ([] ++ "/"%char :: (part ++ join_parts Posix rest)).
      rewrite split_on_segment by (simpl; tauto). rewrite Hsplit.
      rewrite fold_step_parts_nil_seg. exact Hkeep.
Qed.

(** X1. Normalisation is idempotent: a string that [Normalize] returns is
    returned unchanged when normalised again, so constructing a path from
    the string of a constructed path gives the same path. *)
Theorem Normalize_idempotent (pf : Platform) (raw r : str) :
  Normalize pf raw = Returns r ->
  Normalize pf r = Returns r /\ Path_ctor pf r = Returns (mkPath r).
Proof.
  intros H.
  assert (E : Normalize pf r = Returns r).
  { rewrite Normalize_render in *.
    rewrite (render_segments pf _ r (Normalize_parts_ok pf raw) H). exact H. }
  split; [exact E|]. unfold Path_ctor. rewrite E. reflexivity.
Qed.

Lemma Normalize_idempotent_witness :
  Normalize Win32 "a\b" = Returns ("a\b" : str) /\
  Path_ctor Win32 "a\b" = Returns (mkPath "a\b").
Proof.
  apply (Normalize_idempotent Win32 "a\.\x\..\b" "a\b"). reflexivity.
Defined.

Lemma render_fixed (pf : Platform) (parts : list str) (r : str) :
  parts_ok pf parts -> render pf parts = Returns r ->
  Normalize pf r = Returns r.
Proof.
  intros Hok Hr. rewrite Normalize_render.
  rewrite (render_segments pf parts r Hok Hr). exact Hr.
Qed.

Lemma render_nonempty (pf : Platform) (parts : list str) (r : str) :
  render pf parts = Returns r -> r <> [].
Proof.
  assert (H : forall s, or_root pf s <> []).
  { intros s. unfold or_root. destruct s; simpl; discriminate. }
  unfold render. destruct pf; [destruct parts; [discriminate|]|];
    intros [= <-]; apply H.
Qed.

(** X2. Every path-returning member other than the in-place [Join] stores a
    normalised string: the constructor, the const [Join], [operator/],
    [Parent], [ReplaceExtension], and [RelativeTo] on a receiver that is
    itself normalised. *)
Theorem Path_results_normalized (pf : Platform) (p base q : Path)
        (raw sub ext : str) :
  (Path_ctor pf raw = Returns q -> normalized pf (mPath q) = true) /\
  (Join_const pf p sub = Returns q -> normalized pf (mPath q) = true) /\
  (op_div pf p sub = Returns q -> normalized pf (mPath q) = true) /\
  (Parent pf p = Returns q -> normalized pf (mPath q) = true) /\
  (ReplaceExtension pf p ext = Returns q -> normalized pf (mPath q) = true) /\
  (normalized pf (mPath p) = true -> RelativeTo pf p base = Returns q ->
   normalized pf (mPath q) = true).
Proof.
  assert (Hctor : forall s, Path_ctor pf s = Returns q ->
                            normalized pf (mPath q) = true)
    by (intros s; apply Path_ctor_normalized).
  repeat split.
  - apply Hctor.
  - apply Hctor.
  - apply Hctor.
  - unfold Parent.
    destruct (find_last_of (mPath p) (PATH_SEPARATOR pf)) as [[|k]|];
      apply Hctor.
  - unfold ReplaceExtension. destruct (negb (HasExtension pf p)); [apply Hctor|].
    destruct (find_last_of (mPath p) "."%char); apply Hctor.
  - intros Hp. unfold RelativeTo. rewrite substr_0. simpl bind.
    match goal with |- context [negb ?c] => destruct c end; simpl.
    + destruct (substr_from (Str p) _) as [rel|e]; simpl; [|discriminate].
      destruct (empty rel); apply Hctor.
    + intros [= <-]. exact Hp.
Qed.

Lemma Path_results_normalized_witness :
  normalized Win32 (mPath (mkPath "a\c")) = true.
Proof.
  apply (proj1 (Path_results_normalized Win32 (mkPath "a") (mkPath "a")
                  (mkPath "a\c") "a\\b\..\.\c" [] [])).
  reflexivity.
Defined.

Lemma fold_step_parts_degenerate (segs : list str) :
  Forall (fun seg : str => seg = [] \/ seg = ".") segs ->
  fold_left step_parts segs [] = [].
Proof.
  induction 1 as [|seg segs [-> | ->] _ IH]; simpl; auto.
Qed.

(** X3. A stored string is never empty. A raw string in which every segment
    is empty or [.] (the empty string, ".", the separator alone) has no part
    left: with the POSIX branch the path is the root and construction always
    succeeds, on Windows construction throws [std::out_of_range]. *)
Theorem Normalize_degenerate (pf : Platform) (raw : str) :
  (forall r, Normalize pf raw = Returns r -> r <> []) /\
  (exists r, Normalize Posix raw = Returns r) /\
  (Forall (fun seg : str => seg = [] \/ seg = ".")
          (split_on (PATH_SEPARATOR pf) raw) ->
   Normalize pf raw = match pf with
                      | Win32 => Throws out_of_range
                      | Posix => Returns [PATH_SEPARATOR Posix]
                      end).
Proof.
  split; [|split].
  - intros r. rewrite Normalize_render. apply render_nonempty.
  - rewrite Normalize_render. eexists. reflexivity.
  - intros H. rewrite Normalize_render, (fold_step_parts_degenerate _ H).
    destruct pf; reflexivity.
Qed.

Lemma Normalize_degenerate_witness :
  Normalize Win32 ".\\." = Throws out_of_range.
Proof.
  apply (proj2 (proj2 (Normalize_degenerate Win32 ".\\."))).
  cbv.
  repeat (apply Forall_cons; [first [left; reflexivity | right; reflexivity]|]).
  apply Forall_nil.
Defined.

Lemma parts_ok_front (pf : Platform) (init rest : list str) :
  parts_ok pf (init ++ rest) -> parts_ok pf init.
Proof.
  intros [Hall Hdd]. split.
  - apply Forall_app in Hall. tauto.
  - exact (no_resolvable_dotdot_app_l init rest Hdd).
Qed.

(** X4. [Parent] of a constructed path drops exactly the last component:
    when the stored string has a separator beyond position 0, the parent
    stores the characters before the last separator, unchanged. *)
Theorem Parent_drops_last_component (pf : Platform) (raw : str) (p : Path)
        (k : nat) :
  Path_ctor pf raw = Returns p ->
  find_last_of (mPath p) (PATH_SEPARATOR pf) = Some (S k) ->
  Parent pf p = Returns (mkPath (firstn (S k) (mPath p))).
Proof.
  intros Hctor Hlast. rewrite (Parent_inner_separator pf p k Hlast).
  unfold Path_ctor in Hctor.
  destruct (Normalize pf raw) as [r|e] eqn:Hn; simpl in Hctor; [|discriminate].
  injection Hctor as <-. simpl mPath in *.
  rewrite Normalize_render in Hn.
  pose proof (Normalize_parts_ok pf raw) as Hok.
  set (parts := fold_left step_parts (split_on (PATH_SEPARATOR pf) raw) []) in *.
  assert (Hne : parts <> []).
  { intros E. rewrite E in Hn. destruct pf; [discriminate|].
    injection Hn as <-. discriminate. }
  destruct (exists_last Hne) as (init & final & E).
  clearbody parts. subst parts.
  assert (Hfinal : ~ In (PATH_SEPARATOR pf) final).
  { destruct Hok as [Hall _]. apply Forall_app in Hall.
    destruct Hall as [_ Hall]. inversion Hall as [|? ? (_ & _ & H) _]. exact H. }
  pose proof (parts_ok_front pf init [final] Hok) as Hinit.
  assert (Hjoin : join_parts pf (init ++ [final])
                  = join_parts pf init ++ PATH_SEPARATOR pf :: final).
  { rewrite join_parts_app. simpl. rewrite app_nil_r. reflexivity. }
  assert (Hprefix : forall front : str,
             front <> [] -> r = front ++ PATH_SEPARATOR pf :: final ->
             render pf init = Returns front ->
             Path_ctor pf (firstn (S k) r) = Returns (mkPath (firstn (S k) r))).
  { intros front Hfront Hr Hrender.
    rewrite Hr in Hlast. rewrite find_last_of_app_cons in Hlast by exact Hfinal.
    injection Hlast as Hk. rewrite <- Hk, Hr.
    rewrite firstn_app, firstn_all, Nat.sub_diag. simpl firstn.
    rewrite app_nil_r. unfold Path_ctor.
    rewrite (render_fixed pf init front Hinit Hrender). reflexivity. }
  destruct init as [|q qs].
  - (* a single part: no separator beyond position 0 *)
    exfalso. simpl app in Hn.
    destruct pf; cbn [render join_parts tl app] in Hn; rewrite app_nil_r in Hn;
      injection Hn as <-; unfold or_root in Hlast.
    + apply find_last_of_None in Hfinal.
      destruct final; simpl empty in Hlast; cbv iota in Hlast.
      * discriminate.
      * rewrite Hfinal in Hlast. discriminate.
    + apply find_last_of_None in Hfinal. simpl empty in Hlast.
      cbv iota in Hlast. cbn [find_last_of] in Hlast. rewrite Hfinal in Hlast.
      discriminate.
  - assert (Hq : q <> []).
    { destruct Hinit as [Hall _]. inversion Hall as [|? ? (H & _) _]. exact H. }
    assert (Hemp : forall t, empty ((q ++ join_parts pf qs) ++ t) = false)
      by (intros t; destruct q; [congruence | reflexivity]).
    destruct pf;
      [change (render Win32 ((q :: qs) ++ [final]))
         with (Returns (or_root Win32
                          (tl (join_parts Win32 ((q :: qs) ++ [final]))))) in Hn
      | cbn [render] in Hn ];
      rewrite Hjoin in Hn; injection Hn as Hr; unfold or_root in Hr.
    + cbn [join_parts app tl] in Hr. rewrite Hemp in Hr.
      apply (Hprefix (q ++ join_parts Win32 qs)).
      * destruct q; [congruence | discriminate].
      * symmetry. exact Hr.
      * cbn [render join_parts app tl]. unfold or_root.
        specialize (Hemp []). rewrite app_nil_r in Hemp. rewrite Hemp.
        reflexivity.
    + cbn [join_parts app empty] in Hr.
      apply (Hprefix (PATH_SEPARATOR Posix :: q ++ join_parts Posix qs)).
      * discriminate.
      * symmetry. exact Hr.
      * reflexivity.
Qed.

Lemma Parent_drops_last_component_witness :
  Parent Win32 (mkPath "a\b\c") = Returns (mkPath "a\b").
Proof.
  apply (Parent_drops_last_component Win32 "a\b\c" (mkPath "a\b\c") 2);
    reflexivity.
Defined.

(** ** Path: joining *)

Lemma Join_str_front (pf : Platform) (lhs rhs : str) :
  lhs <> [] -> rhs <> [] ->
  Join_str pf lhs rhs = join_front pf lhs ++ [PATH_SEPARATOR pf] ++ rhs.
Proof.
  intros Hl Hr. unfold Join_str, join_front.
  destruct lhs as [|x l]; [congruence|]. destruct rhs as [|y r]; [congruence|].
  simpl empty. cbv iota.
  destruct (Ascii.eqb_spec (back (x :: l)) (PATH_SEPARATOR pf)) as [Hb|Hb].
  - rewrite (nonempty_snoc (x :: l)) at 1 by discriminate.
    rewrite Hb, <- app_assoc. reflexivity.
  - reflexivity.
Qed.

Lemma Normalize_joined (pf : Platform) (a b : str) :
  Normalize pf (a ++ [PATH_SEPARATOR pf] ++ b)
  = render pf (fold_left step_parts (split_on (PATH_SEPARATOR pf) b)
                 (fold_left step_parts (split_on (PATH_SEPARATOR pf) a) [])).
Proof. rewrite Normalize_render, split_on_app, fold_left_app. reflexivity. Qed.

Lemma parts_of_join_front (pf : Platform) (lhs : str) :
  lhs <> [] ->
  fold_left step_parts (split_on (PATH_SEPARATOR pf) (join_front pf lhs)) []
  = fold_left step_parts (split_on (PATH_SEPARATOR pf) lhs) [].
Proof.
  intros Hl. unfold join_front.
  destruct (Ascii.eqb_spec (back lhs) (PATH_SEPARATOR pf)) as [Hb|Hb];
    [|reflexivity].
  rewrite (nonempty_snoc lhs Hl) at 2. rewrite Hb.
  replace (removelast lhs ++ [PATH_SEPARATOR pf])
    with (removelast lhs ++ [PATH_SEPARATOR pf] ++ []) by reflexivity.
  rewrite split_on_app, fold_left_app. reflexivity.
Qed.

(** X5. [operator/] composes: joining [a] and then [b] onto a path gives the
    path obtained by joining the sub-path [a<sep>b] at once, for non-empty
    operands. *)
Theorem op_div_composes (pf : Platform) (p q : Path) (a b : str) :
  mPath p <> [] -> a <> [] -> b <> [] ->
  op_div pf p a = Returns q ->
  op_div pf q b = op_div pf p (a ++ [PATH_SEPARATOR pf] ++ b).
Proof.
  intros Hp Ha Hb Hq. unfold op_div, Path_ctor in *.
  rewrite (Join_str_front pf (mPath p) a Hp Ha) in Hq.
  destruct (Normalize pf (join_front pf (mPath p) ++ [PATH_SEPARATOR pf] ++ a))
    as [r|e] eqn:Hn; simpl in Hq; [|discriminate].
  injection Hq as <-. simpl mPath.
  assert (Hr : r <> []).
  { rewrite Normalize_render in Hn. exact (render_nonempty pf _ r Hn). }
  rewrite (Join_str_front pf r b Hr Hb).
  rewrite (Join_str_front pf (mPath p) (a ++ [PATH_SEPARATOR pf] ++ b) Hp)
    by (destruct a; [congruence | discriminate]).
  rewrite (app_assoc (join_front pf (mPath p)) _ _).
  rewrite (app_assoc _ a _).
  rewrite <- (app_assoc (join_front pf (mPath p)) _ a).
  rewrite !Normalize_joined. rewrite (parts_of_join_front pf r Hr).
  rewrite Normalize_render in Hn.
  rewrite (render_segments pf _ r (Normalize_parts_ok pf _) Hn).
  rewrite split_on_app, fold_left_app. reflexivity.
Qed.

Lemma op_div_composes_witness :
  op_div Win32 (mkPath "a\b") "c" = op_div Win32 (mkPath "a") "b\c".
Proof.
  apply (op_div_composes Win32 (mkPath "a") (mkPath "a\b") "b" "c");
    try discriminate; reflexivity.
Defined.

Lemma render_single (pf : Platform) (name : str) :
  name <> [] ->
  render pf [name]
  = Returns (match pf with
             | Win32 => name
             | Posix => PATH_SEPARATOR Posix :: name
             end).
Proof.
  intros Hn. destruct name as [|c n]; [congruence|].
  destruct pf; cbn [render join_parts app tl]; rewrite app_nil_r; reflexivity.
Qed.

Lemma render_snoc (pf : Platform) (parts : list str) (name rp : str) :
  Forall (proper_part pf) parts -> parts <> [] ->
  render pf parts = Returns rp ->
  render pf (parts ++ [name]) = Returns (rp ++ PATH_SEPARATOR pf :: name).
Proof.
  intros Hall Hne Hr. destruct parts as [|q qs]; [congruence|].
  assert (Hq : q <> []) by (inversion Hall as [|? ? (H & _) _]; exact H).
  destruct q as [|c q']; [congruence|].
  destruct pf.
  - change (render Win32 (((c :: q') :: qs) ++ [name]))
      with (Returns (or_root Win32
                       (tl (join_parts Win32 (((c :: q') :: qs) ++ [name]))))).
    rewrite join_parts_app. cbn [render join_parts app tl or_root empty] in *.
    injection Hr as <-. simpl. rewrite ?app_nil_r, <- ?app_assoc. reflexivity.
  - cbn [render] in *. rewrite join_parts_app.
    cbn [join_parts app or_root empty] in *.
    injection Hr as <-. simpl. rewrite ?app_nil_r, <- ?app_assoc. reflexivity.
Qed.

Lemma back_app (a b : str) : b <> [] -> back (a ++ b) = back b.
Proof.
  intros Hb. unfold back. rewrite (nonempty_snoc b Hb), app_assoc, !last_last.
  reflexivity.
Qed.

Lemma back_In (s : str) : s <> [] -> In (back s) s.
Proof.
  intros Hs. rewrite (nonempty_snoc s Hs) at 2.
  apply in_or_app. right. left. reflexivity.
Qed.

Lemma render_back (pf : Platform) (parts : list str) (r : str) :
  Forall (proper_part pf) parts -> parts <> [] ->
  render pf parts = Returns r -> back r <> PATH_SEPARATOR pf.
Proof.
  intros Hall Hne Hr.
  destruct (exists_last Hne) as (init & final & ->).
  apply Forall_app in Hall. destruct Hall as [Hinit Hfinal].
  inversion Hfinal as [|? ? (Hf & _ & Hsep) _]. subst.
  assert (Hback : back final <> PATH_SEPARATOR pf).
  { intros E. apply Hsep. rewrite <- E. exact (back_In final Hf). }
  destruct init as [|q qs].
  - simpl app in Hr. rewrite (render_single pf final Hf) in Hr.
    injection Hr as <-. destruct pf; cbv iota; [exact Hback|].
    change (back (["/"%char] ++ final) <> PATH_SEPARATOR Posix).
    rewrite (back_app _ final Hf). exact Hback.
  - assert (Hex : exists rp, render pf (q :: qs) = Returns rp)
      by (destruct pf; eexists; reflexivity).
    destruct Hex as [rp Hrp].
    rewrite (render_snoc pf (q :: qs) final rp Hinit ltac:(discriminate) Hrp)
      in Hr.
    injection Hr as <-.
    change (PATH_SEPARATOR pf :: final) with ([PATH_SEPARATOR pf] ++ final).
    rewrite app_assoc, (back_app _ final Hf). exact Hback.
Qed.

(** X6. [RelativeTo] undoes [operator/] for one name: for a constructed
    path [base] and a proper entry name, [base / name] exists and
    [(base / name).RelativeTo(base)] is the path of the name alone (with the
    POSIX branch, the name under the root, as [Path(name)] is). *)
Theorem RelativeTo_child (pf : Platform) (raw : str) (base : Path)
        (name : str) :
  Path_ctor pf raw = Returns base ->
  is_name name = true -> ~ In (PATH_SEPARATOR pf) name ->
  exists q : Path,
    op_div pf base name = Returns q /\
    RelativeTo pf q base
    = Returns (mkPath (match pf with
                       | Win32 => name
                       | Posix => PATH_SEPARATOR Posix :: name
                       end)) /\
    RelativeTo pf q base = Path_ctor pf name.
Proof.
  intros Hctor Hname Hsep.
  assert (Hne : name <> []) by (destruct name; [discriminate | discriminate]).
  assert (Hpn : Path_ctor pf name
                = Returns (mkPath (match pf with
                                   | Win32 => name
                                   | Posix => PATH_SEPARATOR Posix :: name
                                   end))).
  { unfold Path_ctor. rewrite Normalize_render.
    rewrite (split_on_no_sep _ name Hsep). cbn [fold_left].
    rewrite (step_parts_name [] name Hname). cbn [app].
    rewrite (render_single pf name Hne). reflexivity. }
  rewrite Hpn.
  enough (H : exists q : Path,
             op_div pf base name = Returns q /\
             RelativeTo pf q base
             = Returns (mkPath (match pf with
                                | Win32 => name
                                | Posix => PATH_SEPARATOR Posix :: name
                                end))).
  { destruct H as (q & H1 & H2). exists q. repeat split; assumption. }
  clear Hpn. unfold Path_ctor in Hctor.
  destruct (Normalize pf raw) as [rb|e] eqn:Hn; simpl in Hctor; [|discriminate].
  injection Hctor as <-.
  rewrite Normalize_render in Hn.
  pose proof (Normalize_parts_ok pf raw) as Hok.
  remember (fold_left step_parts (split_on (PATH_SEPARATOR pf) raw) [])
    as parts eqn:Eparts. clear Eparts.
  pose proof (render_nonempty pf parts rb Hn) as Hrb.
  assert (Hq : Normalize pf (Join_str pf rb name)
               = render pf (parts ++ [name])).
  { rewrite (Join_str_front pf rb name Hrb Hne), Normalize_joined.
    rewrite (parts_of_join_front pf rb Hrb).
    rewrite (render_segments pf parts rb Hok Hn).
    rewrite (split_on_no_sep _ name Hsep). cbn [fold_left].
    rewrite (step_parts_name parts name Hname). reflexivity. }
  unfold op_div, Path_ctor. simpl mPath. rewrite Hq.
  destruct parts as [|p0 ps].
  - (* the base is the root *)
    destruct pf; [discriminate|]. injection Hn as <-.
    cbn [app]. rewrite (render_single Posix name Hne). cbn [bind].
    eexists. split; [reflexivity|].
    destruct name as [|c n]; [congruence|].
    assert (Hc : Ascii.eqb c "/"%char = false).
    { apply Ascii.eqb_neq. intros ->. apply Hsep. left. reflexivity. }
    unfold RelativeTo, Str. cbn. rewrite Hc. reflexivity.
  - destruct Hok as [Hall _].
    rewrite (render_snoc pf (p0 :: ps) name rb Hall ltac:(discriminate) Hn).
    cbn [bind]. eexists. split; [reflexivity|].
    pose proof (render_back pf (p0 :: ps) rb Hall ltac:(discriminate) Hn)
      as Hback.
    rewrite (proj2 (RelativeTo_prefix pf
                      (mkPath (rb ++ PATH_SEPARATOR pf :: name)) (mkPath rb))
               (PATH_SEPARATOR pf :: name) eq_refl ltac:(discriminate)
               (or_intror Hback)).
    unfold Path_ctor.
    change (PATH_SEPARATOR pf :: name) with ([] ++ [PATH_SEPARATOR pf] ++ name).
    rewrite Normalize_joined. rewrite (split_on_no_sep _ name Hsep).
    cbn [split_on fold_left]. rewrite step_parts_nil.
    rewrite (step_parts_name [] name Hname). cbn [app].
    rewrite (render_single pf name Hne). reflexivity.
Qed.

Lemma RelativeTo_child_witness :
  exists q : Path,
    op_div Win32 (mkPath "a\b") "c.txt" = Returns q /\
    RelativeTo Win32 q (mkPath "a\b") = Returns (mkPath "c.txt") /\
    RelativeTo Win32 q (mkPath "a\b") = Path_ctor Win32 "c.txt".
Proof.
  apply (RelativeTo_child Win32 "a\b" (mkPath "a\b") "c.txt").
  - reflexivity.
  - reflexivity.
  - cbv. intros H. repeat (destruct H as [H|H]; [discriminate|]). exact H.
Defined.

(** ** Path: file name and extension *)

Lemma skipn_app_cons (a b : str) (c : ascii) :
  skipn (S (length a)) (a ++ c :: b) = b.
Proof. induction a as [|x a IH]; simpl; [reflexivity | exact IH]. Qed.

Lemma find_last_of_split (s : str) (c : ascii) (k : nat) :
  find_last_of s c = Some k ->
  exists a b, s = a ++ c :: b /\ length a = k /\ ~ In c b /\
              skipn (S k) s = b.
Proof.
  intros H. apply find_last_of_Some in H. destruct H as [Hnth Hrest].
  destruct (nth_error_split s k Hnth) as (a & b & -> & <-).
  rewrite skipn_app_cons in Hrest. exists a, b.
  repeat split; [exact Hrest | apply skipn_app_cons].
Qed.

Lemma find_last_of_bounds (stem rest : str) (c d : ascii) :
  (c = d \/ In c rest -> exists k, find_last_of (stem ++ d :: rest) c = Some k /\
                                   length stem <= k) /\
  (c <> d -> ~ In c rest ->
   forall j, find_last_of (stem ++ d :: rest) c = Some j -> j < length stem).
Proof.
  split.
  - intros Hin.
    destruct (find_last_of (stem ++ d :: rest) c) as [k|] eqn:E.
    + exists k. split; [reflexivity|].
      destruct (Nat.le_gt_cases (length stem) k) as [H|H]; [exact H|].
      exfalso. apply find_last_of_Some in E. destruct E as [_ E]. apply E.
      destruct Hin as [->|Hin].
      * apply (In_skipn_nth _ d (length stem) (S k)); [|lia].
        rewrite nth_error_app2, Nat.sub_diag by lia. reflexivity.
      * assert (Hsuf : skipn (S k) (stem ++ d :: rest)
                       = skipn (S k) stem ++ d :: rest).
        { rewrite skipn_app.
          replace (S k - length stem) with 0 by lia. reflexivity. }
        rewrite Hsuf. apply in_or_app. right. right. exact Hin.
    + exfalso. apply find_last_of_None in E. apply E.
      apply in_or_app. right. destruct Hin as [->|Hin]; [left|right]; auto.
  - intros Hcd Hrest j Hj. apply find_last_of_Some in Hj. destruct Hj as [Hj _].
    destruct (Nat.le_gt_cases (length stem) j) as [H|H]; [|exact H].
    exfalso. rewrite nth_error_app2 in Hj by exact H.
    apply nth_error_In in Hj. destruct Hj as [Hj|Hj]; [congruence | auto].
Qed.

Lemma separator_not_dot (pf : Platform) : PATH_SEPARATOR pf <> "."%char.
Proof. destruct pf; discriminate. Qed.

Lemma HasExtension_dotted (pf : Platform) (p : Path) (stem ext : str) :
  mPath p = stem ++ "." ++ ext -> ~ In (PATH_SEPARATOR pf) ext ->
  HasExtension pf p = true.
Proof.
  intros Hs Hsep. unfold HasExtension. rewrite Hs.
  change (stem ++ "." ++ ext) with (stem ++ "."%char :: ext).
  destruct (proj1 (find_last_of_bounds stem ext "." ".") (or_introl eq_refl))
    as (k & -> & Hk).
  destruct (find_last_of (stem ++ "."%char :: ext) (PATH_SEPARATOR pf))
    as [j|] eqn:Ej; [|reflexivity].
  apply Nat.ltb_lt.
  pose proof (proj2 (find_last_of_bounds stem ext (PATH_SEPARATOR pf) ".")
                (separator_not_dot pf) Hsep j Ej).
  lia.
Qed.

Lemma Extension_dotted (pf : Platform) (p : Path) (stem ext : str) :
  mPath p = stem ++ "." ++ ext ->
  ~ In "."%char ext -> ~ In (PATH_SEPARATOR pf) ext ->
  HasExtension pf p = true /\ Extension pf p = Returns ext.
Proof.
  intros Hs Hdot Hsep.
  pose proof (HasExtension_dotted pf p stem ext Hs Hsep) as Hhas.
  split; [exact Hhas|]. unfold Extension. rewrite Hhas. cbn [negb].
  rewrite Hs. change (stem ++ "." ++ ext) with (stem ++ "."%char :: ext).
  rewrite (find_last_of_app_cons "." stem ext Hdot).
  rewrite substr_from_le by (rewrite length_app; simpl; lia).
  rewrite Nat.add_1_r, skipn_app_cons. reflexivity.
Qed.

(** X7. [HasExtension] holds exactly when the stored string has a dot with
    no separator after it; [Extension] is then what follows the last dot (it
    holds neither a dot nor a separator), and the empty string otherwise.
    [Extension] never throws. *)
Theorem Extension_spec (pf : Platform) (p : Path) :
  (HasExtension pf p = true ->
   exists stem ext : str,
     mPath p = stem ++ "." ++ ext /\
     ~ In "."%char ext /\ ~ In (PATH_SEPARATOR pf) ext /\
     Extension pf p = Returns ext) /\
  (HasExtension pf p = false ->
   Extension pf p = Returns [] /\
   forall stem ext : str,
     mPath p = stem ++ "." ++ ext -> In (PATH_SEPARATOR pf) ext).
Proof.
  split.
  - intros Hhas. unfold HasExtension in Hhas.
    destruct (find_last_of (mPath p) ".") as [pos|] eqn:Edot; [|discriminate].
    destruct (find_last_of_split _ _ _ Edot) as (stem & ext & Hs & Hlen & Hd & Hk).
    assert (Hsep : ~ In (PATH_SEPARATOR pf) ext).
    { destruct (find_last_of (mPath p) (PATH_SEPARATOR pf)) as [sep|] eqn:Esep.
      - apply Nat.ltb_lt in Hhas.
        apply find_last_of_Some in Esep. destruct Esep as [_ Esep].
        intros Hin. apply Esep. rewrite <- Hk in Hin.
        replace (S pos) with ((pos - sep) + S sep) in Hin by lia.
        rewrite <- skipn_skipn in Hin.
        revert Hin. generalize (skipn (S sep) (mPath p)) as l.
        generalize (pos - sep) as n.
        induction n as [|n IH]; intros [|x l]; simpl; auto.
      - apply find_last_of_None in Esep. intros Hin. apply Esep.
        rewrite Hs. apply in_or_app. right. right. exact Hin. }
    exists stem, ext. repeat split; try assumption.
    exact (proj2 (Extension_dotted pf p stem ext Hs Hd Hsep)).
  - intros Hhas. split.
    + unfold Extension. rewrite Hhas. reflexivity.
    + intros stem ext Hs.
      destruct (in_dec ascii_dec (PATH_SEPARATOR pf) ext) as [Hin|Hout];
        [exact Hin|].
      rewrite (HasExtension_dotted pf p stem ext Hs Hout) in Hhas.
      discriminate.
Qed.

Lemma Extension_spec_witness :
  exists stem ext : str,
    mPath (mkPath "a.b\c.tar.gz") = stem ++ "." ++ ext /\
    ~ In "."%char ext /\ ~ In (PATH_SEPARATOR Win32) ext /\
    Extension Win32 (mkPath "a.b\c.tar.gz") = Returns ext.
Proof.
  apply (proj1 (Extension_spec Win32 (mkPath "a.b\c.tar.gz"))). reflexivity.
Defined.

(** X8. [Filename] never throws: it returns the end of the stored string
    after the last backslash, or, when there is no backslash, after the last
    slash, or the whole string. [BaseName] is the file name up to its last
    dot, the whole file name when it has none. *)
Theorem Filename_BaseName_spec (p : Path) :
  exists dir f b : str,
    mPath p = dir ++ f /\ Filename p = Returns f /\ BaseName p = Returns b /\
    ~ In "\"%char f /\
    (dir = [] /\ ~ In "/"%char f \/
     back dir = "\"%char \/
     back dir = "/"%char /\ ~ In "\"%char dir /\ ~ In "/"%char f) /\
    (b = f /\ ~ In "."%char f \/
     exists e : str, f = b ++ "." ++ e /\ ~ In "."%char e).
Proof.
  assert (Hbase : forall f : str,
             Filename p = Returns f ->
             exists b, BaseName p = Returns b /\
                       (b = f /\ ~ In "."%char f \/
                        exists e : str, f = b ++ "." ++ e /\ ~ In "."%char e)).
  { intros f Hf. unfold BaseName. rewrite Hf. cbn [bind].
    destruct (find_last_of f ".") as [pos|] eqn:E.
    - destruct (find_last_of_split _ _ _ E) as (b & e & -> & <- & Hd & _).
      exists b. split.
      + rewrite substr_0, firstn_app, firstn_all, Nat.sub_diag.
        simpl. rewrite app_nil_r. reflexivity.
      + right. exists e. split; [reflexivity | exact Hd].
    - exists f. split.
      + rewrite substr_0, firstn_all. reflexivity.
      + left. split; [reflexivity|]. apply find_last_of_None. exact E. }
  assert (Hsub : forall (a f : str) (c : ascii),
             substr_from (a ++ c :: f) (length a + 1) = Returns f).
  { intros a f c. rewrite substr_from_le by (rewrite length_app; simpl; lia).
    rewrite Nat.add_1_r, skipn_app_cons. reflexivity. }
  destruct (rfind (mPath p) "\") as [pos|] eqn:Ebs.
  - destruct (find_last_of_split _ _ _ Ebs) as (a & f & Hs & Hlen & Hf & _).
    assert (HF : Filename p = Returns f).
    { unfold Filename. rewrite Ebs, Hs, <- Hlen. apply Hsub. }
    destruct (Hbase f HF) as (b & Hb & Hshape).
    exists (a ++ ["\"%char]), f, b.
    rewrite <- app_assoc. repeat split; try assumption.
    right. left. apply back_app_last.
  - destruct (rfind (mPath p) "/") as [pos|] eqn:Esl.
    + destruct (find_last_of_split _ _ _ Esl) as (a & f & Hs & Hlen & Hf & _).
      assert (HF : Filename p = Returns f).
      { unfold Filename. rewrite Ebs, Esl, Hs, <- Hlen. apply Hsub. }
      destruct (Hbase f HF) as (b & Hb & Hshape).
      apply find_last_of_None in Ebs. rewrite Hs in Ebs.
      exists (a ++ ["/"%char]), f, b.
      rewrite <- app_assoc. repeat split; try assumption.
      * intros Hin. apply Ebs. apply in_or_app. right. right. exact Hin.
      * right. right. split; [apply back_app_last|]. split; [|exact Hf].
        intros Hin. apply Ebs. apply in_app_or in Hin.
        destruct Hin as [Hin|[Hin|[]]]; [|discriminate].
        apply in_or_app. left. exact Hin.
    + assert (HF : Filename p = Returns (mPath p)).
      { unfold Filename. rewrite Ebs, Esl. reflexivity. }
      destruct (Hbase _ HF) as (b & Hb & Hshape).
      apply find_last_of_None in Ebs, Esl.
      exists [], (mPath p), b. repeat split; try assumption.
      left. split; [reflexivity | exact Esl].
Qed.

Lemma split_on_last (c : ascii) (x : str) :
  exists (init : list str) (s : str),
    split_on c x = init ++ [s] /\ ~ In c s /\
    forall t : str, ~ In c t -> split_on c (x ++ t) = init ++ [s ++ t].
Proof.
  induction x as [|a x (init & s & Hx & Hs & Ht)].
  - exists [], []. repeat split; [tauto|].
    intros t Hc. simpl. apply split_on_no_sep. exact Hc.
  - cbn [split_on app]. destruct (Ascii.eqb_spec a c) as [->|Hac].
    + exists ([] :: init), s. rewrite Hx. repeat split; [exact Hs|].
      intros t Hc. rewrite (Ht t Hc). reflexivity.
    + destruct init as [|i rest].
      * exists [], (a :: s). rewrite Hx. repeat split.
        -- intros [H|H]; [congruence | auto].
        -- intros t Hc. rewrite (Ht t Hc). reflexivity.
      * exists ((a :: i) :: rest), s. rewrite Hx. repeat split; [exact Hs|].
        intros t Hc. rewrite (Ht t Hc). reflexivity.
Qed.

(** A raw string whose last segment is a name keeps it as the end of the
    normalised string, after everything else. *)
Lemma Normalize_last_name (pf : Platform) (x t : str) :
  ~ In (PATH_SEPARATOR pf) t ->
  (forall s : str, is_name (s ++ t) = true) ->
  exists before s : str,
    Normalize pf (x ++ t) = Returns (before ++ s ++ t) /\
    ~ In (PATH_SEPARATOR pf) s.
Proof.
  intros Ht Hname.
  destruct (split_on_last (PATH_SEPARATOR pf) x) as (init & s & Hx & Hs & Hxt).
  rewrite Normalize_render, (Hxt t Ht), fold_left_app. cbn [fold_left].
  rewrite (step_parts_name _ (s ++ t) (Hname s)).
  assert (Hst : s ++ t <> []).
  { specialize (Hname s). destruct (s ++ t); [discriminate | discriminate]. }
  assert (Hinit : parts_ok pf (fold_left step_parts init [])).
  { apply fold_step_parts_ok; [split; [constructor | reflexivity]|].
    pose proof (split_on_sep_free (PATH_SEPARATOR pf) x) as Hall.
    rewrite Hx in Hall. apply Forall_app in Hall. tauto. }
  destruct (fold_left step_parts init []) as [|q qs].
  - cbn [app]. rewrite (render_single pf (s ++ t) Hst).
    destruct pf.
    + exists [], s. split; [reflexivity | exact Hs].
    + exists [PATH_SEPARATOR Posix], s. split; [reflexivity | exact Hs].
  - assert (Hex : exists rp, render pf (q :: qs) = Returns rp)
      by (destruct pf; eexists; reflexivity).
    destruct Hex as [rp Hrp]. destruct Hinit as [Hall _].
    rewrite (render_snoc pf (q :: qs) (s ++ t) rp Hall ltac:(discriminate) Hrp).
    exists (rp ++ [PATH_SEPARATOR pf]), s. rewrite <- app_assoc.
    split; [reflexivity | exact Hs].
Qed.

(** X9. Replacing the extension and reading it back: for every path and
    every non-empty extension free of dots and separators,
    [ReplaceExtension(ext)] returns a path that has an extension, and its
    [Extension()] is [ext]. *)
Theorem ReplaceExtension_Extension (pf : Platform) (p : Path) (ext : str) :
  ext <> [] -> ~ In "."%char ext -> ~ In (PATH_SEPARATOR pf) ext ->
  exists q : Path,
    ReplaceExtension pf p ext = Returns q /\
    HasExtension pf q = true /\ Extension pf q = Returns ext.
Proof.
  intros Hne Hdot Hsep.
  assert (Hctor : forall x : str,
             exists q : Path,
               Path_ctor pf (x ++ "." ++ ext) = Returns q /\
               HasExtension pf q = true /\ Extension pf q = Returns ext).
  { intros x.
    assert (Ht : ~ In (PATH_SEPARATOR pf) ("." ++ ext)).
    { intros [H|H]; [|auto]. apply (separator_not_dot pf). symmetry. exact H. }
    assert (Hname : forall s : str, is_name (s ++ "." ++ ext) = true).
    { intros s. unfold is_name.
      assert (H1 : empty (s ++ "." ++ ext) = false) by (destruct s; reflexivity).
      assert (H2 : eqb (s ++ "." ++ ext) "." = false).
      { apply eqb_neq. intros E. destruct s as [|c s].
        - injection E as E. auto.
        - injection E as _ E. destruct s; discriminate. }
      assert (H3 : eqb (s ++ "." ++ ext) ".." = false).
      { apply eqb_neq. intros E. destruct s as [|c s].
        - injection E as E. apply Hdot. rewrite E. left. reflexivity.
        - injection E as _ E. destruct s as [|d s].
          + injection E as E. auto.
          + injection E as _ E. destruct s; discriminate. }
      rewrite H1, H2, H3. reflexivity. }
    destruct (Normalize_last_name pf x ("." ++ ext) Ht Hname)
      as (before & s & Hn & Hs).
    unfold Path_ctor. rewrite Hn. cbn [bind]. eexists. split; [reflexivity|].
    apply (Extension_dotted pf _ (before ++ s) ext);
      [simpl mPath; rewrite <- app_assoc; reflexivity | exact Hdot | exact Hsep]. }
  unfold ReplaceExtension. destruct (negb (HasExtension pf p)); [apply Hctor|].
  destruct (find_last_of (mPath p) "."); [|apply Hctor].
  rewrite substr_0. cbn [bind]. apply Hctor.
Qed.

Lemma ReplaceExtension_Extension_witness :
  exists q : Path,
    ReplaceExtension Win32 (mkPath "a\b.txt") "md" = Returns q /\
    HasExtension Win32 q = true /\ Extension Win32 q = Returns ("md" : str).
Proof.
  apply (ReplaceExtension_Extension Win32 (mkPath "a\b.txt") "md").
  - discriminate.
  - cbv. intros H. repeat (destruct H as [H|H]; [discriminate|]). exact H.
  - cbv. intros H. repeat (destruct H as [H|H]; [discriminate|]). exact H.
Defined.

(** ** FileReader and FileWriter: what is written is what is read *)

Lemma ifstream_open_set_node (w : World) (p : str) (bytes : list u8) :
  denied w p = false ->
  ifstream_open (set_node w p (RegularFile bytes)) p = Some bytes.
Proof.
  intros Hd. unfold ifstream_open. rewrite nodes_set_node_same.
  simpl denied. rewrite Hd. reflexivity.
Qed.

Lemma ofstream_put_true (io : Device) (w w' : World) (p : str)
      (held : nat) (bytes : list u8) :
  write_fails io = false ->
  ofstream_put io w p held bytes = (true, w') ->
  exists old, nodes w p = Some (RegularFile old) /\
              w' = set_node w p (RegularFile (old ++ bytes)).
Proof.
  intros Hio. unfold ofstream_put. rewrite Hio.
  destruct (nodes w p) as [[old|]|]; try discriminate.
  intros [= <-]. exists old. split; reflexivity.
Qed.

(** X10. What [WriteBytes] stores is what [ReadBytes] returns: after a
    [WriteBytes(path, data)] that returned success on a device without write
    errors, on a device without read errors [ReadBytes(path)] is [data] and
    [QueryFileSize(path)] is its length; no other path is touched. *)
Theorem WriteBytes_ReadBytes (io io' : Device) (w w' : World) (path : Path)
        (data : list u8) :
  write_fails io = false ->
  WriteBytes io w path data = (true, w') ->
  (Z.of_nat (length data) <= vector_max_size)%Z ->
  seek_fails io' = false -> read_fails io' = false ->
  ReadBytes io' w' path = Returns data /\
  QueryFileSize w' path = Z.of_nat (length data) /\
  (forall q : str, q <> Str path -> nodes w' q = nodes w q).
Proof.
  intros Hio Hw Hlen Hseek Hread. unfold WriteBytes in Hw.
  destruct (ofstream_open_trunc w (Str path)) as [w1|] eqn:Hopen;
    [|discriminate].
  apply ofstream_open_trunc_Some in Hopen. destruct Hopen as [-> Hden].
  apply (ofstream_put_true io _ _ _ _ _ Hio) in Hw.
  destruct Hw as (old & Hold & ->).
  rewrite nodes_set_node_same in Hold. injection Hold as <-. cbn [app].
  assert (Hopen : ifstream_open
                    (set_node (set_node w (Str path) (RegularFile []))
                              (Str path) (RegularFile data)) (Str path)
                  = Some data)
    by (apply ifstream_open_set_node; exact Hden).
  unfold vector_max_size in Hlen.
  repeat split.
  - unfold ReadBytes. rewrite Hopen. unfold vector_ctor, vector_max_size.
    destruct (Z.ltb_spec (2 ^ 63 - 1) (Z.of_nat (length data))); [lia|].
    cbn [bind]. rewrite Hseek, Hread. cbn [orb].
    rewrite overwrite_all; [reflexivity|].
    rewrite repeat_length, Nat2Z.id. reflexivity.
  - unfold QueryFileSize. rewrite Hopen. apply u64_small. lia.
  - intros q Hq. rewrite !nodes_set_node_other by exact Hq. reflexivity.
Qed.

Lemma WriteBytes_ReadBytes_witness :
  ReadBytes healthy (snd (WriteBytes healthy sample_world (mkPath "new.bin")
                            [Byte.x01; Byte.x02])) (mkPath "new.bin")
  = Returns [Byte.x01; Byte.x02].
Proof.
  apply (WriteBytes_ReadBytes healthy healthy sample_world
           (snd (WriteBytes healthy sample_world (mkPath "new.bin")
                   [Byte.x01; Byte.x02]))
           (mkPath "new.bin") [Byte.x01; Byte.x02]).
  - reflexivity.
  - reflexivity.
  - vm_compute. discriminate.
  - reflexivity.
  - reflexivity.
Defined.

Lemma text_out_app (pf : Platform) (a b : str) :
  text_out pf (a ++ b) = text_out pf a ++ text_out pf b.
Proof.
  induction a as [|c a IH]; [reflexivity|].
  destruct pf; cbn [app text_out]; [destruct (Ascii.eqb c LF)|];
    rewrite IH; reflexivity.
Qed.

Lemma text_out_head (r : str) (y : u8) (rest : list u8) :
  text_out Win32 r = y :: rest -> Ascii.eqb (ascii_of_byte y) LF = false.
Proof.
  destruct r as [|c r]; [discriminate|]. cbn [text_out].
  destruct (Ascii.eqb c LF) eqn:E; intros [= <- _].
  - reflexivity.
  - rewrite ascii_of_byte_of_ascii. exact E.
Qed.

Lemma text_in_out (pf : Platform) (s : str) :
  (pf = Win32 -> ~ In CTRL_Z s) -> text_in pf (text_out pf s) = s.
Proof.
  destruct pf.
  - intros H. specialize (H eq_refl).
    induction s as [|c r IH]; [reflexivity|].
    assert (Hc : Ascii.eqb c CTRL_Z = false).
    { apply Ascii.eqb_neq. intros ->. apply H. left. reflexivity. }
    assert (Hr : ~ In CTRL_Z r) by (intros Hin; apply H; right; exact Hin).
    specialize (IH Hr). cbn [text_out].
    destruct (Ascii.eqb c LF) eqn:Elf.
    + apply Ascii.eqb_eq in Elf. subst c.
      cbn [text_in]. rewrite !ascii_of_byte_of_ascii.
      change (Ascii.eqb CR CTRL_Z) with false.
      change (Ascii.eqb CR CR && Ascii.eqb LF LF) with true.
      cbv iota. rewrite IH. reflexivity.
    + cbn [text_in]. rewrite ascii_of_byte_of_ascii, Hc.
      destruct (text_out Win32 r) as [|y rest] eqn:Eout.
      * destruct r as [|c' r']; [reflexivity|].
        cbn [text_out] in Eout. destruct (Ascii.eqb c' LF); discriminate.
      * rewrite (text_out_head r y rest Eout), andb_false_r.
        rewrite IH. reflexivity.
  - intros _. induction s as [|c r IH]; [reflexivity|].
    cbn [text_out text_in]. rewrite ascii_of_byte_of_ascii, IH. reflexivity.
Qed.

(** X11. What [WriteText] stores is what [ReadText] returns: after a
    [WriteText(path, t)] that returned success on a device without write
    errors, [ReadText(path)] is [t] when [t] ends with a line feed and [t]
    followed by one line feed otherwise (on Windows for a text without the
    Ctrl-Z character, which ends a text-mode read). *)
Theorem WriteText_ReadText (pf : Platform) (io : Device) (w w' : World)
        (path : Path) (t : str) :
  write_fails io = false ->
  WriteText pf io w path t = (true, w') ->
  (pf = Win32 -> ~ In CTRL_Z t) ->
  ReadText pf w' path = (if Ascii.eqb (back t) LF then t else t ++ [LF]).
Proof.
  intros Hio Hw Hz. unfold WriteText in Hw.
  destruct (ofstream_open_trunc w (Str path)) as [w1|] eqn:Hopen;
    [|discriminate].
  apply ofstream_open_trunc_Some in Hopen. destruct Hopen as [-> Hden].
  destruct (empty t); [discriminate|].
  apply (ofstream_put_true io _ _ _ _ _ Hio) in Hw.
  destruct Hw as (old & Hold & ->).
  rewrite nodes_set_node_same in Hold. injection Hold as <-. cbn [app].
  unfold ReadText.
  rewrite (ifstream_open_set_node (set_node w (Str path) (RegularFile []))
             _ _ Hden).
  destruct (Ascii.eqb (back t) LF); cbn [negb]; apply text_in_out;
    intros Hpf; specialize (Hz Hpf); [exact Hz|].
  intros Hin. apply in_app_or in Hin. destruct Hin as [Hin|[Hin|[]]];
    [auto | discriminate].
Qed.

Lemma WriteText_ReadText_witness :
  ReadText Win32 (snd (WriteText Win32 healthy sample_world (mkPath "n.txt")
                         ("a" ++ [LF] ++ "b"))) (mkPath "n.txt")
  = "a" ++ [LF] ++ "b" ++ [LF].
Proof.
  apply (WriteText_ReadText Win32 healthy sample_world
           (snd (WriteText Win32 healthy sample_world (mkPath "n.txt")
                   ("a" ++ [LF] ++ "b")))
           (mkPath "n.txt") ("a" ++ [LF] ++ "b")).
  - reflexivity.
  - reflexivity.
  - intros _. cbv. intros H.
    repeat (destruct H as [H|H]; [discriminate|]). exact H.
Defined.

Lemma put_lines_true (pf : Platform) (io : Device) (p : str)
      (lines : list str) :
  write_fails io = false ->
  forall (w w' : World) (held : nat) (old : list u8),
    put_lines pf io w p held lines = (true, w') ->
    nodes w p = Some (RegularFile old) ->
    nodes w' p
    = Some (RegularFile
              (old ++ text_out pf (concat (map (fun l => l ++ [LF]) lines))))
    /\ denied w' = denied w.
Proof.
  intros Hio.
  induction lines as [|line rest IH]; intros w w' held old Hput Hold.
  - injection Hput as <-. cbn [map concat text_out]. rewrite app_nil_r.
    split; [exact Hold | reflexivity].
  - cbn [put_lines] in Hput. cbv zeta in Hput.
    destruct (ofstream_put io w p held (text_out pf line)) as [ok1 w1] eqn:E1.
    destruct ok1.
    + destruct (ofstream_put io w1 p (held + length (text_out pf line))
                  (text_out pf [LF])) as [ok2 w2] eqn:E2.
      destruct ok2; cbn [negb] in Hput; [|discriminate].
      apply (ofstream_put_true io _ _ _ _ _ Hio) in E1.
      destruct E1 as (o1 & Ho1 & ->).
      rewrite Hold in Ho1. injection Ho1 as <-.
      apply (ofstream_put_true io _ _ _ _ _ Hio) in E2.
      destruct E2 as (o2 & Ho2 & ->).
      rewrite nodes_set_node_same in Ho2. injection Ho2 as <-.
      destruct (IH _ _ _ _ Hput (nodes_set_node_same _ _ _)) as [Hn Hd].
      split; [|exact Hd].
      rewrite Hn. cbn [map concat]. rewrite !text_out_app, <- !app_assoc.
      reflexivity.
    + cbn [negb] in Hput. discriminate.
Qed.

Lemma getline_line (l rest : str) :
  ~ In LF l -> getline (l ++ LF :: rest) = (l, Some rest).
Proof.
  induction l as [|c l IH]; intros H.
  - reflexivity.
  - cbn [app getline].
    destruct (Ascii.eqb_spec c LF) as [->|_]; [exfalso; apply H; left; reflexivity|].
    rewrite IH by (intros Hin; apply H; right; exact Hin). reflexivity.
Qed.

Lemma getlines_line (fuel : nat) (l rest : str) :
  ~ In LF l -> getlines (S fuel) (l ++ LF :: rest) = l :: getlines fuel rest.
Proof.
  intros H. pose proof (getline_line l rest H) as Hg.
  cbn [getlines]. destruct (l ++ LF :: rest) as [|c s] eqn:E.
  - destruct l; discriminate.
  - rewrite Hg. destruct fuel, rest; reflexivity.
Qed.

Lemma getlines_lines (lines : list str) :
  Forall (fun l : str => ~ In LF l) lines ->
  forall fuel : nat,
    length lines <= fuel ->
    getlines fuel (concat (map (fun l => l ++ [LF]) lines)) = lines.
Proof.
  induction 1 as [|l ls Hl _ IH]; intros fuel Hfuel.
  - destruct fuel; reflexivity.
  - destruct fuel as [|fuel]; [simpl in Hfuel; lia|].
    cbn [map concat]. rewrite <- app_assoc. cbn [app].
    rewrite (getlines_line fuel l _ Hl), IH by (simpl in Hfuel; lia).
    reflexivity.
Qed.

Lemma length_concat_lines (lines : list str) :
  length lines <= length (concat (map (fun l => l ++ [LF]) lines)).
Proof.
  induction lines as [|l ls IH]; [reflexivity|].
  cbn [map concat]. rewrite !length_app. simpl. lia.
Qed.

(** X12. What [WriteLines] stores is what [ReadLines] returns: after a
    [WriteLines(path, lines)] that returned success on a device without
    write errors, with lines free of line feeds (and, on Windows, of Ctrl-Z),
    [ReadLines(path)] is [lines]. *)
Theorem WriteLines_ReadLines (pf : Platform) (io : Device) (w w' : World)
        (path : Path) (lines : list str) :
  write_fails io = false ->
  WriteLines pf io w path lines = (true, w') ->
  Forall (fun l : str => ~ In LF l) lines ->
  (pf = Win32 -> Forall (fun l : str => ~ In CTRL_Z l) lines) ->
  ReadLines pf w' path = lines.
Proof.
  intros Hio Hw Hlf Hz. unfold WriteLines in Hw.
  destruct (ofstream_open_trunc w (Str path)) as [w1|] eqn:Hopen;
    [|discriminate].
  apply ofstream_open_trunc_Some in Hopen. destruct Hopen as [-> Hden].
  destruct (put_lines_true pf io _ lines Hio _ _ _ [] Hw
              (nodes_set_node_same _ _ _)) as [Hn Hd].
  cbn [app] in Hn.
  unfold ReadLines, ifstream_open. rewrite Hn, Hd. simpl denied. rewrite Hden.
  rewrite text_in_out.
  - apply getlines_lines; [exact Hlf | apply length_concat_lines].
  - intros Hpf. specialize (Hz Hpf). clear - Hz.
    induction Hz as [|l ls Hl _ IH]; [tauto|].
    cbn [map concat]. intros Hin. apply in_app_or in Hin.
    destruct Hin as [Hin|Hin]; [|auto].
    apply in_app_or in Hin. destruct Hin as [Hin|[Hin|[]]];
      [auto | discriminate].
Qed.

Lemma WriteLines_ReadLines_witness :
  ReadLines Win32
    (snd (WriteLines Win32 healthy sample_world (mkPath "l.txt")
            [("ab" : str); []; ("c" : str)])) (mkPath "l.txt")
  = [("ab" : str); []; ("c" : str)].
Proof.
  apply (WriteLines_ReadLines Win32 healthy sample_world
           (snd (WriteLines Win32 healthy sample_world (mkPath "l.txt")
                   [("ab" : str); []; ("c" : str)]))
           (mkPath "l.txt") [("ab" : str); []; ("c" : str)]).
  - reflexivity.
  - reflexivity.
  - repeat constructor; cbv; intros H;
      repeat (destruct H as [H|H]; [discriminate|]); exact H.
  - intros _. repeat constructor; cbv; intros H;
      repeat (destruct H as [H|H]; [discriminate|]); exact H.
Defined.

Lemma patch_read_back (old data : list u8) (pos : nat) :
  firstn (length data) (skipn pos (patch old pos data)) = data /\
  (data <> [] -> pos + length data <= length (patch old pos data)) /\
  length (patch old pos data) <= Nat.max (length old) (pos + length data).
Proof.
  unfold patch. destruct data as [|d ds].
  - repeat split; [congruence | lia].
  - set (data := d :: ds).
    set (pre := firstn pos old ++ repeat Byte.x00 (pos - length old)).
    assert (Hpre : length pre = pos).
    { unfold pre. rewrite length_app, length_firstn, repeat_length. lia. }
    replace (firstn pos old ++ repeat Byte.x00 (pos - length old) ++ data
             ++ skipn (pos + length data) old)
      with (pre ++ data ++ skipn (pos + length data) old)
      by (unfold pre; rewrite <- app_assoc; reflexivity).
    repeat split.
    + rewrite <- Hpre at 1. rewrite skipn_app, skipn_all, Nat.sub_diag.
      cbn [app skipn]. rewrite firstn_app, firstn_all, Nat.sub_diag.
      cbn [firstn]. apply app_nil_r.
    + intros _. rewrite !length_app, Hpre. lia.
    + rewrite !length_app, Hpre, length_skipn. lia.
Qed.

(** X13. [WriteBlock] writes into an existing file only, and what it writes
    is what [ReadBlock] returns: a missing file is not created, and after a
    [WriteBlock(path, data, offset)] that returned success on a device
    without write errors, on a device without read errors
    [ReadBlock(path, data.size(), offset)] is [data]. *)
Theorem WriteBlock_ReadBlock (io io' : Device) (w w' : World) (path : Path)
        (data : list u8) (offset : Z) :
  (nodes w (Str path) = None -> WriteBlock io w path data offset = (false, w)) /\
  (write_fails io = false ->
   WriteBlock io w path data offset = (true, w') ->
   (0 <= offset)%Z ->
   (Z.of_nat (length data) <= vector_max_size)%Z ->
   (forall old, nodes w (Str path) = Some (RegularFile old) ->
                (Z.of_nat (length old) < 2 ^ 63)%Z) ->
   seek_fails io' = false -> read_fails io' = false ->
   ReadBlock io' w' path (Z.of_nat (length data)) offset = Returns data).
Proof.
  split.
  - intros Hnone. unfold WriteBlock, ofstream_open_rw. rewrite Hnone.
    destruct (denied w (Str path)); reflexivity.
  - intros Hio Hw Hoff Hlen Hold Hseek Hread.
    unfold WriteBlock, ofstream_open_rw in Hw.
    destruct (denied w (Str path)) eqn:Hden; [discriminate|].
    destruct (nodes w (Str path)) as [[old|]|] eqn:Hnode; try discriminate.
    specialize (Hold old eq_refl).
    destruct (seek_fails io || (2 ^ 63 <=? offset)%Z) eqn:Hs; [discriminate|].
    apply orb_false_iff in Hs. destruct Hs as [_ Hs].
    apply Z.leb_gt in Hs.
    rewrite Hio in Hw. injection Hw as <-.
    unfold ReadBlock. rewrite (ifstream_open_set_node w _ _ Hden).
    destruct (patch_read_back old data (Z.to_nat offset)) as (Hback & Hlo & Hhi).
    set (content := patch old (Z.to_nat offset) data) in *.
    unfold vector_max_size in Hlen.
    destruct data as [|d ds].
    { rewrite orb_true_r. reflexivity. }
    specialize (Hlo ltac:(discriminate)).
    set (data := d :: ds) in *.
    assert (Hpos : (0 < Z.of_nat (length data))%Z) by (simpl; lia).
    rewrite (u64_small (Z.of_nat (length content))) by lia.
    rewrite (u64_small (offset + Z.of_nat (length data))) by lia.
    destruct (Z.leb_spec (Z.of_nat (length content)) offset); [lia|].
    destruct (Z.eqb_spec (Z.of_nat (length data)) 0); [lia|].
    destruct (Z.ltb_spec (Z.of_nat (length content))
                (offset + Z.of_nat (length data))); [lia|].
    cbn [orb]. rewrite Hseek.
    unfold vector_ctor, vector_max_size.
    destruct (Z.ltb_spec (2 ^ 63 - 1) (Z.of_nat (length data))); [lia|].
    cbn [bind]. rewrite Nat2Z.id, Hback, Hread, Z.ltb_irrefl. cbn [orb].
    rewrite overwrite_all; [reflexivity | apply repeat_length].
Qed.

Lemma WriteBlock_ReadBlock_witness :
  ReadBlock healthy
    (snd (WriteBlock healthy sample_world (mkPath "f.txt")
            [Byte.x01; Byte.x02] 2)) (mkPath "f.txt") 2 2
  = Returns [Byte.x01; Byte.x02].
Proof.
  apply (proj2 (WriteBlock_ReadBlock healthy healthy sample_world
                  (snd (WriteBlock healthy sample_world (mkPath "f.txt")
                          [Byte.x01; Byte.x02] 2))
                  (mkPath "f.txt") [Byte.x01; Byte.x02] 2)).
  - reflexivity.
  - reflexivity.
  - lia.
  - vm_compute. discriminate.
  - intros old H. vm_compute in H. injection H as <-. vm_compute. reflexivity.
  - reflexivity.
  - reflexivity.
Defined.

(** X14. Reading the whole file as one block is [ReadBytes]: for a file
    (if any) no longer than a vector can be,
    [ReadBlock(path, QueryFileSize(path), 0)] and [ReadBytes(path)] agree,
    whatever the device does. *)
Theorem ReadBlock_whole_file (io : Device) (w : World) (path : Path) :
  (forall bytes, ifstream_open w (Str path) = Some bytes ->
                 (Z.of_nat (length bytes) <= vector_max_size)%Z) ->
  ReadBlock io w path (QueryFileSize w path) 0 = ReadBytes io w path.
Proof.
  intros Hlen. unfold ReadBlock, QueryFileSize, ReadBytes.
  destruct (ifstream_open w (Str path)) as [bytes|]; [|reflexivity].
  specialize (Hlen bytes eq_refl). unfold vector_max_size in Hlen.
  pose proof (Zle_0_nat (length bytes)) as Hn.
  cbv zeta. rewrite (u64_small (Z.of_nat (length bytes))) by lia.
  cbn [Z.add]. rewrite (u64_small (Z.of_nat (length bytes))) by lia.
  unfold vector_ctor, vector_max_size.
  destruct (Z.ltb_spec (2 ^ 63 - 1) (Z.of_nat (length bytes))); [lia|].
  cbn [bind]. rewrite Nat2Z.id.
  destruct (Z.eqb_spec (Z.of_nat (length bytes)) 0) as [H0|H0].
  - rewrite orb_true_r. cbn [orb].
    assert (Hb : bytes = []) by (destruct bytes; [reflexivity | simpl in H0; lia]).
    subst bytes. destruct (seek_fails io || read_fails io); reflexivity.
  - destruct (Z.leb_spec (Z.of_nat (length bytes)) 0); [lia|].
    rewrite Z.ltb_irrefl. cbn [orb].
    destruct (seek_fails io); [reflexivity|]. cbn [orb].
    cbn [Z.to_nat skipn]. rewrite firstn_all, Z.ltb_irrefl, orb_false_r.
    destruct (read_fails io); reflexivity.
Qed.

Lemma ReadBlock_whole_file_witness :
  ReadBlock healthy sample_world (mkPath "f.txt")
    (QueryFileSize sample_world (mkPath "f.txt")) 0
  = ReadBytes healthy sample_world (mkPath "f.txt").
Proof.
  apply (ReadBlock_whole_file healthy sample_world (mkPath "f.txt")).
  intros bytes H. vm_compute in H. injection H as <-. vm_compute. discriminate.
Defined.

(** ** Path: creating directories *)

Lemma Create_frame (w w' : World) (p : Path) (ok : bool) :
  Create w p = (ok, w') ->
  ok = Exists w' p /\
  (forall (q : str) (n : Node), nodes w q = Some n -> nodes w' q = Some n).
Proof.
  unfold Create, Exists, CreateDirectoryA.
  destruct (nodes w (mPath p)) as [n|] eqn:Hn.
  - intros [= <- <-]. rewrite Hn. split; [reflexivity | auto].
  - destruct (denied w (mPath p)).
    + intros [= <- <-]. rewrite Hn. split; [reflexivity | auto].
    + intros [= <- <-]. rewrite nodes_set_node_same. split; [reflexivity|].
      intros q n Hq. rewrite nodes_set_node_other; [exact Hq|].
      intros ->. congruence.
Qed.

(** X15. [Create] reports whether the path exists afterwards, not whether
    it is a directory: the result is [Exists()] in the world it leaves, on a
    regular file it returns success and changes nothing, and it never
    removes or replaces what exists. *)
Theorem Create_reports_existence (w w' : World) (p : Path) (ok : bool) :
  Create w p = (ok, w') ->
  ok = Exists w' p /\
  (IsFile w p = true -> ok = true /\ w' = w /\ IsDirectory w' p = false) /\
  (Exists w p = false -> ok = true -> IsDirectory w' p = true) /\
  (forall (q : str) (n : Node), nodes w q = Some n -> nodes w' q = Some n).
Proof.
  intros H. destruct (Create_frame w w' p ok H) as [Hok Hframe].
  repeat split; try assumption.
  - revert H. unfold Create, Exists, IsFile in *.
    destruct (nodes w (mPath p)) as [[b|]|]; try discriminate.
    intros [= <- _]. reflexivity.
  - revert H. unfold Create, Exists, IsFile in *.
    destruct (nodes w (mPath p)) as [[b|]|]; try discriminate.
    intros [= _ <-]. reflexivity.
  - revert H. unfold Create, Exists, IsFile, IsDirectory in *.
    destruct (nodes w (mPath p)) as [[b|]|] eqn:E; try discriminate.
    intros [= _ <-]. rewrite E. reflexivity.
  - intros Hex Htrue. rewrite Htrue in H. clear Hok Htrue. revert H.
    unfold Create, CreateDirectoryA, IsDirectory. rewrite Hex.
    unfold Exists in Hex.
    destruct (nodes w (mPath p)) eqn:E; [discriminate|].
    destruct (denied w (mPath p)); [intros Hc; discriminate Hc|].
    intros [= <-]. rewrite nodes_set_node_same. reflexivity.
Qed.

Lemma Create_reports_existence_witness :
  fst (Create sample_world (mkPath "f.txt")) = true /\
  IsDirectory (snd (Create sample_world (mkPath "f.txt"))) (mkPath "f.txt")
  = false.
Proof.
  destruct (Create_reports_existence sample_world
              (snd (Create sample_world (mkPath "f.txt"))) (mkPath "f.txt")
              (fst (Create sample_world (mkPath "f.txt"))) eq_refl)
    as (_ & H & _).
  destruct (H eq_refl) as (H1 & _ & H3). split; assumption.
Defined.

(** X16. When [CreateAll] reports success the path exists afterwards, and
    whatever it returns, nothing that existed before has been removed or
    replaced. *)
Theorem CreateAll_sound (pf : Platform) (fuel : nat) :
  forall (w w' : World) (p : Path) (ok : bool),
    CreateAll pf fuel w p = Some (Returns (ok, w')) ->
    (ok = true -> Exists w' p = true) /\
    (forall (q : str) (n : Node), nodes w q = Some n -> nodes w' q = Some n).
Proof.
  induction fuel as [|fuel IH]; intros w w' p ok H; [discriminate|].
  assert (Hcreate : forall w0 : World,
             (forall (q : str) (n : Node),
                 nodes w q = Some n -> nodes w0 q = Some n) ->
             Some (Returns (Create w0 p)) = Some (Returns (ok, w')) ->
             (ok = true -> Exists w' p = true) /\
             (forall (q : str) (n : Node),
                 nodes w q = Some n -> nodes w' q = Some n)).
  { intros w0 Hw0 [= Hc]. destruct (Create_frame w0 w' p ok Hc) as [Hok Hfr].
    split; [intros ->; symmetry; exact Hok | auto]. }
  cbn [CreateAll] in H.
  destruct (Exists w p) eqn:Hex.
  - injection H as <- <-. split; auto.
  - destruct (negb (eqb (mPath p) [PATH_SEPARATOR pf]));
      [|apply (Hcreate w); auto].
    destruct (Parent pf p) as [parentPath|e]; [|discriminate].
    destruct (negb (Exists w parentPath)); [|apply (Hcreate w); auto].
    destruct (CreateAll pf fuel w parentPath) as [[[[|] w1]|e]|] eqn:Hrec;
      try discriminate.
    + destruct (IH _ _ _ _ Hrec) as [_ Hfr]. apply (Hcreate w1); auto.
    + injection H as <- <-. destruct (IH _ _ _ _ Hrec) as [_ Hfr].
      split; [discriminate | exact Hfr].
Qed.

Lemma CreateAll_sound_witness :
  exists w' : World,
    CreateAll Win32 3 sample_world (mkPath "d\x\y") = Some (Returns (true, w')) /\
    Exists w' (mkPath "d\x\y") = true /\
    nodes w' "f.txt" = nodes sample_world "f.txt".
Proof.
  eexists. split; [reflexivity|].
  destruct (CreateAll_sound Win32 3 sample_world _ (mkPath "d\x\y") true
              eq_refl) as [H1 H2].
  split; [exact (H1 eq_refl) | exact (H2 "f.txt" _ eq_refl)].
Defined.

(** ** StreamReader *)

Lemma good_goodbit (s : ifstream) :
  good s = true -> state s = goodbit.
Proof.
  unfold good. destruct (state s) as [[|] [|] [|]]; simpl; try discriminate.
  reflexivity.
Qed.

Lemma seekg_start (io : Device) (s : ifstream) :
  seek_fails io = false ->
  seekg io s 0 = mkIfstream (is_open s) (contents s) 0 (state s).
Proof. intros H. unfold seekg. rewrite H. reflexivity. Qed.

(** X17. [ReadAll] returns the whole file wherever the reader stands: for an
    open reader of a file that fits a vector, on a device without errors,
    it succeeds and hands back all the bytes of the file. *)
Theorem ReadAll_whole_file (io : Device) (r : StreamReader) (data : list u8) :
  IsOpen r = true ->
  mSize r = Z.of_nat (length (contents (mStream r))) ->
  (mSize r <= vector_max_size)%Z ->
  seek_fails io = false -> read_fails io = false ->
  exists r' : StreamReader,
    ReadAll io r data = Returns (true, contents (mStream r), r') /\
    contents (mStream r') = contents (mStream r) /\
    (mSize r <> 0%Z -> Position r' = mSize r).
Proof.
  intros Hopen Hsize Hmax Hseek Hread.
  unfold ReadAll, Size. rewrite Hopen. cbn [negb].
  destruct (Z.eqb_spec (mSize r) 0) as [H0|H0].
  - exists r. rewrite H0 in Hsize.
    destruct (contents (mStream r)); [|simpl in Hsize; lia].
    repeat split. congruence.
  - unfold Seek. rewrite Hopen. cbn [negb]. cbv zeta.
    rewrite (seekg_start io (mStream r) Hseek).
    unfold IsOpen in Hopen. apply andb_true_iff in Hopen.
    destruct Hopen as [Hisopen Hgood].
    pose proof (good_goodbit _ Hgood) as Hstate.
    unfold vector_max_size in Hmax.
    destruct (vector_resize_length data (mSize r)) as (data' & Hres & Hlen);
      [unfold vector_max_size; lia|].
    cbn [mStream mSize]. rewrite Hres. cbn [bind].
    unfold read_checked, good. cbn [state]. rewrite Hstate. cbn [eofbit failbit badbit negb andb].
    unfold read. rewrite Hread. cbn [gpos contents Z.to_nat skipn].
    rewrite <- Hsize, Z.leb_refl, Hsize, Nat2Z.id, firstn_all.
    cbn [state is_open].
    eexists. split; [|split].
    + unfold good. cbn [state eofbit failbit badbit goodbit negb andb].
      rewrite overwrite_all; [reflexivity|]. rewrite Hlen, Hsize, Nat2Z.id.
      reflexivity.
    + reflexivity.
    + intros _. unfold Position, IsOpen, good.
      cbn [mStream is_open state gpos eofbit failbit badbit goodbit negb andb].
      rewrite Hisopen. cbn [andb negb]. rewrite Z.add_0_l.
      apply u64_small. rewrite Hsize in *. lia.
Qed.

Lemma ReadAll_whole_file_witness :
  exists r' : StreamReader,
    ReadAll healthy (StreamReader_ctor sample_world (mkPath "f.txt")) []
    = Returns (true, [Byte.x61; Byte.x62; Byte.x63], r').
Proof.
  destruct (ReadAll_whole_file healthy
              (StreamReader_ctor sample_world (mkPath "f.txt")) [])
    as (r' & H & _); try reflexivity.
  - vm_compute. discriminate.
  - exists r'. exact H.
Defined.

Lemma getline_whole (s : str) : ~ In LF s -> getline s = (s, None).
Proof.
  induction s as [|c s IH]; intros H; [reflexivity|]. cbn [getline].
  destruct (Ascii.eqb_spec c LF) as [->|_]; [exfalso; apply H; left; reflexivity|].
  rewrite IH by (intros Hin; apply H; right; exact Hin). reflexivity.
Qed.

(** X18. Reading a last line that no line feed ends succeeds but leaves the
    reader unusable: the end-of-file flag is set, so [IsOpen] is false
    afterwards and [Seek], [Read], [ReadAll] and [ReadLine] all fail without
    touching anything; the reader cannot be rewound. *)
Theorem ReadLine_last_line (io : Device) (r : StreamReader) (line : str) :
  IsOpen r = true -> read_fails io = false ->
  map ascii_of_byte (skipn (Z.to_nat (gpos (mStream r))) (contents (mStream r)))
  <> [] ->
  ~ In LF (map ascii_of_byte
             (skipn (Z.to_nat (gpos (mStream r))) (contents (mStream r)))) ->
  exists r' : StreamReader,
    ReadLine io r line
    = (true,
       map ascii_of_byte
         (skipn (Z.to_nat (gpos (mStream r))) (contents (mStream r))), r') /\
    IsOpen r' = false /\
    (forall offset : Z, Seek io r' offset = (false, r')) /\
    (forall (data : list u8) (size : Z),
        Read io r' data size = Returns (false, data, r')) /\
    (forall data : list u8, ReadAll io r' data = Returns (false, data, r')) /\
    (forall l : str, ReadLine io r' l = (false, l, r')).
Proof.
  intros Hopen Hread Hne Hlf. unfold ReadLine at 1.
  rewrite Hopen, Hread. cbn [negb]. cbv zeta.
  rewrite (getline_whole _ Hlf).
  destruct (map ascii_of_byte
              (skipn (Z.to_nat (gpos (mStream r))) (contents (mStream r))))
    as [|c rest] eqn:E; [congruence|].
  eexists. split; [reflexivity|].
  assert (Hclosed : forall s sz,
             IsOpen (mkReader
                       (mkIfstream (is_open (mStream r)) (contents (mStream r))
                          s (mkState true (failbit (state (mStream r)))
                               (badbit (state (mStream r))))) sz) = false).
  { intros s sz. unfold IsOpen, good. cbn. apply andb_false_r. }
  split; [apply Hclosed|]. repeat split.
  - intros offset. unfold Seek. rewrite Hclosed. reflexivity.
  - intros data size. unfold Read. rewrite Hclosed. reflexivity.
  - intros data. unfold ReadAll. rewrite Hclosed. reflexivity.
  - intros l. unfold ReadLine. rewrite Hclosed. reflexivity.
Qed.

Lemma ReadLine_last_line_witness :
  exists r' : StreamReader,
    ReadLine healthy (StreamReader_ctor sample_world (mkPath "f.txt")) []
    = (true, ("abc" : str), r') /\
    IsOpen r' = false /\ Seek healthy r' 0 = (false, r').
Proof.
  destruct (ReadLine_last_line healthy
              (StreamReader_ctor sample_world (mkPath "f.txt")) [])
    as (r' & H1 & H2 & H3 & _).
  - reflexivity.
  - reflexivity.
  - vm_compute. discriminate.
  - vm_compute. intros H.
    repeat (destruct H as [H|H]; [discriminate|]). exact H.
  - exists r'. split; [exact H1|]. split; [exact H2 | exact (H3 0%Z)].
Defined.

(** X19. [Seek] followed by [Read] on a fresh reader is [ReadBlock]: for a
    non-empty range inside the file, on a device without errors, both
    succeed and deliver the same bytes, those of the range. *)
Theorem Seek_Read_is_ReadBlock (io : Device) (w : World) (path : Path)
        (bytes data : list u8) (size offset : Z) :
  ifstream_open w (Str path) = Some bytes ->
  (Z.of_nat (length bytes) < 2 ^ 63)%Z ->
  (0 <= offset)%Z -> (0 < size)%Z ->
  (offset + size <= Z.of_nat (length bytes))%Z ->
  seek_fails io = false -> read_fails io = false ->
  exists r1 r2 : StreamReader,
    Seek io (StreamReader_ctor w path) offset = (true, r1) /\
    Read io r1 data size
    = Returns (true, firstn (Z.to_nat size) (skipn (Z.to_nat offset) bytes), r2)
    /\
    ReadBlock io w path size offset
    = Returns (firstn (Z.to_nat size) (skipn (Z.to_nat offset) bytes)).
Proof.
  intros Hopen Hlen Hoff Hsize Hrange Hseek Hread.
  assert (Hgot : length (firstn (Z.to_nat size) (skipn (Z.to_nat offset) bytes))
                 = Z.to_nat size).
  { rewrite length_firstn, length_skipn. lia. }
  assert (Havail : (size <=? Z.of_nat (length (skipn (Z.to_nat offset) bytes)))%Z
                   = true).
  { apply Z.leb_le. rewrite length_skipn. lia. }
  unfold StreamReader_ctor. rewrite Hopen.
  unfold Seek, IsOpen, good. cbn [mStream is_open state goodbit eofbit failbit
                                   badbit negb andb mSize]. cbv zeta.
  unfold seekg. rewrite Hseek. cbn [orb is_open contents gpos state].
  destruct (Z.leb_spec (2 ^ 63) offset) as [H|_]; [lia|].
  cbn [state eofbit failbit badbit goodbit negb andb].
  eexists. eexists. split; [reflexivity|]. split.
  - unfold Read, IsOpen, Position, IsOpen, good.
    cbn [mStream mSize is_open state gpos contents goodbit eofbit failbit
         badbit negb andb orb].
    destruct (Z.eqb_spec size 0) as [H|_]; [lia|].
    rewrite (u64_small offset) by lia.
    rewrite (u64_small (Z.of_nat (length bytes))) by lia.
    rewrite (u64_small (offset + size)) by lia.
    destruct (Z.ltb_spec (Z.of_nat (length bytes)) (offset + size)) as [H|_];
      [lia|].
    destruct (vector_resize_length data size) as (data' & Hres & Hl);
      [unfold vector_max_size; lia|].
    rewrite Hres. cbn [bind]. unfold read. rewrite Hread.
    cbn [gpos contents is_open state]. rewrite Havail.
    cbn [state eofbit failbit badbit goodbit negb andb].
    rewrite overwrite_all by (rewrite Hl, Hgot; reflexivity).
    reflexivity.
  - unfold ReadBlock. rewrite Hopen. cbv zeta.
    rewrite (u64_small (Z.of_nat (length bytes))) by lia.
    rewrite (u64_small (offset + size)) by lia.
    destruct (Z.leb_spec (Z.of_nat (length bytes)) offset) as [H|_]; [lia|].
    destruct (Z.eqb_spec size 0) as [H|_]; [lia|].
    destruct (Z.ltb_spec (Z.of_nat (length bytes)) (offset + size)) as [H|_];
      [lia|].
    cbn [orb]. rewrite Hseek. unfold vector_ctor, vector_max_size.
    destruct (Z.ltb_spec (2 ^ 63 - 1) size) as [H|_]; [lia|].
    cbn [bind]. rewrite Hread, Hgot. cbn [orb].
    rewrite Z2Nat.id, Z.ltb_irrefl by lia.
    rewrite overwrite_all by (rewrite repeat_length, Hgot; reflexivity).
    reflexivity.
Qed.

Lemma Seek_Read_is_ReadBlock_witness :
  exists r1 r2 : StreamReader,
    Seek healthy (StreamReader_ctor sample_world (mkPath "f.txt")) 1 = (true, r1) /\
    Read healthy r1 [] 2 = Returns (true, [Byte.x62; Byte.x63], r2) /\
    ReadBlock healthy sample_world (mkPath "f.txt") 2 1
    = Returns [Byte.x62; Byte.x63].
Proof.
  apply (Seek_Read_is_ReadBlock healthy sample_world (mkPath "f.txt")
           [Byte.x61; Byte.x62; Byte.x63] [] 2 1);
    try reflexivity; try lia; vm_compute; congruence.
Defined.

(** ** StreamWriter *)

Lemma patch_at_end (old bytes : list u8) :
  patch old (length old) bytes = old ++ bytes.
Proof.
  unfold patch. destruct bytes as [|b bs]; [symmetry; apply app_nil_r|].
  rewrite firstn_all, Nat.sub_diag, skipn_all2 by lia.
  cbn [repeat app]. rewrite app_nil_r. reflexivity.
Qed.

(** Handing held bytes to a working device moves them from the stream to the
    end of the file. *)
Lemma drain_at_end (io : Device) (w : World) (s : Writer.ofstream) (k : nat)
      (stored : list u8) :
  write_fails io = false ->
  nodes w (Writer.path s) = Some (RegularFile stored) ->
  Writer.app s = true \/ Writer.ppos s = Z.of_nat (length stored) ->
  k <= length (Writer.held s) ->
  exists (s' : Writer.ofstream) (w' : World),
    Writer.drain io w s k = (s', w') /\
    Writer.is_open s' = Writer.is_open s /\
    Writer.path s' = Writer.path s /\
    Writer.app s' = Writer.app s /\
    Writer.good s' = Writer.good s /\
    Writer.held s' = skipn k (Writer.held s) /\
    nodes w' (Writer.path s)
    = Some (RegularFile (stored ++ firstn k (Writer.held s))) /\
    (Writer.app s' = true \/
     Writer.ppos s'
     = Z.of_nat (length (stored ++ firstn k (Writer.held s)))).
Proof.
  intros Hio Hnode Hpos Hk. unfold Writer.drain.
  destruct (Nat.eqb_spec k 0) as [->|Hk0].
  - exists s, w. cbn [firstn skipn]. rewrite app_nil_r.
    repeat split; assumption.
  - rewrite Hio, Hnode.
    assert (E : (if Writer.app s then length stored
                 else Z.to_nat (Writer.ppos s)) = length stored).
    { destruct Hpos as [-> | ->]; [reflexivity|].
      destruct (Writer.app s); [reflexivity | apply Nat2Z.id]. }
    rewrite E, patch_at_end. eexists. eexists. split; [reflexivity|].
    cbn [Writer.is_open Writer.path Writer.app Writer.good Writer.held
         Writer.ppos].
    rewrite nodes_set_node_same. repeat split.
    right. rewrite length_app, length_firstn, Nat.min_l by exact Hk.
    reflexivity.
Qed.

Lemma write_at_end (io : Device) (w : World) (sw : Writer.StreamWriter)
      (bytes content : list u8) :
  write_fails io = false -> Writer.IsOpen sw = true ->
  writes_at_end w sw content ->
  exists (s' : Writer.ofstream) (w' : World),
    Writer.write io w (Writer.mStream sw) bytes = (s', w') /\
    Writer.good s' = true /\
    Writer.IsOpen (Writer.mkWriter s') = true /\
    Writer.path s' = Writer.path (Writer.mStream sw) /\
    writes_at_end w' (Writer.mkWriter s') (content ++ bytes).
Proof.
  intros Hio Hopen (stored & Hnode & Hcontent & Hpos).
  unfold Writer.IsOpen in Hopen. apply andb_true_iff in Hopen.
  destruct Hopen as [His Hgood]. unfold Writer.write.
  set (s1 := Writer.mkOfstream (Writer.is_open (Writer.mStream sw))
               (Writer.path (Writer.mStream sw))
               (Writer.app (Writer.mStream sw))
               (Writer.ppos (Writer.mStream sw))
               (Writer.held (Writer.mStream sw) ++ bytes)
               (Writer.good (Writer.mStream sw))).
  set (k := Nat.min (drains io (length (Writer.held (Writer.mStream sw)))
                       (length bytes))
                    (length (Writer.held s1))).
  destruct (drain_at_end io w s1 k stored Hio Hnode Hpos (Nat.le_min_r _ _))
    as (s' & w' & Hd & H1 & H2 & H3 & H4 & H5 & H6 & H7).
  cbv zeta. rewrite Hd. exists s', w'. split; [reflexivity|].
  cbn [Writer.is_open Writer.path Writer.app Writer.good Writer.held s1]
    in H1, H2, H3, H4, H5, H6, H7.
  split; [rewrite H4; exact Hgood|].
  split; [unfold Writer.IsOpen; cbn [Writer.mStream];
          rewrite H1, H4, His, Hgood; reflexivity|].
  split; [exact H2|].
  exists (stored ++ firstn k (Writer.held (Writer.mStream sw) ++ bytes)).
  cbn [Writer.mStream]. rewrite H2. split; [exact H6|]. split; [|exact H7].
  rewrite H5, <- app_assoc, firstn_skipn, Hcontent, app_assoc. reflexivity.
Qed.

Lemma flush_at_end (io : Device) (w : World) (sw : Writer.StreamWriter)
      (content : list u8) :
  write_fails io = false -> Writer.IsOpen sw = true ->
  writes_at_end w sw content ->
  exists (s' : Writer.ofstream) (w' : World),
    Writer.flush io w (Writer.mStream sw) = (s', w') /\
    Writer.good s' = true /\
    Writer.is_open s' = true /\
    Writer.path s' = Writer.path (Writer.mStream sw) /\
    Writer.held s' = [] /\
    nodes w' (Writer.path (Writer.mStream sw)) = Some (RegularFile content) /\
    (Writer.app s' = true \/ Writer.ppos s' = Z.of_nat (length content)).
Proof.
  intros Hio Hopen (stored & Hnode & Hcontent & Hpos).
  unfold Writer.IsOpen in Hopen. apply andb_true_iff in Hopen.
  destruct Hopen as [His Hgood]. unfold Writer.flush.
  destruct (drain_at_end io w (Writer.mStream sw)
              (length (Writer.held (Writer.mStream sw))) stored
              Hio Hnode Hpos (Nat.le_refl _))
    as (s' & w' & Hd & H1 & H2 & H3 & H4 & H5 & H6 & H7).
  rewrite firstn_all, <- Hcontent in H6, H7. rewrite skipn_all in H5.
  exists s', w'. rewrite Hd, H1, H2, H4.
  repeat split; assumption.
Qed.

(** X20. A [StreamWriter] on a device without write errors appends, and the
    file holds everything once the writer is flushed or closed. The
    constructor leaves an open writer at the end of its file (empty after a
    truncating open). From there [Write(buffer, size)] with a non-zero size
    returns true and adds the first [min(size, buffer.size())] bytes of the
    buffer to what the file and the writer hold together, and [WriteLine]
    adds the line and a line feed; how much of it is already in the file is
    the buffering's business. After [Flush()] or [Close()] the file holds it
    all. [Write(buffer)] of an empty buffer returns false. *)
Theorem StreamWriter_appends (io : Device) (w : World) :
  (forall (p : Path) (append : bool),
      Writer.IsOpen (fst (Writer.StreamWriter_ctor w p append)) = true ->
      exists content : list u8,
        writes_at_end (snd (Writer.StreamWriter_ctor w p append))
                      (fst (Writer.StreamWriter_ctor w p append)) content /\
        (append = false -> content = []) /\
        (append = true ->
         forall old, nodes w (Str p) = Some (RegularFile old) ->
                     content = old)) /\
  (forall (sw : Writer.StreamWriter) (content : list u8),
      write_fails io = false -> Writer.IsOpen sw = true ->
      writes_at_end w sw content ->
      (forall (buffer : list u8) (size : Z),
          (0 < size)%Z ->
          exists (sw' : Writer.StreamWriter) (w' : World),
            Writer.Write io w sw buffer size = (true, sw', w') /\
            Writer.IsOpen sw' = true /\
            Writer.path (Writer.mStream sw')
            = Writer.path (Writer.mStream sw) /\
            writes_at_end w' sw'
              (content ++ firstn (Z.to_nat size) buffer)) /\
      (forall line : str,
          exists (sw' : Writer.StreamWriter) (w' : World),
            Writer.WriteLine io w sw line = (true, sw', w') /\
            Writer.IsOpen sw' = true /\
            Writer.path (Writer.mStream sw')
            = Writer.path (Writer.mStream sw) /\
            writes_at_end w' sw'
              (content ++ map byte_of_ascii (line ++ [LF]))) /\
      (exists (sw' : Writer.StreamWriter) (w' : World),
          Writer.Flush io w sw = (true, sw', w') /\
          Writer.IsOpen sw' = true /\
          nodes w' (Writer.path (Writer.mStream sw))
          = Some (RegularFile content) /\
          writes_at_end w' sw' content) /\
      (exists (sw' : Writer.StreamWriter) (w' : World),
          Writer.Close io w sw = (sw', w') /\
          Writer.IsOpen sw' = false /\
          nodes w' (Writer.path (Writer.mStream sw))
          = Some (RegularFile content)) /\
      Writer.Write_buffer io w sw [] = (false, sw, w)).
Proof.
  split.
  - intros p append. unfold Writer.StreamWriter_ctor.
    destruct append.
    + unfold ofstream_open_app. destruct (denied w (Str p)); [discriminate|].
      destruct (nodes w (Str p)) as [[old|]|] eqn:Hnode;
        cbn [fst snd]; try discriminate; intros _.
      * exists old. split; [|split; [discriminate|]].
        -- exists old. cbn [Writer.mStream Writer.path Writer.held Writer.app].
           rewrite app_nil_r. repeat split; [exact Hnode | left; reflexivity].
        -- intros _ old' [= <-]. reflexivity.
      * exists []. split; [|split; [reflexivity | intros _ old' Hc; discriminate Hc]].
        exists []. cbn [Writer.mStream Writer.path Writer.held Writer.app].
        rewrite nodes_set_node_same. repeat split. left. reflexivity.
    + destruct (ofstream_open_trunc w (Str p)) as [w1|] eqn:Hopen;
        cbn [fst snd]; [|discriminate]. intros _.
      apply ofstream_open_trunc_Some in Hopen. destruct Hopen as [-> _].
      exists []. split; [|split; [reflexivity | discriminate]].
      exists []. cbn [Writer.mStream Writer.path Writer.held Writer.app
                      Writer.ppos].
      rewrite nodes_set_node_same. repeat split. right. reflexivity.
  - intros sw content Hio Hopen Hend.
    split; [|split; [|split; [|split]]].
    + intros buffer size Hsize.
      assert (Hclamp :
                firstn (Z.to_nat (if (Z.of_nat (length buffer) <? size)%Z
                                  then Z.of_nat (length buffer) else size))
                       buffer
                = firstn (Z.to_nat size) buffer).
      { destruct (Z.ltb_spec (Z.of_nat (length buffer)) size); [|reflexivity].
        rewrite Nat2Z.id, firstn_all, firstn_all2 by lia. reflexivity. }
      unfold Writer.Write. rewrite Hopen. cbn [negb orb].
      destruct (Z.eqb_spec size 0); [lia|]. rewrite Hclamp.
      destruct (write_at_end io w sw (firstn (Z.to_nat size) buffer) content
                  Hio Hopen Hend) as (s' & w' & Hw & Hg & Ho & Hp & He).
      rewrite Hw, Hg. exists (Writer.mkWriter s'), w'.
      repeat split; assumption.
    + intros line. unfold Writer.WriteLine. rewrite Hopen. cbn [negb].
      destruct (write_at_end io w sw (map byte_of_ascii line) content
                  Hio Hopen Hend) as (s1 & w1 & Hw1 & Hg1 & Ho1 & Hp1 & He1).
      rewrite Hw1, Hg1.
      destruct (write_at_end io w1 (Writer.mkWriter s1)
                  (map byte_of_ascii [LF]) _ Hio Ho1 He1)
        as (s2 & w2 & Hw2 & Hg2 & Ho2 & Hp2 & He2).
      cbn [Writer.mStream] in Hw2, Hp2. rewrite Hw2, Hg2.
      exists (Writer.mkWriter s2), w2.
      rewrite map_app, app_assoc.
      repeat split; try assumption. cbn [Writer.mStream]. congruence.
    + unfold Writer.Flush. rewrite Hopen. cbn [negb].
      destruct (flush_at_end io w sw content Hio Hopen Hend)
        as (s' & w' & Hf & Hg & Hi & Hp & Hh & Hn & Hpos).
      rewrite Hf, Hg. exists (Writer.mkWriter s'), w'.
      split; [reflexivity|].
      split; [unfold Writer.IsOpen; cbn [Writer.mStream];
              rewrite Hi, Hg; reflexivity|].
      split; [exact Hn|].
      exists content. cbn [Writer.mStream]. rewrite Hp, Hh, app_nil_r.
      repeat split; assumption.
    + unfold Writer.Close.
      pose proof Hopen as Hopen'. unfold Writer.IsOpen in Hopen'.
      apply andb_true_iff in Hopen'. destruct Hopen' as [His _]. rewrite His.
      destruct (flush_at_end io w sw content Hio Hopen Hend)
        as (s' & w' & Hf & Hg & Hi & Hp & Hh & Hn & Hpos).
      rewrite Hf. eexists. eexists. split; [reflexivity|].
      split; [reflexivity | exact Hn].
    + unfold Writer.Write_buffer, Writer.Write. rewrite Hopen. reflexivity.
Qed.

Lemma StreamWriter_appends_witness :
  fst (fst (Writer.Write healthy
              (snd (Writer.StreamWriter_ctor sample_world (mkPath "f.txt") true))
              (fst (Writer.StreamWriter_ctor sample_world (mkPath "f.txt") true))
              [Byte.x64; Byte.x65; Byte.x66] 2)) = true /\
  exists (sw' : Writer.StreamWriter) (w' : World),
    Writer.Close healthy
      (snd (Writer.Write healthy
              (snd (Writer.StreamWriter_ctor sample_world (mkPath "f.txt") true))
              (fst (Writer.StreamWriter_ctor sample_world (mkPath "f.txt") true))
              [Byte.x64; Byte.x65; Byte.x66] 2))
      (snd (fst (Writer.Write healthy
              (snd (Writer.StreamWriter_ctor sample_world (mkPath "f.txt") true))
              (fst (Writer.StreamWriter_ctor sample_world (mkPath "f.txt") true))
              [Byte.x64; Byte.x65; Byte.x66] 2)))
    = (sw', w') /\
    Writer.IsOpen sw' = false /\
    nodes w' "f.txt"
    = Some (RegularFile [Byte.x61; Byte.x62; Byte.x63; Byte.x64; Byte.x65]).
Proof.
  split; [reflexivity|].
  apply (proj2 (StreamWriter_appends healthy
                  (snd (Writer.Write healthy
                          (snd (Writer.StreamWriter_ctor sample_world
                                  (mkPath "f.txt") true))
                          (fst (Writer.StreamWriter_ctor sample_world
                                  (mkPath "f.txt") true))
                          [Byte.x64; Byte.x65; Byte.x66] 2)))
               (snd (fst (Writer.Write healthy
                          (snd (Writer.StreamWriter_ctor sample_world
                                  (mkPath "f.txt") true))
                          (fst (Writer.StreamWriter_ctor sample_world
                                  (mkPath "f.txt") true))
                          [Byte.x64; Byte.x65; Byte.x66] 2)))
               [Byte.x61; Byte.x62; Byte.x63; Byte.x64; Byte.x65]
               eq_refl eq_refl).
  exists [Byte.x61; Byte.x62; Byte.x63].
  split; [reflexivity|]. split; [reflexivity | left; reflexivity].
Defined.

(** ** DirectoryIterator: the entries a loop visits *)

Lemma is_dot_names (name : str) :
  is_dot name = false -> name <> "." /\ name <> "..".
Proof.
  unfold is_dot. intros H. apply orb_false_iff in H. destruct H as [H1 H2].
  apply eqb_neq in H1, H2. split; assumption.
Qed.

Lemma walk_entries (root : Path) (pending : list str) :
  mPath root <> [] ->
  forall (name : str) (it : DirectoryIterator) (fuel : nat),
    mIsEnd it = false -> mRoot it = root ->
    file_name name -> Forall file_name pending ->
    S (length pending) < fuel ->
    exists (it' : DirectoryIterator) (paths : list Path),
      ProcessCurrentEntry Win32 it name pending = Returns it' /\
      walk Win32 fuel it' = Some (Returns paths) /\
      Forall2 (fun (p : Path) (n : str) =>
                 op_div Win32 root n = Returns p /\ Filename p = Returns n)
              paths (filter (fun n => negb (is_dot n)) (name :: pending)).
Proof.
  intros Hroot.
  induction pending as [|next rest IH];
    intros name it fuel Hend Hit Hname Hpending Hfuel.
  - destruct fuel as [|[|fuel]]; [simpl in Hfuel; lia | simpl in Hfuel; lia|].
    cbn [ProcessCurrentEntry filter]. destruct (is_dot name) eqn:Hd.
    + rewrite Hend. eexists. exists []. split; [reflexivity|].
      split; [reflexivity | constructor].
    + destruct (is_dot_names name Hd) as [H1 H2].
      destruct (op_div_Filename root name Hroot Hname H1 H2) as (p & Hp & Hf).
      rewrite Hit, Hp, Hend. cbn [bind negb].
      eexists. exists [p]. split; [reflexivity|]. split; [reflexivity|].
      constructor; [split; assumption | constructor].
  - inversion Hpending as [|? ? Hnext Hrest]; subst.
    cbn [filter]. destruct (is_dot name) eqn:Hd.
    + cbn [ProcessCurrentEntry]. rewrite Hd, Hend. cbn [negb].
      apply IH; try assumption; try reflexivity. simpl in Hfuel. lia.
    + destruct (is_dot_names name Hd) as [H1 H2].
      destruct (op_div_Filename (mRoot it) name Hroot Hname H1 H2)
        as (p & Hp & Hf).
      destruct fuel as [|fuel]; [lia|].
      destruct (IH next (mkIter false (mRoot it) p (Some (next :: rest))) fuel
                  eq_refl eq_refl Hnext Hrest ltac:(simpl in Hfuel; lia))
        as (it'' & paths & Hpce & Hwalk & Hall).
      cbn [ProcessCurrentEntry]. rewrite Hd, Hp, Hend. cbn [bind negb].
      eexists. exists (p :: paths). split; [reflexivity|]. split.
      * cbn [walk]. unfold iter_eqb at 1, op_incr at 1.
        cbn [mIsEnd mFindHandle andb orb mCurrent].
        rewrite Hpce, Hwalk. reflexivity.
      * constructor; [split; assumption | exact Hall].
Qed.

(** X21. A loop over the entries of a directory visits exactly what the
    system lists, in its order, without the two pseudo-entries: on Windows,
    for a directory whose listing holds proper file names, the iterator from
    [begin()] is stepped to [end()] without an exception, and the entries
    seen are [root / name] for the listed names other than [.] and [..],
    each with that name as its [Filename()]. *)
Theorem Entries_visit_listing (w : World) (root : Path) :
  mPath root <> [] -> IsDirectory w root = true ->
  Forall file_name (listing w (Str root ++ "\*")) ->
  exists (it : DirectoryIterator) (paths : list Path),
    DirectoryIterator_ctor Win32 w root = Returns it /\
    walk Win32 (S (length (listing w (Str root ++ "\*")))) it
    = Some (Returns paths) /\
    Forall2 (fun (p : Path) (n : str) =>
               op_div Win32 root n = Returns p /\ Filename p = Returns n)
            paths
            (filter (fun n => negb (is_dot n)) (listing w (Str root ++ "\*"))).
Proof.
  intros Hroot Hdir Hnames. unfold DirectoryIterator_ctor.
  cbn [mRoot]. rewrite Hdir. cbn [negb].
  destruct (listing w (Str root ++ "\*")) as [|first pending].
  - eexists. exists []. split; [reflexivity|].
    split; [reflexivity | constructor].
  - inversion Hnames as [|? ? Hfirst Hpending]; subst.
    apply (walk_entries root pending Hroot first
             (mkIter false root Path_default None)
             (S (length (first :: pending))) eq_refl eq_refl Hfirst Hpending).
    simpl. lia.
Qed.

Lemma Entries_visit_listing_witness :
  exists (it : DirectoryIterator) (paths : list Path),
    DirectoryIterator_ctor Win32 sample_world (mkPath "d") = Returns it /\
    walk Win32 5 it = Some (Returns paths) /\
    Forall2 (fun (p : Path) (n : str) =>
               op_div Win32 (mkPath "d") n = Returns p /\
               Filename p = Returns n)
            paths [("a.txt" : str); ("b.txt" : str)].
Proof.
  apply (Entries_visit_listing sample_world (mkPath "d")).
  - discriminate.
  - reflexivity.
  - repeat constructor; try discriminate; cbv; intros H;
      repeat (destruct H as [H|H]; [discriminate|]); exact H.
Defined.

(** ** The macros *)

Lemma land_bit (x b : Z) :
  (0 <= b)%Z ->
  Z.land x (2 ^ b) = if Z.testbit x b then (2 ^ b)%Z else 0%Z.
Proof.
  intros Hb. apply Z.bits_inj'. intros n Hn.
  rewrite Z.land_spec, Z.pow2_bits_eqb by exact Hb.
  destruct (Z.eqb_spec b n) as [->|Hne].
  - rewrite andb_true_r. destruct (Z.testbit x n) eqn:E.
    + rewrite Z.pow2_bits_true by exact Hn. reflexivity.
    + rewrite Z.bits_0. reflexivity.
  - rewrite andb_false_r. destruct (Z.testbit x b).
    + rewrite Z.pow2_bits_false by lia. reflexivity.
    + rewrite Z.bits_0. reflexivity.
Qed.

Lemma X_BIT_pow (bit : Z) : (0 <= bit < 64)%Z -> X_BIT bit = (2 ^ bit)%Z.
Proof.
  intros H. unfold X_BIT. rewrite Z.shiftl_1_l. apply u64_small.
  split; [apply Z.pow_nonneg; lia | apply Z.pow_lt_mono_r; lia].
Qed.

Lemma X_CHECKBIT_testbit (x bit : Z) :
  (0 <= bit < 64)%Z -> X_CHECKBIT x bit = Z.testbit x bit.
Proof.
  intros H. unfold X_CHECKBIT. rewrite (X_BIT_pow bit H), land_bit by lia.
  assert (Hp : (0 < 2 ^ bit)%Z) by (apply Z.pow_pos_nonneg; lia).
  destruct (Z.testbit x bit); [|reflexivity].
  destruct (Z.eqb_spec (2 ^ bit) 0); [lia | reflexivity].
Qed.

(** X22. The bit macros act on one bit: for bit numbers below 64,
    [X_CHECKBIT] after [X_SETBIT] is true at the bit set, after
    [X_CLEARBIT] false at the bit cleared, after [X_TOGGLEBIT] the opposite
    at the bit toggled, and what it was at every other bit; toggling twice
    gives the value back. *)
Theorem bit_macros (x bit b : Z) :
  (0 <= bit < 64)%Z -> (0 <= b < 64)%Z ->
  X_CHECKBIT (X_SETBIT x bit) b = ((b =? bit)%Z || X_CHECKBIT x b) /\
  X_CHECKBIT (X_CLEARBIT x bit) b = (negb (b =? bit)%Z && X_CHECKBIT x b) /\
  X_CHECKBIT (X_TOGGLEBIT x bit) b = xorb (b =? bit)%Z (X_CHECKBIT x b) /\
  X_TOGGLEBIT (X_TOGGLEBIT x bit) bit = x.
Proof.
  intros Hbit Hb.
  rewrite !(fun y => X_CHECKBIT_testbit y b Hb).
  unfold X_SETBIT, X_CLEARBIT, X_TOGGLEBIT. rewrite (X_BIT_pow bit Hbit).
  assert (Hpow : Z.testbit (2 ^ bit) b = (b =? bit)%Z).
  { rewrite Z.pow2_bits_eqb by lia. apply Z.eqb_sym. }
  repeat split.
  - rewrite Z.lor_spec, Hpow. apply orb_comm.
  - rewrite Z.land_spec. unfold u64.
    rewrite Z.mod_pow2_bits_low, Z.lnot_spec, Hpow by lia. apply andb_comm.
  - rewrite Z.lxor_spec, Hpow. apply xorb_comm.
  - rewrite Z.lxor_assoc, Z.lxor_nilpotent, Z.lxor_0_r. reflexivity.
Qed.

Lemma bit_macros_witness :
  X_CHECKBIT (X_SETBIT 5 1) 1 = true /\
  X_CHECKBIT (X_CLEARBIT 5 2) 2 = false /\
  X_CHECKBIT (X_TOGGLEBIT 5 0) 0 = false.
Proof.
  destruct (bit_macros 5 1 1 ltac:(lia) ltac:(lia)) as (H1 & _).
  destruct (bit_macros 5 2 2 ltac:(lia) ltac:(lia)) as (_ & H2 & _).
  destruct (bit_macros 5 0 0 ltac:(lia) ltac:(lia)) as (_ & _ & H3 & _).
  repeat split; assumption.
Defined.

Lemma common_type_same (t : ctype) : common_type t t = t.
Proof. destruct t; reflexivity. Qed.

(** X23. [X_CLAMP] keeps a value inside its bounds when the three operands
    have one and the same integer type: with [min <= max] the result lies
    between them and is the value itself when that does, and with
    [max < min] the result is [max]. With operands of mixed signedness the
    usual arithmetic conversions break this: [X_CLAMP(-1, 0u, 255u)] is
    [255u], and [X_CLAMP(5u, -1, 10)] is [10u] although 5 lies between the
    bounds. *)
Theorem X_CLAMP_bounds :
  (forall (t : ctype) (value min max : Z),
      convert_to t value = value -> convert_to t min = min ->
      convert_to t max = max ->
      exists r : Z,
        X_CLAMP (mkValue t value) (mkValue t min) (mkValue t max)
        = mkValue t r /\
        ((min <= max)%Z ->
         (min <= r <= max)%Z /\ ((min <= value <= max)%Z -> r = value)) /\
        ((max < min)%Z -> r = max)) /\
  X_CLAMP (mkValue c_int (-1)) (mkValue c_uint 0) (mkValue c_uint 255)
  = mkValue c_uint 255 /\
  X_CLAMP (mkValue c_uint 5) (mkValue c_int (-1)) (mkValue c_int 10)
  = mkValue c_uint 10.
Proof.
  split; [|split; reflexivity].
  intros t value min max Hv Hlo Hhi.
  unfold X_CLAMP, X_MAX. cbn [ctype_of value_of].
  rewrite common_type_same, Hv, Hlo, Z.gtb_ltb.
  destruct (Z.ltb_spec min value) as [H1|H1];
    unfold X_MIN; cbn [ctype_of value_of];
    rewrite common_type_same, Hhi, ?Hv, ?Hlo;
    match goal with |- context [(?a <? ?b)%Z] =>
      destruct (Z.ltb_spec a b) as [H2|H2] end;
    eexists; (split; [reflexivity|]); repeat split; intros; lia.
Qed.

Lemma X_CLAMP_bounds_witness :
  exists r : Z,
    X_CLAMP (mkValue c_int 300) (mkValue c_int 0) (mkValue c_int 255)
    = mkValue c_int r /\ (0 <= r <= 255)%Z.
Proof.
  destruct (proj1 X_CLAMP_bounds c_int 300%Z 0%Z 255%Z eq_refl eq_refl eq_refl)
    as (r & Hr & Hin & _).
  exists r. split; [exact Hr | exact (proj1 (Hin ltac:(lia)))].
Defined.

(** ** The fixed-buffer string helpers *)

Lemma c_str_length (s : list ascii) : length (c_str s) <= length s.
Proof.
  induction s as [|c r IH]; simpl; [lia|].
  destruct (Ascii.eqb c NUL); simpl; lia.
Qed.

Lemma c_str_terminated (s : list ascii) :
  In NUL s -> length (c_str s) < length s.
Proof.
  induction s as [|c r IH]; simpl; [tauto|].
  destruct (Ascii.eqb_spec c NUL) as [->|Hc]; simpl; [lia|].
  intros [H|H]; [congruence|]. specialize (IH H). lia.
Qed.

Lemma c_str_firstn (s : list ascii) : firstn (length (c_str s)) s = c_str s.
Proof.
  induction s as [|c r IH]; simpl; [reflexivity|].
  destruct (Ascii.eqb c NUL); simpl; [reflexivity|]. rewrite IH. reflexivity.
Qed.

Lemma c_str_no_nul (s : list ascii) : ~ In NUL (c_str s).
Proof.
  induction s as [|c r IH]; simpl; [tauto|].
  destruct (Ascii.eqb_spec c NUL) as [->|Hc]; simpl; [tauto|].
  intros [H|H]; [congruence | auto].
Qed.

Lemma c_str_app_nul (a b : list ascii) :
  ~ In NUL a -> c_str (a ++ NUL :: b) = a.
Proof.
  induction a as [|c a IH]; intros H; simpl.
  - reflexivity.
  - destruct (Ascii.eqb_spec c NUL) as [->|Hc];
      [exfalso; apply H; left; reflexivity|].
    rewrite IH by (intros Hin; apply H; right; exact Hin). reflexivity.
Qed.

Lemma count_chars_spec (limit : nat) :
  forall s : list ascii,
    In NUL s \/ limit <= length s ->
    count_chars s limit = Some (Nat.min (length (c_str s)) limit).
Proof.
  induction limit as [|limit IH]; intros s H.
  - rewrite Nat.min_0_r. destruct s; reflexivity.
  - destruct s as [|c r]; [destruct H as [[]|H]; simpl in H; lia|].
    cbn [count_chars c_str]. destruct (Ascii.eqb_spec c NUL) as [->|Hc].
    + reflexivity.
    + rewrite IH.
      * reflexivity.
      * destruct H as [[H|H]|H]; [congruence | left; exact H |
                                   right; simpl in H; lia].
Qed.

Lemma count_chars_overrun (limit : nat) :
  forall s : list ascii,
    ~ In NUL s -> length s < limit -> count_chars s limit = None.
Proof.
  induction limit as [|limit IH]; intros s Hs Hlen; [lia|].
  destruct s as [|c r]; [reflexivity|]. cbn [count_chars].
  destruct (Ascii.eqb_spec c NUL) as [->|Hc];
    [exfalso; apply Hs; left; reflexivity|].
  rewrite IH; [reflexivity | intros H; apply Hs; right; exact H |
               simpl in Hlen; lia].
Qed.

Lemma memcpy_ok (dst src : list ascii) (off n : nat) :
  off + n <= length dst -> n <= length src ->
  memcpy dst off src n
  = Some (firstn off dst ++ firstn n src ++ skipn (off + n) dst).
Proof.
  intros H1 H2. unfold memcpy.
  apply Nat.leb_le in H1, H2. rewrite H1, H2. reflexivity.
Qed.

Lemma store_ok (buf : list ascii) (i : nat) (c : ascii) :
  i < length buf -> store buf i c = Some (firstn i buf ++ c :: skipn (S i) buf).
Proof.
  intros H. unfold store. apply Nat.ltb_lt in H. rewrite H. reflexivity.
Qed.

(** Copying [pre] over the front of [d] and ending it with NUL. *)
Lemma terminate_after (pre d : list ascii) :
  length pre < length d -> ~ In NUL pre ->
  exists d2 : list ascii,
    store (pre ++ skipn (length pre) d) (length pre) NUL = Some d2 /\
    length d2 = length d /\ c_str d2 = pre /\
    skipn (S (length pre)) d2 = skipn (S (length pre)) d.
Proof.
  intros Hlen Hnul.
  assert (Hd1 : length (pre ++ skipn (length pre) d) = length d)
    by (rewrite length_app, length_skipn; lia).
  rewrite store_ok by (rewrite Hd1; exact Hlen).
  rewrite firstn_app, firstn_all, Nat.sub_diag. cbn [firstn].
  rewrite app_nil_r.
  assert (Hsk : skipn (S (length pre)) (pre ++ skipn (length pre) d)
                = skipn (S (length pre)) d).
  { rewrite skipn_app, skipn_all2 by lia.
    replace (S (length pre) - length pre) with 1 by lia.
    cbn [app]. rewrite skipn_skipn. reflexivity. }
  rewrite Hsk. eexists. split; [reflexivity|]. repeat split.
  - rewrite length_app. cbn [length]. rewrite length_skipn. lia.
  - apply c_str_app_nul. exact Hnul.
  - apply skipn_app_cons.
Qed.

Lemma store_front (d : list ascii) :
  0 < length d ->
  store d 0 NUL = Some (NUL :: tl d).
Proof.
  intros H. rewrite store_ok by exact H. destruct d; reflexivity.
Qed.

(** X24. [StrCopy] into an array of at least [dstSize > 0] characters, from
    a NUL-terminated source, stays inside both arrays. It succeeds exactly
    when the source string is shorter than [dstSize]; the destination then
    holds the source string and is unchanged after its terminator. Otherwise
    the destination holds the empty string and only its first character
    changed. *)
Theorem StrCopy_contract (d s : list ascii) (dstSize : nat) :
  0 < dstSize -> dstSize <= length d -> In NUL s ->
  exists (ok : bool) (d' : list ascii),
    StrCopy (Some d) dstSize (Some s) = Some (ok, Some d') /\
    length d' = length d /\
    ok = (length (c_str s) <? dstSize) /\
    (ok = true ->
     c_str d' = c_str s /\
     skipn (S (length (c_str s))) d' = skipn (S (length (c_str s))) d) /\
    (ok = false -> c_str d' = [] /\ tl d' = tl d).
Proof.
  intros Hpos Hsize Hs. unfold StrCopy.
  destruct (Nat.eqb_spec dstSize 0); [lia|].
  rewrite (count_chars_spec dstSize s (or_introl Hs)).
  pose proof (c_str_length s) as Hle.
  destruct (Nat.ltb_spec (length (c_str s)) dstSize) as [Hlt|Hge].
  - rewrite Nat.min_l by lia.
    destruct (Nat.leb_spec dstSize (length (c_str s))); [lia|].
    rewrite memcpy_ok by lia. rewrite c_str_firstn. cbn [firstn app Nat.add].
    destruct (terminate_after (c_str s) d ltac:(lia) (c_str_no_nul s))
      as (d2 & Hst & Hl & Hc & Hk).
    rewrite Hst. exists true, d2. repeat split; try assumption; discriminate.
  - rewrite Nat.min_r by lia. rewrite Nat.leb_refl.
    rewrite store_front by lia. exists false, (NUL :: tl d).
    repeat split; try discriminate.
    destruct d; [simpl in Hsize; lia | reflexivity].
Qed.

Lemma StrCopy_contract_witness :
  exists (ok : bool) (d' : list ascii),
    StrCopy (Some ("xxxxxx" : str)) 4 (Some ("ab" ++ [NUL])) = Some (ok, Some d')
    /\ ok = true /\ c_str d' = ("ab" : str).
Proof.
  destruct (StrCopy_contract ("xxxxxx" : str) ("ab" ++ [NUL]) 4)
    as (ok & d' & H1 & _ & H2 & H3 & _).
  - lia.
  - simpl. lia.
  - right. right. left. reflexivity.
  - exists ok, d'. split; [exact H1|]. split; [exact H2|].
    exact (proj1 (H3 H2)).
Defined.

(** X25. [StrConcat] on an array of at least [dstSize > 0] characters and a
    NUL-terminated source stays inside both arrays. It succeeds exactly when
    the two strings together are shorter than [dstSize], and the destination
    then holds the one followed by the other. When there is no room it
    leaves the destination alone, unless the destination string itself is
    not terminated within [dstSize] characters: it is then emptied. *)
Theorem StrConcat_contract (d s : list ascii) (dstSize : nat) :
  0 < dstSize -> dstSize <= length d -> In NUL s ->
  exists (ok : bool) (d' : list ascii),
    StrConcat (Some d) dstSize (Some s) = Some (ok, Some d') /\
    length d' = length d /\
    ok = (length (c_str d) + length (c_str s) <? dstSize) /\
    (ok = true ->
     c_str d' = c_str d ++ c_str s /\
     skipn (S (length (c_str d) + length (c_str s))) d'
     = skipn (S (length (c_str d) + length (c_str s))) d) /\
    (ok = false -> length (c_str d) < dstSize -> d' = d) /\
    (dstSize <= length (c_str d) -> c_str d' = [] /\ tl d' = tl d).
Proof.
  intros Hpos Hsize Hs. unfold StrConcat.
  destruct (Nat.eqb_spec dstSize 0); [lia|].
  rewrite (count_chars_spec dstSize d (or_intror Hsize)).
  pose proof (c_str_length s) as Hles. pose proof (c_str_length d) as Hled.
  destruct (Nat.le_gt_cases dstSize (length (c_str d))) as [Hfull|Hroom].
  - rewrite Nat.min_r by lia. rewrite Nat.leb_refl.
    rewrite store_front by lia. exists false, (NUL :: tl d).
    destruct (Nat.ltb_spec (length (c_str d) + length (c_str s)) dstSize);
      [lia|].
    repeat split; try discriminate; try lia.
    destruct d; [simpl in Hsize; lia | reflexivity].
  - rewrite Nat.min_l by lia.
    destruct (Nat.leb_spec dstSize (length (c_str d))); [lia|].
    rewrite (count_chars_spec (dstSize - length (c_str d)) s (or_introl Hs)).
    destruct (Nat.ltb_spec (length (c_str d) + length (c_str s)) dstSize)
      as [Hfit|Hnofit].
    + rewrite Nat.min_l by lia.
      destruct (Nat.leb_spec (dstSize - length (c_str d)) (length (c_str s)));
        [lia|].
      rewrite memcpy_ok by lia. rewrite !c_str_firstn.
      assert (Hpre : length (c_str d ++ c_str s)
                     = length (c_str d) + length (c_str s))
        by apply length_app.
      assert (Hnul : ~ In NUL (c_str d ++ c_str s)).
      { intros Hin. apply in_app_or in Hin.
        destruct Hin as [Hin|Hin];
          [exact (c_str_no_nul d Hin) | exact (c_str_no_nul s Hin)]. }
      destruct (terminate_after (c_str d ++ c_str s) d ltac:(lia) Hnul)
        as (d2 & Hst & Hl & Hc & Hk).
      rewrite Hpre, <- app_assoc in Hst. rewrite Hst.
      rewrite Hpre in Hk.
      exists true, d2. repeat split; try assumption; try discriminate; lia.
    + destruct (Nat.leb_spec (dstSize - length (c_str d))
                  (Nat.min (length (c_str s)) (dstSize - length (c_str d))));
        [|lia].
      exists false, d. repeat split; try discriminate; lia.
Qed.

Lemma StrConcat_contract_witness :
  exists (ok : bool) (d' : list ascii),
    StrConcat (Some ("ab" ++ [NUL] ++ "xxx")) 6 (Some ("cd" ++ [NUL]))
    = Some (ok, Some d') /\
    ok = true /\ c_str d' = ("abcd" : str).
Proof.
  destruct (StrConcat_contract ("ab" ++ [NUL] ++ "xxx") ("cd" ++ [NUL]) 6)
    as (ok & d' & H1 & _ & H2 & H3 & _).
  - lia.
  - simpl. lia.
  - right. right. left. reflexivity.
  - exists ok, d'. split; [exact H1|]. split; [exact H2|].
    exact (proj1 (H3 H2)).
Defined.

Lemma int_of_char_inj (x y : ascii) : int_of_char x = int_of_char y -> x = y.
Proof.
  unfold int_of_char. intros H.
  pose proof (nat_ascii_bounded x) as Hx. pose proof (nat_ascii_bounded y) as Hy.
  assert (E : nat_of_ascii x = nat_of_ascii y).
  { destruct (Z.ltb_spec (Z.of_nat (nat_of_ascii x)) 128);
      destruct (Z.ltb_spec (Z.of_nat (nat_of_ascii y)) 128); lia. }
  rewrite <- (ascii_nat_embedding x), <- (ascii_nat_embedding y), E.
  reflexivity.
Qed.

(** X26. [StrCompare] on two NUL-terminated arrays stays inside them, and its
    result is 0 exactly when the two strings agree on their first [maxLen]
    characters. *)
Theorem StrCompare_zero (maxLen : nat) :
  forall a b : list ascii,
    In NUL a -> In NUL b ->
    exists z : Z,
      StrCompare (Some a) (Some b) maxLen = Some z /\
      (z = 0%Z <-> firstn maxLen (c_str a) = firstn maxLen (c_str b)).
Proof.
  cbn [StrCompare].
  induction maxLen as [|n IH]; intros a b Ha Hb.
  - exists 0%Z. split; [destruct a; reflexivity|]. split; reflexivity.
  - destruct a as [|x a']; [destruct Ha|]. destruct b as [|y b']; [destruct Hb|].
    cbn [compare_chars c_str].
    destruct (Ascii.eqb_spec x y) as [->|Hxy]; cbn [negb orb].
    + destruct (Ascii.eqb_spec y NUL) as [->|Hy].
      * eexists. split; [reflexivity|]. split; [reflexivity | lia].
      * destruct (IH a' b') as (z & Hz & Hiff).
        -- destruct Ha as [Ha|Ha]; [congruence | exact Ha].
        -- destruct Hb as [Hb|Hb]; [congruence | exact Hb].
        -- exists z. split; [exact Hz|]. cbn [firstn]. rewrite Hiff.
           split; [intros ->; reflexivity | intros [= E]; exact E].
    + eexists. split; [reflexivity|]. split.
      * intros H. exfalso. apply Hxy. apply int_of_char_inj. lia.
      * intros H. exfalso.
        destruct (Ascii.eqb_spec x NUL) as [->|Hx];
          destruct (Ascii.eqb_spec y NUL) as [->|Hy];
          cbn [firstn] in H; congruence.
Qed.

Lemma StrCompare_zero_witness :
  exists z : Z,
    StrCompare (Some ("abc" ++ [NUL])) (Some ("abd" ++ [NUL])) 2 = Some z /\
    z = 0%Z.
Proof.
  destruct (StrCompare_zero 2 ("abc" ++ [NUL]) ("abd" ++ [NUL]))
    as (z & H1 & H2).
  - right. right. right. left. reflexivity.
  - right. right. right. left. reflexivity.
  - exists z. split; [exact H1|]. apply H2. reflexivity.
Defined.

(** X27. [StrLen] is the length of the string, at most [maxLen]: 0 for a
    null pointer, and for an array that holds a NUL or at least [maxLen]
    characters the smaller of the string length and [maxLen]. On a shorter
    array without NUL the loop reads past its end. *)
Theorem StrLen_bounded (s : list ascii) (maxLen : nat) :
  StrLen None maxLen = Some 0 /\
  (In NUL s \/ maxLen <= length s ->
   StrLen (Some s) maxLen = Some (Nat.min (length (c_str s)) maxLen)) /\
  (~ In NUL s -> length s < maxLen -> StrLen (Some s) maxLen = None).
Proof.
  split; [reflexivity|]. split.
  - apply count_chars_spec.
  - apply count_chars_overrun.
Qed.

Lemma StrLen_bounded_witness :
  StrLen (Some ("hello" ++ [NUL])) 3 = Some 3 /\
  StrLen (Some ("hello" : str)) 8 = None.
Proof.
  split.
  - apply (proj1 (proj2 (StrLen_bounded ("hello" ++ [NUL]) 3))).
    right. simpl. lia.
  - apply (proj2 (proj2 (StrLen_bounded ("hello" : str) 8))).
    + cbv. intros H. repeat (destruct H as [H|H]; [discriminate|]). exact H.
    + simpl. lia.
Defined.

(** ** DateTime *)

Lemma put_w2_two_digits (n : Z) :
  (0 <= n < 100)%Z -> two_digits (DateTime.put_w2 n) = true.
Proof.
  intros H.
  assert (Hall : forallb (fun k => two_digits (DateTime.put_w2 (Z.of_nat k)))
                         (seq 0 100) = true) by (vm_compute; reflexivity).
  rewrite forallb_forall in Hall.
  specialize (Hall (Z.to_nat n)). rewrite Z2Nat.id in Hall by lia.
  apply Hall. apply in_seq. lia.
Qed.

(** X28. [FormatTimeString] prints a 12-hour clock: for a valid time of day
    the text is [hh:mm:ss] followed by [ AM] before noon and [ PM] from noon
    on, each field two decimal digits, and the hour shown lies between 1 and
    12 and is congruent to the hour of the day modulo 12 (midnight and noon
    show 12). *)
Theorem FormatTimeString_shape (t : DateTime.tm) :
  (0 <= DateTime.tm_hour t < 24)%Z ->
  (0 <= DateTime.tm_min t < 60)%Z ->
  (0 <= DateTime.tm_sec t <= 60)%Z ->
  exists h : Z,
    (1 <= h <= 12)%Z /\ (h mod 12 = DateTime.tm_hour t mod 12)%Z /\
    DateTime.FormatTimeString t
    = DateTime.put_w2 h ++ ":" ++ DateTime.put_w2 (DateTime.tm_min t) ++ ":"
      ++ DateTime.put_w2 (DateTime.tm_sec t)
      ++ (if (DateTime.tm_hour t <? 12)%Z then " AM" else " PM") /\
    two_digits (DateTime.put_w2 h) = true /\
    two_digits (DateTime.put_w2 (DateTime.tm_min t)) = true /\
    two_digits (DateTime.put_w2 (DateTime.tm_sec t)) = true /\
    length (DateTime.FormatTimeString t) = 11.
Proof.
  intros Hh Hm Hs.
  set (h := if (Z.rem (DateTime.tm_hour t) 12 =? 0)%Z then 12%Z
            else Z.rem (DateTime.tm_hour t) 12).
  assert (Hrem : Z.rem (DateTime.tm_hour t) 12 = (DateTime.tm_hour t mod 12)%Z)
    by (apply Z.rem_mod_nonneg; lia).
  pose proof (Z.mod_pos_bound (DateTime.tm_hour t) 12 ltac:(lia)) as Hb.
  assert (Hrange : (1 <= h <= 12)%Z).
  { unfold h. rewrite Hrem.
    destruct (Z.eqb_spec (DateTime.tm_hour t mod 12) 0); lia. }
  assert (Hcong : (h mod 12 = DateTime.tm_hour t mod 12)%Z).
  { unfold h. rewrite Hrem.
    destruct (Z.eqb_spec (DateTime.tm_hour t mod 12) 0) as [E|E].
    - rewrite E. reflexivity.
    - apply Z.mod_small. lia. }
  assert (Hfmt : DateTime.FormatTimeString t
                 = DateTime.put_w2 h ++ ":" ++ DateTime.put_w2 (DateTime.tm_min t)
                   ++ ":" ++ DateTime.put_w2 (DateTime.tm_sec t)
                   ++ (if (DateTime.tm_hour t <? 12)%Z then " AM" else " PM")).
  { unfold DateTime.FormatTimeString. fold h.
    rewrite (Z.leb_antisym (DateTime.tm_hour t) 12).
    destruct (DateTime.tm_hour t <? 12)%Z; reflexivity. }
  pose proof (put_w2_two_digits h ltac:(lia)) as H1.
  pose proof (put_w2_two_digits (DateTime.tm_min t) ltac:(lia)) as H2.
  pose proof (put_w2_two_digits (DateTime.tm_sec t) ltac:(lia)) as H3.
  exists h. repeat split; try assumption; try lia.
  rewrite Hfmt.
  destruct (DateTime.put_w2 h) as [|a1 [|a2 [|? ?]]]; try discriminate.
  destruct (DateTime.put_w2 (DateTime.tm_min t)) as [|b1 [|b2 [|? ?]]];
    try discriminate.
  destruct (DateTime.put_w2 (DateTime.tm_sec t)) as [|c1 [|c2 [|? ?]]];
    try discriminate.
  destruct (DateTime.tm_hour t <? 12)%Z; reflexivity.
Qed.

Lemma FormatTimeString_shape_witness :
  length (DateTime.FormatTimeString (DateTime.mkTm 5 7 0)) = 11.
Proof.
  destruct (FormatTimeString_shape (DateTime.mkTm 5 7 0)
              ltac:(simpl; lia) ltac:(simpl; lia) ltac:(simpl; lia))
    as (h & _ & _ & _ & _ & _ & _ & H).
  exact H.
Defined.
